(** * A shallow embedding of the wordle solver

    The development follows [include/solver.hh] and the solver core
    ([solver::solve] and the functions below it).  Words are strings,
    indexes into the word lists are naturals, and the C++ [int] fields of
    a decision node are integers.  A [double] obtained by dividing two
    [int]s is the exact rational quotient: for counts far below 2^24, as
    word lists have, the rounded quotients compare with each other and
    with 1 as the exact ones do.  The worker threads of [solve] are run
    one after the other. *)

From Stdlib Require Import ZArith QArith Ascii String.
From stdpp Require Import base decidable option list numbers strings gmap sorting.

#[local] Set Warnings "-clear-no-such-hyp,-register-all".

Local Open Scope Z_scope.

(** ** Machine integers *)

(** Conversion of a value to [size_t] (64 bits, unsigned). *)
Definition to_size_t (z : Z) : Z := z mod 2 ^ 64.

(** Conversion of a value to [int] (32 bits, two's complement). *)
Definition to_int (z : Z) : Z :=
  let r := z mod 2 ^ 32 in if r <? 2 ^ 31 then r else r - 2 ^ 32.

(** Conversion of a value to [match_val_t], that is [uint8_t]. *)
Definition to_match_val_t (z : Z) : Z := z mod 2 ^ 8.

(** ** Constants of [class solver] *)

Definition NUM_WORD_LETTERS : nat := 5.
Definition NUM_ALLOWED_GUESSES : Z := 6.

(** [raise_power] of [helpers.hh]; the exponent only counts down, so it is
    a natural here. *)
Fixpoint raise_power (value : Z) (exponent : nat) : Z :=
  match exponent with
  | O => 1
  | S e => value * raise_power value e
  end.

Definition NUM_MATCH_VALS : Z := to_match_val_t (raise_power 3 NUM_WORD_LETTERS).
Definition ALL_GREENS_MATCH : Z := to_match_val_t (NUM_MATCH_VALS - 1).

(** ** The match encoder *)

(** [word[i]] for a [std::string]: the character at [i], and the
    terminating null character at [i = size()]. *)
Definition char_at (word : string) (i : nat) : ascii :=
  default "000"%char (String.get i word).

(** The inner loop of [calc_match_val]: the first [j], in the order of
    [js], that has not been consumed, carries [guess_chr] in the solution
    and is not a green position itself. *)
Fixpoint find_yellow (guess solution : string) (guess_chr : ascii)
    (seen_solution : list bool) (js : list nat) : option nat :=
  match js with
  | [] => None
  | j :: js' =>
      if default false (seen_solution !! j)
      then find_yellow guess solution guess_chr seen_solution js'
      else if bool_decide (guess_chr = char_at solution j)
                && negb (bool_decide (char_at guess j = char_at solution j))
           then Some j
           else find_yellow guess solution guess_chr seen_solution js'
  end.

(** The local variables of [calc_match_val] that live across iterations of
    its outer loop. *)
Record match_state := MatchState {
  match_val : Z;
  mult : Z;
  seen_solution : list bool;
  match_string : list ascii
}.

(** One iteration of the outer loop of [calc_match_val], at position [i],
    together with the [mult *= 3] of the loop header. *)
Definition match_step (guess solution : string) (st : match_state) (i : nat)
    : match_state :=
  let guess_chr := char_at guess i in
  if bool_decide (guess_chr = char_at solution i) then
    MatchState (match_val st + 2 * mult st) (mult st * 3)
               (<[i := true]> (seen_solution st))
               (<[i := "G"%char]> (match_string st))
  else
    match find_yellow guess solution guess_chr (seen_solution st)
                      (seq 0 NUM_WORD_LETTERS) with
    | Some j =>
        MatchState (match_val st + mult st) (mult st * 3)
                   (<[j := true]> (seen_solution st))
                   (<[i := "y"%char]> (match_string st))
    | None =>
        MatchState (match_val st) (mult st * 3)
                   (seen_solution st) (match_string st)
    end.

Definition match_init : match_state :=
  MatchState 0 1 (replicate NUM_WORD_LETTERS false)
             (replicate NUM_WORD_LETTERS "."%char).

Definition match_loop (guess solution : string) : match_state :=
  foldl (match_step guess solution) match_init (seq 0 NUM_WORD_LETTERS).

(** [solver::calc_match_val]: the match value, and [m_match_strings] with
    the rendering of the match stored at that value. *)
Definition calc_match_val (m_match_strings : list string)
    (guess solution : string) : Z * list string :=
  let st := match_loop guess solution in
  (to_match_val_t (match_val st),
   <[Z.to_nat (match_val st) := string_of_list_ascii (match_string st)]>
     m_match_strings).

(** ** Construction of a solver *)

(** The [std::runtime_error]s of [check_guesses_solutions], each with the
    word its message names. *)
Inductive runtime_error :=
| Empty_guesses
| Empty_solutions
| Solution_wrong_length (solution : string)
| Solution_not_a_guess (solution : string)
| Guess_wrong_length (guess : string).

(** The state of a [solver] that the search reads.  The thread counters
    and the mutex are left out; the memoisation map is threaded through
    the search below. *)
Record solver := Solver {
  m_num_valid_guesses : nat;
  m_num_solutions : nat;
  m_match_vals : list Z;
  m_match_strings : list string;
  m_prune_limit : Z
}.

(** The loop over the solutions in [check_guesses_solutions]. *)
Fixpoint check_solutions (valid_guesses solutions : list string)
    : option runtime_error :=
  match solutions with
  | [] => None
  | solution :: rest =>
      if negb (bool_decide (String.length solution = NUM_WORD_LETTERS))
      then Some (Solution_wrong_length solution)
      else if negb (bool_decide (solution ∈ valid_guesses))
      then Some (Solution_not_a_guess solution)
      else check_solutions valid_guesses rest
  end.

(** The loop over the guesses in [check_guesses_solutions]. *)
Fixpoint check_guesses (valid_guesses : list string) : option runtime_error :=
  match valid_guesses with
  | [] => None
  | guess :: rest =>
      if negb (bool_decide (String.length guess = NUM_WORD_LETTERS))
      then Some (Guess_wrong_length guess)
      else check_guesses rest
  end.

(** [solver::check_guesses_solutions]: [Some e] when it throws [e]. *)
Definition check_guesses_solutions (valid_guesses solutions : list string)
    : option runtime_error :=
  match valid_guesses with
  | [] => Some Empty_guesses
  | _ =>
      match solutions with
      | [] => Some Empty_solutions
      | _ =>
          match check_solutions valid_guesses solutions with
          | Some e => Some e
          | None => check_guesses valid_guesses
          end
      end
  end.

(** The body of the inner loop of [init_match_vals], on the pair of
    [m_match_vals] and [m_match_strings]. *)
Definition init_match_val (valid_guesses solutions : list string) (i : nat)
    (tables : list Z * list string) (j : nat) : list Z * list string :=
  let index := (i * length solutions + j)%nat in
  let r := calc_match_val tables.2 (default EmptyString (valid_guesses !! i))
                          (default EmptyString (solutions !! j)) in
  (<[index := r.1]> tables.1, r.2).

(** [solver::init_match_vals]. *)
Definition init_match_vals (valid_guesses solutions : list string)
    (tables : list Z * list string) : list Z * list string :=
  foldl (fun tables i =>
           foldl (init_match_val valid_guesses solutions i) tables
                 (seq 0 (length solutions)))
        tables (seq 0 (length valid_guesses)).

(** The constructor [solver::solver]: the error thrown, or the solver. *)
Definition new_solver (valid_guesses solutions : list string)
    : runtime_error + solver :=
  let num_valid_guesses := length valid_guesses in
  let num_solutions := length solutions in
  let match_vals := replicate (num_valid_guesses * num_solutions) 0 in
  let match_strings := replicate (Z.to_nat NUM_MATCH_VALS) EmptyString in
  match check_guesses_solutions valid_guesses solutions with
  | Some e => inl e
  | None =>
      let tables :=
        init_match_vals valid_guesses solutions (match_vals, match_strings) in
      inr (Solver num_valid_guesses num_solutions tables.1 tables.2 0)
  end.

(** [solver::lookup_match]. *)
Definition lookup_match (sv : solver) (guess_index solution_index : nat) : Z :=
  let index := (guess_index * m_num_solutions sv + solution_index)%nat in
  default 0 (m_match_vals sv !! index).

(** ** The guess ranker *)

(** The loop of [avg_solutions_per_unique_match]: the [seen] array and
    [num_unique_matches] after the solutions of [solution_indexes]. *)
Definition tally_match (sv : solver) (guess_index : nat)
    (acc : list bool * Z) (solution_index : nat) : list bool * Z :=
  let m := Z.to_nat (lookup_match sv guess_index solution_index) in
  if default false (acc.1 !! m) then acc
  else (<[m := true]> acc.1, acc.2 + 1).

Definition tally_matches (sv : solver) (solution_indexes : list nat)
    (guess_index : nat) : list bool * Z :=
  foldl (tally_match sv guess_index)
        (replicate (Z.to_nat NUM_MATCH_VALS) false, 0) solution_indexes.

(** [solver::avg_solutions_per_unique_match].  The result is a [double] in
    the source, the quotient of two [int]s; it is the exact quotient
    here. *)
Definition avg_solutions_per_unique_match (sv : solver)
    (solution_indexes : list nat) (guess_index : nat) : Q :=
  let tally := tally_matches sv solution_indexes guess_index in
  let size := Z.of_nat (length solution_indexes) in
  let num_solutions :=
    if default false (tally.1 !! Z.to_nat ALL_GREENS_MATCH)
    then to_int (to_size_t (size - 1))
    else to_int size in
  (inject_Z num_solutions / inject_Z tally.2)%Q.

(** Comparison [x < y] of two [double]s. *)
Definition double_lt (x y : Q) : bool := negb (Qle_bool y x).

(** The loop of [get_best_unique_match_guesses] over the guess indexes
    [guess_indexes], with [ret] as filled so far: [inl] is the early
    return of a single guess, [inr] the vector [ret] after the loop. *)
Fixpoint rank_guesses (get_avg : nat → Q) (guess_indexes : list nat)
    (ret : list (Q * nat)) : list (Q * nat) + list (Q * nat) :=
  match guess_indexes with
  | [] => inr ret
  | guess_index :: rest =>
      let avg := get_avg guess_index in
      if double_lt avg 1 then inl [(avg, guess_index)]
      else rank_guesses get_avg rest (ret ++ [(avg, guess_index)])
  end.

(** ** Decision nodes *)

(** [solver::node].  A child pointer is the child itself: a node is not
    written to once [solve] has returned it. *)
Inductive node := Node {
  guess_index : nat;
  total_depth : Z;
  solved_count : Z;
  min_depth : Z;
  is_leaf : bool;
  children : list node;
  leaves : list nat
}.

(** A node as [new node[n]] leaves it. *)
Definition new_node : node := Node 0 0 0 0 false [] [].

(** [node::average_num_guesses]. *)
Definition average_num_guesses (n : node) : Q :=
  if solved_count n =? 0 then 0%Q
  else (inject_Z (total_depth n) / inject_Z (solved_count n))%Q.

(** The memoisation map [memo_t]. *)
Abbreviation memo_t := (gmap (list nat) node).

(** [solver::lookup_memo]: [None] is the null pointer. *)
Definition lookup_memo (m_memo : memo_t) (key : list nat) : option node :=
  m_memo !! key.

(** [solver::set_memo]. *)
Definition set_memo (m_memo : memo_t) (key : list nat) (val : node) : memo_t :=
  <[key := val]> m_memo.

(** [std::ranges::min_element] with a projection: the first of the
    smallest elements, [None] on an empty range. *)
Fixpoint min_element_from {A} (proj : A → Q) (best : A) (rest : list A) : A :=
  match rest with
  | [] => best
  | x :: rest' =>
      if double_lt (proj x) (proj best) then min_element_from proj x rest'
      else min_element_from proj best rest'
  end.

Definition min_element {A} (proj : A → Q) (range : list A) : option A :=
  match range with
  | [] => None
  | x :: rest => Some (min_element_from proj x rest)
  end.

(** [std::swap] of the elements at two positions of an array. *)
Definition swap_nodes (i j : nat) (subtrees : list node) : list node :=
  match subtrees !! i, subtrees !! j with
  | Some a, Some b => <[i := b]> (<[j := a]> subtrees)
  | _, _ => subtrees
  end.

(** The lambda [within_depth] of [solve]. *)
Definition within_depth (depth : Z) (subtree : node) : bool :=
  bool_decide (depth + min_depth subtree ≤ NUM_ALLOWED_GUESSES).

(** The position in [subtrees] of the node [best] that [solve] selects. *)
Definition best_index (depth : Z) (subtrees : list node) : nat :=
  let filtered :=
    filter (λ i, within_depth depth (default new_node (subtrees !! i)))
           (seq 0 (length subtrees)) in
  default 0%nat
    (min_element
       (λ i, average_num_guesses (default new_node (subtrees !! i))) filtered).

(** [solver::mark_solved]. *)
Definition mark_solved (sv : solver) (subtree : node)
    (guess_index solution_index : nat) : node :=
  let 'Node guess total solved min_d leaf childs lvs := subtree in
  if lookup_match sv guess_index solution_index =? ALL_GREENS_MATCH then
    Node guess (total + 1) (solved + 1) (Z.max min_d 1) true childs lvs
  else
    Node guess (total + 1 + 1) (solved + 1) (Z.max min_d 2) leaf childs
         (lvs ++ [solution_index]).

(** [solver::get_solutions_by_match]. *)
Definition get_solutions_by_match (sv : solver) (guess_index : nat)
    (solution_indexes : list nat) : list (list nat) :=
  foldl (λ ret solution_index,
           alter (λ bucket, bucket ++ [solution_index])
                 (Z.to_nat (lookup_match sv guess_index solution_index)) ret)
        (replicate (Z.to_nat NUM_MATCH_VALS) []) solution_indexes.

(** ** The search *)

Section Recursion.

(** [partial_sort middle ret] is the content of the vector [ret] after
    [std::ranges::partial_sort(ret, ret.begin() + middle, {}, first)],
    a function of the standard library. *)
Variable partial_sort : nat → list (Q * nat) → list (Q * nat).

(** The solver whose match matrix and prune limit the search reads. *)
Variable sv : solver.

(** [solver::get_best_unique_match_guesses]. *)
Definition get_best_unique_match_guesses (solution_indexes : list nat)
    : list (Q * nat) :=
  let get_avg := avg_solutions_per_unique_match sv solution_indexes in
  match rank_guesses get_avg (seq 0 (m_num_valid_guesses sv)) [] with
  | inl early => early
  | inr ret =>
      let ret := partial_sort (Z.to_nat (m_prune_limit sv + 1)) ret in
      resize (Z.to_nat (m_prune_limit sv)) (0%Q, 0%nat) ret
  end.

(** The recursive call [solve(avail_solutions, depth + 1)] made by
    [traverse_match]: given the memoisation map, it yields the node and
    the map afterwards, or nothing when the call does not return. *)
Variable solve_rec : memo_t → list nat → Z → option (node * memo_t).

(** [solver::traverse_match], with the memoisation map threaded. *)
Definition traverse_match (m_memo : memo_t) (subtree : node)
    (guess_index : nat) (depth : Z) (avail_solutions : list nat)
    : option (node * memo_t * bool) :=
  match avail_solutions with
  | [] => Some (subtree, m_memo, true)
  | [solution_index] =>
      Some (mark_solved sv subtree guess_index solution_index, m_memo, true)
  | _ =>
      '(child, m_memo) ← solve_rec m_memo avail_solutions (depth + 1);
      let 'Node guess total solved min_d leaf childs lvs := subtree in
      let min_d := Z.min min_d (min_depth child + 1) in
      Some (Node guess (total + (solved_count child + total_depth child))
                 (solved + solved_count child) min_d leaf
                 (childs ++ [child]) lvs,
            m_memo,
            bool_decide (depth + min_d ≤ NUM_ALLOWED_GUESSES))
  end.

(** The loop of [traverse_matches] over the match values [matches]. *)
Fixpoint traverse_match_loop (solutions_by_match : list (list nat))
    (m_memo : memo_t) (subtree : node) (guess_index : nat) (depth : Z)
    (matches : list nat) : option (node * memo_t) :=
  match matches with
  | [] => Some (subtree, m_memo)
  | m :: rest =>
      let avail_solutions := default [] (solutions_by_match !! m) in
      '(subtree, m_memo, continue) ←
        traverse_match m_memo subtree guess_index depth avail_solutions;
      if (continue : bool)
      then traverse_match_loop solutions_by_match m_memo subtree
                               guess_index depth rest
      else Some (subtree, m_memo)
  end.

(** [solver::traverse_matches]. *)
Definition traverse_matches (m_memo : memo_t) (subtree : node)
    (guess_index : nat) (solution_indexes : list nat) (depth : Z)
    : option (node * memo_t) :=
  let solutions_by_match :=
    get_solutions_by_match sv guess_index solution_indexes in
  traverse_match_loop solutions_by_match m_memo subtree guess_index depth
                      (seq 0 (Z.to_nat NUM_MATCH_VALS)).

(** The first loop of [solve]: the nodes of the array [subtrees], one per
    guess of [best_guesses], each traversed in turn.  A worker thread is
    taken to run to its end before the next one starts. *)
Fixpoint explore (m_memo : memo_t) (solution_indexes : list nat)
    (depth : Z) (best_guesses : list (Q * nat))
    : option (list node * memo_t) :=
  match best_guesses with
  | [] => Some ([], m_memo)
  | (_, guess_index) :: rest =>
      let subtree := Node guess_index 0 0 0 false [] [] in
      '(subtree, m_memo) ←
        traverse_matches m_memo subtree guess_index solution_indexes depth;
      '(subtrees, m_memo) ← explore m_memo solution_indexes depth rest;
      Some (subtree :: subtrees, m_memo)
  end.

(** The end of [solve], from the array [subtrees] on: selection, the
    swap to the front, memoisation.  There is no node to return when the
    array is empty. *)
Definition select (m_memo : memo_t) (solution_indexes : list nat)
    (depth : Z) (subtrees : list node) : option (node * memo_t) :=
  let subtrees := swap_nodes (best_index depth subtrees) 0 subtrees in
  first ← subtrees !! 0%nat;
  Some (first, set_memo m_memo solution_indexes first).

(** The body of [solver::solve(solution_indexes, depth)]. *)
Definition solve_body (m_memo : memo_t) (solution_indexes : list nat)
    (depth : Z) : option (node * memo_t) :=
  match lookup_memo m_memo solution_indexes with
  | Some cached =>
      if within_depth depth cached then Some (cached, m_memo)
      else
        let best_guesses := get_best_unique_match_guesses solution_indexes in
        '(subtrees, m_memo) ←
          explore m_memo solution_indexes depth best_guesses;
        select m_memo solution_indexes depth subtrees
  | None =>
      let best_guesses := get_best_unique_match_guesses solution_indexes in
      '(subtrees, m_memo) ←
        explore m_memo solution_indexes depth best_guesses;
      select m_memo solution_indexes depth subtrees
  end.

End Recursion.

(** [solver::solve(solution_indexes, depth)], with a bound [fuel] on the
    depth of the recursion. *)
Fixpoint solve_indexes (partial_sort : nat → list (Q * nat) → list (Q * nat))
    (sv : solver) (fuel : nat) (m_memo : memo_t)
    (solution_indexes : list nat) (depth : Z) : option (node * memo_t) :=
  match fuel with
  | O => None
  | S fuel' =>
      solve_body partial_sort sv (solve_indexes partial_sort sv fuel')
                 m_memo solution_indexes depth
  end.

(** The assignment to [m_prune_limit] at the start of
    [solver::solve(prune_limit)]. *)
Definition set_prune_limit (sv : solver) (prune_limit : Z) : solver :=
  let limit :=
    to_int (Z.min (to_size_t prune_limit)
                  (to_size_t (Z.of_nat (m_num_valid_guesses sv) - 1))) in
  Solver (m_num_valid_guesses sv) (m_num_solutions sv)
         (m_match_vals sv) (m_match_strings sv) limit.

(** [solver::solve(prune_limit)]: the solver with its prune limit set, and
    the root of the tree, from an empty memoisation map. *)
Definition solve (partial_sort : nat → list (Q * nat) → list (Q * nat))
    (sv : solver) (fuel : nat) (prune_limit : Z) : solver * option node :=
  let sv := set_prune_limit sv prune_limit in
  (sv, fst <$> solve_indexes partial_sort sv fuel ∅
                             (seq 0 (m_num_solutions sv)) 0).

(** ** The partial sort of the standard library

    [std::ranges::partial_sort] is not part of the repository.  The
    properties below that do not depend on how it orders equal elements
    are stated for any function that meets its contract; this module
    gives the algorithm of GNU libstdc++ (bits/stl_heap.h and
    bits/ranges_algo.h) for the runs on concrete word lists.  Positions
    are offsets from [first], which is the start of the vector in every
    call. *)
Module Libstdcxx.

Definition comp (x y : Q * nat) : bool := double_lt x.1 y.1.

Definition at_ (a : list (Q * nat)) (i : Z) : Q * nat :=
  default (0%Q, 0%nat) (a !! Z.to_nat i).

Definition put (a : list (Q * nat)) (i : Z) (x : Q * nat) : list (Q * nat) :=
  <[Z.to_nat i := x]> a.

(** [std::__push_heap]; the hole moves up at every iteration, so
    [fuel] above the hole index runs the loop to its end. *)
Fixpoint push_heap_loop (fuel : nat) (a : list (Q * nat))
    (holeIndex topIndex : Z) (value : Q * nat) : list (Q * nat) :=
  let parent := (holeIndex - 1) `quot` 2 in
  match fuel with
  | O => put a holeIndex value
  | S fuel' =>
      if (topIndex <? holeIndex) && comp (at_ a parent) value
      then push_heap_loop fuel' (put a holeIndex (at_ a parent))
                          parent topIndex value
      else put a holeIndex value
  end.

(** The [while] loop of [std::__adjust_heap]. *)
Fixpoint adjust_heap_loop (fuel : nat) (a : list (Q * nat))
    (len holeIndex secondChild : Z) : list (Q * nat) * Z * Z :=
  match fuel with
  | O => (a, holeIndex, secondChild)
  | S fuel' =>
      if secondChild <? (len - 1) `quot` 2 then
        let secondChild := 2 * (secondChild + 1) in
        let secondChild :=
          if comp (at_ a secondChild) (at_ a (secondChild - 1))
          then secondChild - 1 else secondChild in
        adjust_heap_loop fuel' (put a holeIndex (at_ a secondChild))
                         len secondChild secondChild
      else (a, holeIndex, secondChild)
  end.

(** [std::__adjust_heap]. *)
Definition adjust_heap (a : list (Q * nat)) (holeIndex len : Z)
    (value : Q * nat) : list (Q * nat) :=
  let topIndex := holeIndex in
  let '(a, holeIndex, secondChild) :=
    adjust_heap_loop (Z.to_nat len) a len holeIndex holeIndex in
  let '(a, holeIndex) :=
    if (Z.land len 1 =? 0) && (secondChild =? (len - 2) `quot` 2) then
      let secondChild := 2 * (secondChild + 1) in
      (put a holeIndex (at_ a (secondChild - 1)), secondChild - 1)
    else (a, holeIndex) in
  push_heap_loop (Z.to_nat len) a holeIndex topIndex value.

(** [std::__pop_heap (first, last, result)]. *)
Definition pop_heap_to (a : list (Q * nat)) (last result : Z)
    : list (Q * nat) :=
  let value := at_ a result in
  let a := put a result (at_ a 0) in
  adjust_heap a 0 last value.

(** [std::pop_heap (first, last)]. *)
Definition pop_heap (a : list (Q * nat)) (last : Z) : list (Q * nat) :=
  if 1 <? last then pop_heap_to a (last - 1) (last - 1) else a.

(** [std::push_heap (first, last)]. *)
Definition push_heap (a : list (Q * nat)) (last : Z) : list (Q * nat) :=
  let value := at_ a (last - 1) in
  push_heap_loop (Z.to_nat last) a (last - 1) 0 value.

(** The loop of [std::__make_heap], from [parent] down to 0. *)
Fixpoint make_heap_loop (a : list (Q * nat)) (len : Z) (parent : nat)
    : list (Q * nat) :=
  let a := adjust_heap a (Z.of_nat parent) len (at_ a (Z.of_nat parent)) in
  match parent with
  | O => a
  | S parent' => make_heap_loop a len parent'
  end.

(** [std::make_heap (first, last)]. *)
Definition make_heap (a : list (Q * nat)) (last : Z) : list (Q * nat) :=
  if last <? 2 then a
  else make_heap_loop a last (Z.to_nat ((last - 2) `quot` 2)).

(** [std::sort_heap (first, last)]. *)
Fixpoint sort_heap_loop (fuel : nat) (a : list (Q * nat)) (last : Z)
    : list (Q * nat) :=
  match fuel with
  | O => a
  | S fuel' =>
      if 1 <? last
      then sort_heap_loop fuel' (pop_heap_to a (last - 1) (last - 1))
                          (last - 1)
      else a
  end.

Definition sort_heap (a : list (Q * nat)) (last : Z) : list (Q * nat) :=
  sort_heap_loop (Z.to_nat last) a last.

(** The loop of [ranges::partial_sort] over the positions [is] from
    [middle] on. *)
Definition select_step (middle : Z) (a : list (Q * nat)) (i : nat)
    : list (Q * nat) :=
  if comp (at_ a (Z.of_nat i)) (at_ a 0) then
    let a := pop_heap a middle in
    let x := at_ a (middle - 1) in
    let y := at_ a (Z.of_nat i) in
    let a := put (put a (middle - 1) y) (Z.of_nat i) x in
    push_heap a middle
  else a.

(** [std::ranges::partial_sort (first, middle, last, {}, proj)] with the
    projection on the first component. *)
Definition partial_sort (middle : nat) (a : list (Q * nat))
    : list (Q * nat) :=
  match middle with
  | O => a
  | _ =>
      let a := make_heap a (Z.of_nat middle) in
      let a := foldl (select_step (Z.of_nat middle)) a
                     (seq middle (length a - middle)) in
      sort_heap a (Z.of_nat middle)
  end.

End Libstdcxx.

(** ** Definitions used in the statements *)

(** The table [m_match_strings] as the constructor allocates it. *)
Definition empty_match_strings : list string :=
  replicate (Z.to_nat NUM_MATCH_VALS) EmptyString.

(** What the loops of [init_match_vals] keep true of the two tables. *)
Definition tables_ok (n : nat) (tables : list Z * list string) : Prop :=
  length tables.1 = n ∧ Forall (λ v, 0 ≤ v < NUM_MATCH_VALS) tables.1.

(** The set [{ match[g, s] : s ∈ F }] of the specification of the ranker. *)
Definition match_set (sv : solver) (g : nat) (F : list nat) : gset Z :=
  list_to_set (lookup_match sv g <$> F).

(** [U(g, F)] after the specification: the number of distinct match values
    of the guess [g] over the feasible set [F]. *)
Definition U_spec (sv : solver) (g : nat) (F : list nat) : Z :=
  Z.of_nat (size (match_set sv g F)).

(** [δ] after the specification: 1 if some [s ∈ F] has
    [match[g, s] = M - 1], else 0. *)
Definition delta_spec (sv : solver) (g : nat) (F : list nat) : Z :=
  if decide (NUM_MATCH_VALS - 1 ∈ match_set sv g F) then 1 else 0.

(** [avg(g)] after the specification. *)
Definition avg_spec (sv : solver) (F : list nat) (g : nat) : Q :=
  (inject_Z (Z.of_nat (length F) - delta_spec sv g F)
   / inject_Z (U_spec sv g F))%Q.

(** The bound of an [int]. *)
Definition INT_MAX : Z := 2 ^ 31 - 1.

(** The contract of [std::ranges::partial_sort] with the projection on the
    first component: the vector is permuted, and each of the first
    [middle] positions holds an element that is not greater than any
    element at a later position. *)
Definition partial_sort_contract
    (partial_sort : nat → list (Q * nat) → list (Q * nat)) : Prop :=
  ∀ (middle : nat) (l : list (Q * nat)),
    (middle ≤ length l)%nat →
    partial_sort middle l ≡ₚ l ∧
    ∀ (i j : nat) (x y : Q * nat),
      (i < middle)%nat → (i ≤ j)%nat →
      partial_sort middle l !! i = Some x →
      partial_sort middle l !! j = Some y →
      (x.1 <= y.1)%Q.

(** The words of the examples. *)
Definition batch_words : list string :=
  ["batch"; "catch"; "hatch"; "latch"]%string.

Definition default_solver : solver := Solver 0 0 [] [] 0.

Definition batch_solver : solver :=
  match new_solver batch_words batch_words with
  | inr sv => sv
  | inl _ => default_solver
  end.

(** Order of the averages, and the order that breaks ties of the average
    by ascending guess index. *)
Definition avg_le (x y : Q * nat) : Prop := Qle_bool x.1 y.1.

Definition avg_index_le (x y : Q * nat) : Prop :=
  double_lt x.1 y.1 || (Qeq_bool x.1 y.1 && (x.2 <=? y.2)%nat).

(** A partial sort that sorts the whole vector: one function that meets
    [partial_sort_contract]. *)
Definition sorting_partial_sort (middle : nat) (l : list (Q * nat))
    : list (Q * nat) :=
  merge_sort avg_le l.

(** The selection of C4 as the specification words it: the [K] guesses
    with the smallest averages, ties broken by ascending guess index. *)
Definition smallest_by_index (sv : solver) (F : list nat) : list (Q * nat) :=
  take (Z.to_nat (m_prune_limit sv))
       (merge_sort avg_index_le
          ((λ g, (avg_solutions_per_unique_match sv F g, g))
             <$> seq 0 (m_num_valid_guesses sv))).

(** The solver of the four words with the prune limit of [main], and the
    candidates of its first call of [solve], explored with the partial
    sort of libstdc++. *)
Definition batch_search : solver := set_prune_limit batch_solver 8.

Definition batch_explored : list node * memo_t :=
  default ([], ∅)
    (explore batch_search
       (solve_indexes Libstdcxx.partial_sort batch_search 3)
       ∅ [0; 1; 2; 3]%nat 0
       (get_best_unique_match_guesses Libstdcxx.partial_sort batch_search
          [0; 1; 2; 3]%nat)).

(** The bounds that the search keeps on the counters of a node; the
    minimal depth is at least 1 once the node is a leaf or has a leaf. *)
Definition node_ok (n : node) : Prop :=
  0 ≤ solved_count n ≤ total_depth n ∧
  0 ≤ min_depth n ≤ 2 ∧
  (is_leaf n = true ∨ leaves n ≠ [] → 1 ≤ min_depth n).

Definition memo_ok (m_memo : memo_t) : Prop :=
  map_Forall (λ _ n, node_ok n) m_memo.

(** The recursive call keeps the bounds. *)
Definition rec_ok (solve_rec : memo_t → list nat → Z → option (node * memo_t))
    : Prop :=
  ∀ m_memo F depth n m_memo',
    memo_ok m_memo → solve_rec m_memo F depth = Some (n, m_memo') →
    node_ok n ∧ memo_ok m_memo'.

(** Word lists on which the first guess splits the ten solutions into five
    pairs: the solutions are a letter of p, q, r, s, t, then u or v, then
    aaa; five further guesses are the rotations of pqrst. *)
Definition pairs_solutions : list string :=
  ["puaaa"; "pvaaa"; "quaaa"; "qvaaa"; "ruaaa"; "rvaaa"; "suaaa"; "svaaa";
   "tuaaa"; "tvaaa"]%string.

Definition pairs_guesses : list string :=
  app ["pqrst"; "qrstp"; "rstpq"; "stpqr"; "tpqrs"]%string pairs_solutions.

Definition pairs_solver : solver :=
  match new_solver pairs_guesses pairs_solutions with
  | inr sv => sv
  | inl _ => default_solver
  end.

(** The entry of the match matrix at a flat index, from the words. *)
Definition match_entry (valid_guesses solutions : list string) (index : nat)
    : Z :=
  (calc_match_val []
     (default EmptyString (valid_guesses !! (index / length solutions)%nat))
     (default EmptyString (solutions !! (index mod length solutions)%nat))).1.

(** ** Definitions for the further properties *)

(** The verdict that a character of a pattern string stands for: 2 for
    green, 1 for yellow, 0 for grey. *)
Definition verdict_of_char (c : ascii) : Z :=
  if bool_decide (c = "G"%char) then 2
  else if bool_decide (c = "y"%char) then 1 else 0.

(** The base-3 value of a pattern string, the character at position [i]
    weighing [3^i]. *)
Fixpoint pattern_value (pattern : list ascii) : Z :=
  match pattern with
  | [] => 0
  | c :: rest => verdict_of_char c + 3 * pattern_value rest
  end.

(** The characters of a pattern string. *)
Definition pattern_char (c : ascii) : Prop :=
  c = "."%char ∨ c = "y"%char ∨ c = "G"%char.

(** The pattern string of the pair of words at a flat index of the match
    matrix. *)
Definition match_pattern (valid_guesses solutions : list string)
    (index : nat) : string :=
  string_of_list_ascii
    (match_string
       (match_loop
          (default EmptyString
                   (valid_guesses !! (index / length solutions)%nat))
          (default EmptyString
                   (solutions !! (index mod length solutions)%nat)))).

(** The sum of an integer measure over a list. *)
Definition sum_with {A} (f : A → Z) (l : list A) : Z :=
  foldr (λ x acc, f x + acc) 0 l.

(** A tree whose counters are those of its shape, at every node: the
    solutions counted are the node itself when it is a leaf, its leaves,
    and the solutions its children count; the depths summed are 1 for the
    node as a leaf, 2 for each of its leaves, and for each child its own
    sum and one more guess for each solution it counts. *)
Inductive tallied : node → Prop :=
| tallied_node (n : node) :
    Forall tallied (children n) →
    solved_count n
    = Z.b2z (is_leaf n) + Z.of_nat (length (leaves n))
      + sum_with solved_count (children n) →
    total_depth n
    = Z.b2z (is_leaf n) + 2 * Z.of_nat (length (leaves n))
      + sum_with (λ c, solved_count c + total_depth c) (children n) →
    tallied n.

(** What the search keeps true of the node it returns for the feasible
    set [F], and of the memoisation map. *)
Definition node_sound (F : list nat) (n : node) : Prop :=
  tallied n ∧
  0 ≤ solved_count n ≤ Z.of_nat (length F) ∧
  (F ≠ [] → 1 ≤ solved_count n).

Definition memo_sound (m_memo : memo_t) : Prop :=
  map_Forall node_sound m_memo.

Definition rec_sound
    (solve_rec : memo_t → list nat → Z → option (node * memo_t)) : Prop :=
  ∀ m_memo F depth n m_memo',
    memo_sound m_memo → solve_rec m_memo F depth = Some (n, m_memo') →
    node_sound F n ∧ memo_sound m_memo'.

(** The recursive call memoises the node it returns and drops no key. *)
Definition rec_grows
    (solve_rec : memo_t → list nat → Z → option (node * memo_t)) : Prop :=
  ∀ m_memo F depth n m_memo',
    solve_rec m_memo F depth = Some (n, m_memo') →
    lookup_memo m_memo' F = Some n ∧ dom m_memo ⊆ dom m_memo'.

(** ** Word lists ([helpers.cc]) *)

(** The body of the loop of [combine_lines], on the pair of [destination]
    and [existing_set]. *)
Definition combine_line (acc : list string * gset string) (str : string)
    : list string * gset string :=
  if decide (str ∈ acc.2) then acc
  else (acc.1 ++ [str], {[str]} ∪ acc.2).

(** [combine_lines]: the vector [destination] after the call. *)
Definition combine_lines (destination source : list string) : list string :=
  (foldl combine_line (destination, list_to_set destination) source).1.

(** ** Reading a word list ([io.cc])

    The file is the sequence of its characters, or nothing when it cannot
    be opened.  [std::istream::getline] is the function of the standard
    library (as in bits/istream.tcc of GNU libstdc++), on a stream that
    holds the characters not yet read and its state bits. *)

Record istream := IStream {
  unread : list ascii;
  eofbit : bool;
  failbit : bool
}.

(** The newline character. *)
Definition newline : ascii := "010"%char.

(** The loop of [getline]: up to [count] characters are stored, until the
    end of the input or a newline; the pair is the characters stored and
    the input from the character the loop stopped at. *)
Fixpoint getline_chars (count : nat) (input : list ascii)
    : list ascii * list ascii :=
  match count, input with
  | S count', c :: input' =>
      if bool_decide (c = newline) then ([], input)
      else
        let r := getline_chars count' input' in (c :: r.1, r.2)
  | _, _ => ([], input)
  end.

(** [stream.getline(buffer, n)]: the characters stored in [buffer] before
    the terminating null character, and the stream afterwards.  A stream
    that is not good only gets its [failbit] set; otherwise the end of
    the input sets [eofbit], a newline is taken off the input, any other
    character left where [n - 1] characters were stored sets [failbit],
    and so does a call that takes no character at all. *)
Definition getline (n : nat) (stream : istream) : list ascii * istream :=
  if eofbit stream || failbit stream
  then ([], IStream (unread stream) (eofbit stream) true)
  else
    let r := getline_chars (n - 1) (unread stream) in
    match r.2 with
    | [] => (r.1, IStream [] true (bool_decide (r.1 = [])))
    | c :: rest =>
        if bool_decide (c = newline) then (r.1, IStream rest false false)
        else (r.1, IStream r.2 false true)
    end.

(** The [std::string] made from the character array [buffer]: its
    characters up to the first null character. *)
Fixpoint c_string (buffer : list ascii) : string :=
  match buffer with
  | [] => EmptyString
  | c :: rest =>
      if bool_decide (c = "000"%char) then EmptyString
      else String c (c_string rest)
  end.

(** The loop of [read_lines]; each turn that goes on takes a character
    off the input or sets [eofbit], so [fuel] above the length of the
    input by 2 runs the loop to its end. *)
Fixpoint read_lines_loop (fuel : nat) (stream : istream) (ret : list string)
    : list string :=
  match fuel with
  | O => ret
  | S fuel' =>
      let r := getline (NUM_WORD_LETTERS + 1) stream in
      if failbit r.2 then ret
      else read_lines_loop fuel' r.2 (ret ++ [c_string r.1])
  end.

(** The error of [read_lines]. *)
Inductive io_error := Unable_to_open.

(** [read_lines] on the content of the file at [path], if it opens. *)
Definition read_lines (file : option (list ascii)) : io_error + list string :=
  match file with
  | None => inl Unable_to_open
  | Some content =>
      inr (read_lines_loop (length content + 2)
                           (IStream content false false) [])
  end.

(** A line that [read_lines] takes whole: at most five characters, none
    of them a newline or a null character. *)
Definition short_line (line : string) : Prop :=
  (String.length line ≤ NUM_WORD_LETTERS)%nat ∧
  Forall (λ c, c ≠ newline ∧ c ≠ "000"%char) (list_ascii_of_string line).

(** The characters of a file of lines, each ended by a newline. *)
Definition file_of_lines (lines : list string) : list ascii :=
  concat ((λ line, list_ascii_of_string line ++ [newline]) <$> lines).

(** Input that starts with six characters without a newline. *)
Definition long_start (input : list ascii) : Prop :=
  ∃ pre rest, input = pre ++ rest ∧
              length pre = S NUM_WORD_LETTERS ∧
              Forall (λ c, c ≠ newline) pre.
(** ** Logging *)

(** [guess_to_solution_index]: the position in [solutions] of the first
    word equal to the guess, the number of solutions when there is none.
    The source indexes [valid_guesses] without a check. *)
Definition guess_to_solution_index (guess_index : nat)
    (valid_guesses solutions : list string) : nat :=
  let guess := default EmptyString (valid_guesses !! guess_index) in
  match list_find (λ solution, solution = guess) solutions with
  | Some (index, _) => index
  | None => length solutions
  end.

(** [solver::get_stats] on the array [counts] of [tree_stats].  The
    increment of an [int] is the sum; the addition of a [size_t] to an
    [int] goes through the conversions. *)
Fixpoint get_stats (tree : node) (stats : list Z) (depth : Z) : list Z :=
  if bool_decide (depth > NUM_ALLOWED_GUESSES - 1) then stats
  else
    let stats1 :=
      if is_leaf tree then alter (λ c, c + 1) (Z.to_nat depth) stats
      else stats in
    let stats2 :=
      foldl (λ stats child, get_stats child stats (depth + 1)) stats1
            (children tree) in
    if bool_decide (depth < NUM_ALLOWED_GUESSES - 1)
    then alter (λ c, to_int (to_size_t c
                             + Z.of_nat (length (leaves tree))))
               (Z.to_nat (depth + 1)) stats2
    else stats2.

(** What [print_stats] writes: the six counts, the number after [x] and
    the number after [av], [None] when the quotient is not a number. *)
Record stats_report := StatsReport {
  report_counts : list Z;
  report_x : Z;
  report_av : option Q
}.

(** The body of the loop of [print_stats], on the pair of [sum] and
    [count]. *)
Definition print_stats_step (counts : list Z) (acc : Z * Z) (i : nat)
    : Z * Z :=
  let c := default 0 (counts !! i) in
  (acc.1 + (Z.of_nat i + 1) * c, acc.2 + c).

(** [solver::print_stats]. *)
Definition print_stats (sv : solver) (head : node) : stats_report :=
  let stats :=
    get_stats head (replicate (Z.to_nat NUM_ALLOWED_GUESSES) 0) 0 in
  let totals :=
    foldl (print_stats_step stats) (0, 0)
          (seq 0 (Z.to_nat NUM_ALLOWED_GUESSES)) in
  StatsReport stats
    (to_size_t (Z.of_nat (m_num_solutions sv) - totals.2))
    (if totals.2 =? 0 then None
     else Some (inject_Z totals.1 / inject_Z totals.2)%Q).

(** [solver::extract_tree_stacks] with its accumulators: the map
    [stacks_by_solution] afterwards; [guesses_so_far] is as before when
    the call returns. *)
Fixpoint extract_tree_stacks_from (valid_guesses solutions : list string)
    (subtree : node) (stacks_by_solution : gmap nat (list nat))
    (guesses_so_far : list nat) : gmap nat (list nat) :=
  let stacks1 :=
    if is_leaf subtree
    then <[guess_to_solution_index (guess_index subtree)
                                   valid_guesses solutions :=
             guesses_so_far]> stacks_by_solution
    else stacks_by_solution in
  let guesses := guesses_so_far ++ [guess_index subtree] in
  let stacks2 :=
    foldl (λ stacks solution_index, <[solution_index := guesses]> stacks)
          stacks1 (leaves subtree) in
  foldl (λ stacks child,
           extract_tree_stacks_from valid_guesses solutions child stacks
                                    guesses)
        stacks2 (children subtree).

(** [solver::extract_tree_stacks]. *)
Definition extract_tree_stacks (subtree : node)
    (valid_guesses solutions : list string) : gmap nat (list nat) :=
  extract_tree_stacks_from valid_guesses solutions subtree ∅ [].

(** The longest way down a tree to a solution it holds, in guesses. *)
Fixpoint guesses_needed (tree : node) : Z :=
  Z.max (Z.b2z (is_leaf tree))
    (Z.max (if leaves tree is [] then 0 else 2)
       (foldr (λ child acc, Z.max (1 + guesses_needed child) acc) 0
              (children tree))).

(** The number of solutions a tree holds: the node itself when it is a
    leaf, its leaves, and what its children hold. *)
Fixpoint num_held (tree : node) : Z :=
  Z.b2z (is_leaf tree) + Z.of_nat (length (leaves tree))
  + sum_with num_held (children tree).

(** The number of solutions a tree holds at [k] guesses below its root:
    the root as a leaf at 0, its leaves at 1, and what a child holds at
    [k] is at [k + 1]. *)
Fixpoint solved_at (tree : node) (k : nat) {struct k} : Z :=
  match k with
  | O => Z.b2z (is_leaf tree)
  | S k' =>
      (if k' is O then Z.of_nat (length (leaves tree)) else 0)
      + sum_with (λ child, solved_at child k') (children tree)
  end.

(** What [get_stats] at [depth] adds to the count at index [i]. *)
Definition counted_at (depth : Z) (tree : node) (i : nat) : Z :=
  if bool_decide (depth ≤ Z.of_nat i)
  then solved_at tree (i - Z.to_nat depth) else 0.

(** Counts between 0 and [bound]. *)
Definition counts_within (bound : Z) (stats : list Z) : Prop :=
  length stats = Z.to_nat NUM_ALLOWED_GUESSES ∧
  Forall (λ c, 0 ≤ c ≤ bound) stats.

(** What [get_stats] does on a tree, for counts that leave room for the
    solutions the tree holds. *)
Definition get_stats_spec (tree : node) : Prop :=
  ∀ (stats : list Z) (depth bound : Z),
    0 ≤ depth → counts_within bound stats →
    bound + num_held tree ≤ INT_MAX →
    counts_within (bound + num_held tree) (get_stats tree stats depth) ∧
    ∀ i c, stats !! i = Some c →
           get_stats tree stats depth !! i
           = Some (c + counted_at depth tree i).

(** The sum of [f 0], ..., [f (n - 1)]. *)
Fixpoint sum_upto (n : nat) (f : nat → Z) : Z :=
  match n with
  | O => 0
  | S n' => f O + sum_upto n' (λ k, f (S k))
  end.

(** The solutions a tree holds, as [extract_tree_stacks] names them: the
    solution of the guess of a leaf node, the leaves, and what the
    children hold. *)
Fixpoint solutions_held (valid_guesses solutions : list string)
    (tree : node) : list nat :=
  (if is_leaf tree
   then [guess_to_solution_index (guess_index tree) valid_guesses solutions]
   else [])
  ++ leaves tree
  ++ concat (solutions_held valid_guesses solutions <$> children tree).

(** [stack_of valid_guesses solutions guesses_so_far tree s stack]: the
    tree holds the solution [s] at the end of a way down from its root,
    and [stack] is [guesses_so_far] followed by the guesses on that way
    before the one that names [s]. *)
Inductive stack_of (valid_guesses solutions : list string)
    : list nat → node → nat → list nat → Prop :=
| stack_of_node (guesses_so_far : list nat) (tree : node) :
    is_leaf tree = true →
    stack_of valid_guesses solutions guesses_so_far tree
      (guess_to_solution_index (guess_index tree) valid_guesses solutions)
      guesses_so_far
| stack_of_leaf (guesses_so_far : list nat) (tree : node) (s : nat) :
    s ∈ leaves tree →
    stack_of valid_guesses solutions guesses_so_far tree s
      (guesses_so_far ++ [guess_index tree])
| stack_of_child (guesses_so_far : list nat) (tree child : node) (s : nat)
    (stack : list nat) :
    child ∈ children tree →
    stack_of valid_guesses solutions (guesses_so_far ++ [guess_index tree])
      child s stack →
    stack_of valid_guesses solutions guesses_so_far tree s stack.

(** What [extract_tree_stacks] does on a tree: an entry of the map
    afterwards was there before or is a stack of the tree, and every
    solution that had an entry or that the tree holds has one. *)
Definition extract_tree_stacks_spec (valid_guesses solutions : list string)
    (tree : node) : Prop :=
  ∀ (stacks : gmap nat (list nat)) (guesses_so_far : list nat) (s : nat),
    let stacks' :=
      extract_tree_stacks_from valid_guesses solutions tree stacks
                               guesses_so_far in
    (∀ stack, stacks' !! s = Some stack →
              stacks !! s = Some stack ∨
              stack_of valid_guesses solutions guesses_so_far tree s stack) ∧
    (is_Some (stacks !! s) ∨
     s ∈ solutions_held valid_guesses solutions tree →
     is_Some (stacks' !! s)).

(** What the search keeps true of the solutions that a node holds, for
    the feasible set [F] it was called for: no solution is held twice,
    and every solution held is one of [F]. *)
Definition node_holds (valid_guesses solutions : list string)
    (F : list nat) (n : node) : Prop :=
  NoDup (solutions_held valid_guesses solutions n) ∧
  ∀ s, s ∈ solutions_held valid_guesses solutions n → s ∈ F.

Definition memo_holds (valid_guesses solutions : list string)
    (m_memo : memo_t) : Prop :=
  map_Forall (node_holds valid_guesses solutions) m_memo.

Definition rec_holds (valid_guesses solutions : list string)
    (solve_rec : memo_t → list nat → Z → option (node * memo_t)) : Prop :=
  ∀ m_memo F depth n m_memo',
    memo_holds valid_guesses solutions m_memo →
    Forall (λ s, (s < length solutions)%nat) F →
    solve_rec m_memo F depth = Some (n, m_memo') →
    node_holds valid_guesses solutions F n ∧
    memo_holds valid_guesses solutions m_memo'.

(** The errors of [print_tree]. *)
Inductive print_tree_error :=
| Solution_list_does_not_contain (target_solution : string)
| Invalid_tree_state.

(** The lambda [print_tree_stack] of [print_tree]: the line it writes,
    without the end of line. *)
Definition print_tree_stack (sv : solver)
    (valid_guesses solutions : list string) (solution_index : nat)
    (guess_indexes : list nat) : string :=
  foldr (λ guess_index line,
           let match_ := lookup_match sv guess_index solution_index in
           default EmptyString (valid_guesses !! guess_index) +:+ " "
           +:+ default EmptyString (m_match_strings sv !! Z.to_nat match_)
           +:+ " " +:+ line)
        (default EmptyString (solutions !! solution_index))
        guess_indexes.

(** [solver::print_tree] with a target solution: the error thrown, or
    the line written.  The index of the target is not negative, so of
    the [print_tree] it calls only the part for a target is run. *)
Definition print_tree_target (sv : solver) (head : node)
    (valid_guesses solutions : list string) (target_solution : string)
    : print_tree_error + string :=
  match list_find (λ solution, solution = target_solution) solutions with
  | None => inl (Solution_list_does_not_contain target_solution)
  | Some (target_solution_index, _) =>
      let tree_stacks := extract_tree_stacks head valid_guesses solutions in
      match tree_stacks !! target_solution_index with
      | None => inl Invalid_tree_state
      | Some guess_indexes =>
          inr (print_tree_stack sv valid_guesses solutions
                                target_solution_index guess_indexes)
      end
  end.

(** The branches below a node: the solution of its guess when it is a
    leaf, each of its leaves, and what each of its children holds. *)
Definition branches (valid_guesses solutions : list string) (n : node)
    : list (list nat) :=
  (if is_leaf n
   then [[guess_to_solution_index (guess_index n) valid_guesses solutions]]
   else [])
  ++ ((λ s, [s]) <$> leaves n)
  ++ (solutions_held valid_guesses solutions <$> children n).

(** At a node, the match of the guess tells the branches apart: two
    solutions held below the node have the same match against its guess
    exactly when they are in the same branch. *)
Definition tells_apart (sv : solver) (valid_guesses solutions : list string)
    (n : node) : Prop :=
  ∀ b b' s s',
    b ∈ branches valid_guesses solutions n →
    b' ∈ branches valid_guesses solutions n →
    s ∈ b → s' ∈ b' →
    lookup_match sv (guess_index n) s = lookup_match sv (guess_index n) s'
    ↔ b = b'.

(** A tree in which every node tells its branches apart. *)
Inductive decides (sv : solver) (valid_guesses solutions : list string)
    : node → Prop :=
| decides_node (n : node) :
    Forall (decides sv valid_guesses solutions) (children n) →
    tells_apart sv valid_guesses solutions n →
    decides sv valid_guesses solutions n.

Definition memo_decides (sv : solver) (valid_guesses solutions : list string)
    (m_memo : memo_t) : Prop :=
  map_Forall (λ _ n, decides sv valid_guesses solutions n) m_memo.

Definition rec_decides (sv : solver) (valid_guesses solutions : list string)
    (solve_rec : memo_t → list nat → Z → option (node * memo_t)) : Prop :=
  ∀ m_memo F depth n m_memo',
    memo_holds valid_guesses solutions m_memo →
    memo_decides sv valid_guesses solutions m_memo →
    Forall (λ s, (s < length solutions)%nat) F →
    solve_rec m_memo F depth = Some (n, m_memo') →
    decides sv valid_guesses solutions n ∧
    memo_decides sv valid_guesses solutions m_memo'.

(** A tree whose guesses are all indexes below [G]. *)
Inductive guesses_below (G : nat) : node → Prop :=
| guesses_below_node (n : node) :
    (guess_index n < G)%nat →
    Forall (guesses_below G) (children n) →
    guesses_below G n.

Definition memo_guesses_below (G : nat) (m_memo : memo_t) : Prop :=
  map_Forall (λ _ n, guesses_below G n) m_memo.

Definition rec_guesses_below (G : nat)
    (solve_rec : memo_t → list nat → Z → option (node * memo_t)) : Prop :=
  ∀ m_memo F depth n m_memo',
    memo_guesses_below G m_memo →
    solve_rec m_memo F depth = Some (n, m_memo') →
    guesses_below G n ∧ memo_guesses_below G m_memo'.

(** The line of a game: each guess of [guess_indexes] followed by the
    pattern string that the match encoder builds for it against the
    solution, and the solution at the end. *)
Definition play_line (valid_guesses : list string) (solution : string)
    (guess_indexes : list nat) : string :=
  foldr (λ guess_index line,
           let guess := default EmptyString (valid_guesses !! guess_index) in
           guess +:+ " "
           +:+ string_of_list_ascii (match_string (match_loop guess solution))
           +:+ " " +:+ line)
        solution guess_indexes.

(** ** The division of [average_num_guesses] *)

(** The quotient [x / y] of two [double]s that hold the integers [x] and
    [y]: a number when [y] is not zero; a division by zero gives an
    infinity or a NaN, which is no number. *)
Definition double_div (x y : Z) : option Q :=
  if y =? 0 then None else Some (inject_Z x / inject_Z y)%Q.

(** [node::average_num_guesses] with the division as the machine does
    it: [None] when the value returned is no number. *)
Definition average_num_guesses_double (n : node) : option Q :=
  if solved_count n =? 0 then Some 0%Q
  else double_div (total_depth n) (solved_count n).

(** The first occurrence of [x] in [l] is at position [i]. *)
Definition first_occurrence (l : list string) (x : string) (i : nat)
    : Prop :=
  l !! i = Some x ∧ ∀ k, (k < i)%nat → l !! k ≠ Some x.

(** A call that returns leaves alone the entries of the memoisation map
    for keys longer than its feasible set. *)
Definition rec_keeps
    (solve_rec : memo_t → list nat → Z → option (node * memo_t)) : Prop :=
  ∀ m_memo F depth n m_memo' (key : list nat),
    solve_rec m_memo F depth = Some (n, m_memo') →
    (length F < length key)%nat →
    m_memo' !! key = m_memo !! key.

(** Three solutions and two more guesses that match them all alike. *)
Definition junk_guesses : list string :=
  ["zzzzz"; "yyyyy"; "batch"; "catch"; "hatch"]%string.

Definition junk_solutions : list string :=
  ["batch"; "catch"; "hatch"]%string.

Definition junk_solver : solver :=
  match new_solver junk_guesses junk_solutions with
  | inr sv => sv
  | inl _ => default_solver
  end.

(** * Properties *)

(** ** The match encoder on the two examples *)

(** C2, as stated, fails: for the guess "crate" and the solution "trace"
    the match value is not 211 with "yyGyG" recorded for it. *)
Lemma crate_trace_not_211 :
  ¬ (let r := calc_match_val empty_match_strings "crate" "trace" in
     r.1 = 211 ∧ r.2 !! 211%nat = Some "yyGyG"%string).
Proof. vm_compute. intros [H _]. discriminate H. Qed.

(** C2, amended: for the guess "crate" and the solution "trace",
    [calc_match_val] returns 214 and records "yGGyG" for that value: the
    letter r at position 1 is in place, so the verdicts are yellow, green,
    green, yellow, green. *)
Theorem crate_trace_match (m_match_strings : list string) :
  length m_match_strings = Z.to_nat NUM_MATCH_VALS →
  let r := calc_match_val m_match_strings "crate" "trace" in
  r.1 = 214 ∧
  r.2 = <[214%nat := "yGGyG"%string]> m_match_strings ∧
  r.2 !! 214%nat = Some "yGGyG"%string.
Proof.
  intros Hlen r.
  assert (Hr : r = (214, <[214%nat := "yGGyG"%string]> m_match_strings))
    by reflexivity.
  rewrite Hr. simpl. repeat split.
  apply list_lookup_insert_eq. rewrite Hlen. vm_compute. lia.
Qed.

Lemma crate_trace_match_witness :
  length empty_match_strings = Z.to_nat NUM_MATCH_VALS ∧
  (calc_match_val empty_match_strings "crate" "trace").1 = 214.
Proof.
  split; [reflexivity|].
  exact (proj1 (crate_trace_match empty_match_strings eq_refl)).
Defined.

(** C8, as stated, fails: for the guess "allee" and the solution "later"
    the recorded string is not "yyyG.". *)
Lemma allee_later_not_yyyG :
  ¬ (let r := calc_match_val empty_match_strings "allee" "later" in
     r.2 !! Z.to_nat r.1 = Some "yyyG."%string).
Proof. vm_compute. discriminate. Qed.

(** C8, amended: for the guess "allee" and the solution "later" the match
    encoder produces the string "yy.G.", recorded at the value 58: the
    second l of the guess is grey, since the only l of the solution was
    consumed by the first one, and so is the second e. *)
Theorem allee_later_match (m_match_strings : list string) :
  length m_match_strings = Z.to_nat NUM_MATCH_VALS →
  let r := calc_match_val m_match_strings "allee" "later" in
  r.1 = 58 ∧
  r.2 = <[58%nat := "yy.G."%string]> m_match_strings ∧
  r.2 !! 58%nat = Some "yy.G."%string.
Proof.
  intros Hlen r.
  assert (Hr : r = (58, <[58%nat := "yy.G."%string]> m_match_strings))
    by reflexivity.
  rewrite Hr. simpl. repeat split.
  apply list_lookup_insert_eq. rewrite Hlen. vm_compute. lia.
Qed.

Lemma allee_later_match_witness :
  length empty_match_strings = Z.to_nat NUM_MATCH_VALS ∧
  (calc_match_val empty_match_strings "allee" "later").1 = 58.
Proof.
  split; [reflexivity|].
  exact (proj1 (allee_later_match empty_match_strings eq_refl)).
Defined.

(** ** Construction *)

Lemma check_solutions_None (valid_guesses solutions : list string) :
  check_solutions valid_guesses solutions = None ↔
  Forall (λ s, String.length s = NUM_WORD_LETTERS ∧ s ∈ valid_guesses)
         solutions.
Proof.
  induction solutions as [|s rest IH]; simpl.
  - split; [constructor | reflexivity].
  - rewrite Forall_cons. repeat case_bool_decide; simpl.
    + rewrite IH. tauto.
    + split; [discriminate | tauto].
    + split; [discriminate | tauto].
    + split; [discriminate | tauto].
Qed.

Lemma check_guesses_None (valid_guesses : list string) :
  check_guesses valid_guesses = None ↔
  Forall (λ g, String.length g = NUM_WORD_LETTERS) valid_guesses.
Proof.
  induction valid_guesses as [|g rest IH]; simpl.
  - split; [constructor | reflexivity].
  - rewrite Forall_cons. case_bool_decide; simpl.
    + rewrite IH. tauto.
    + split; [discriminate | tauto].
Qed.

Lemma check_guesses_solutions_None (valid_guesses solutions : list string) :
  check_guesses_solutions valid_guesses solutions = None ↔
  valid_guesses ≠ [] ∧ solutions ≠ [] ∧
  Forall (λ s, String.length s = NUM_WORD_LETTERS ∧ s ∈ valid_guesses)
         solutions ∧
  Forall (λ g, String.length g = NUM_WORD_LETTERS) valid_guesses.
Proof.
  unfold check_guesses_solutions.
  destruct valid_guesses as [|g gs]; [split; [discriminate | tauto]|].
  destruct solutions as [|s ss]; [split; [discriminate | tauto]|].
  rewrite <- check_solutions_None, <- check_guesses_None.
  destruct (check_solutions (g :: gs) (s :: ss)).
  - split; [discriminate | intros (_ & _ & H & _); discriminate H].
  - split; [intros H; repeat split; done | tauto].
Qed.

(** C6: construction throws exactly when the guesses are empty, the
    solutions are empty, some guess or solution has a length other than 5,
    or some solution is not among the valid guesses; in every other case
    the constructor returns a solver. *)
Theorem new_solver_throws_iff (valid_guesses solutions : list string) :
  ((∃ e, new_solver valid_guesses solutions = inl e) ↔
   valid_guesses = [] ∨ solutions = [] ∨
   (∃ w, (w ∈ valid_guesses ∨ w ∈ solutions) ∧
         String.length w ≠ NUM_WORD_LETTERS) ∨
   (∃ s, s ∈ solutions ∧ s ∉ valid_guesses)) ∧
  ((∃ sv, new_solver valid_guesses solutions = inr sv) ↔
   ¬ (∃ e, new_solver valid_guesses solutions = inl e)).
Proof.
  unfold new_solver.
  pose proof (check_guesses_solutions_None valid_guesses solutions) as Hnone.
  destruct (check_guesses_solutions valid_guesses solutions) as [e|].
  - split.
    + split; [intros _ | intros _; eauto].
      destruct (decide (valid_guesses = [])) as [|Hg]; [tauto|].
      destruct (decide (solutions = [])) as [|Hs]; [tauto|].
      right; right.
      destruct (decide (Forall (λ g, String.length g = NUM_WORD_LETTERS)
                               valid_guesses)) as [Hgl|Hgl].
      * destruct (decide (Forall (λ s, String.length s = NUM_WORD_LETTERS ∧
                                       s ∈ valid_guesses) solutions))
          as [Hsl|Hsl].
        { assert (Some e = None) by (apply Hnone; done). discriminate. }
        apply not_Forall_Exists in Hsl; [|apply _].
        apply Exists_exists in Hsl as (s & Hin & Hs').
        apply not_and_l in Hs' as [Hlen|Hmem].
        -- left. exists s. split; [by right | done].
        -- right. exists s. split; done.
      * apply not_Forall_Exists in Hgl; [|apply _].
        apply Exists_exists in Hgl as (g & Hin & Hlen).
        left. exists g. split; [by left | done].
    + split; [intros [sv H]; discriminate H | intros H; destruct H; eauto].
  - destruct Hnone as [Hnone _].
    destruct (Hnone eq_refl) as (Hg & Hs & Hsl & Hgl).
    rewrite Forall_forall in Hsl, Hgl.
    split.
    + split; [intros [e H]; discriminate H|].
      intros [?|[?|[(w & [Hin|Hin] & Hlen)|(s & Hin & Hmem)]]]; try done.
      * destruct Hlen. by apply Hgl.
      * destruct Hlen. by apply Hsl.
      * destruct Hmem. by apply Hsl.
    + split; [intros _ [e H]; discriminate H | intros _; eauto].
Qed.

(** ** Range of the match values *)

Lemma match_step_mult (guess solution : string) (st : match_state) (i : nat) :
  mult (match_step guess solution st i) = mult st * 3.
Proof.
  unfold match_step. case_bool_decide; [reflexivity|].
  destruct (find_yellow _ _ _ _ _); reflexivity.
Qed.

Lemma match_step_val (guess solution : string) (st : match_state) (i : nat) :
  0 < mult st →
  match_val st ≤ match_val (match_step guess solution st i)
               ≤ match_val st + 2 * mult st.
Proof.
  intros Hm. unfold match_step. case_bool_decide; [simpl; lia|].
  destruct (find_yellow _ _ _ _ _); simpl; lia.
Qed.

Lemma match_steps_range (guess solution : string) (positions : list nat)
    (st : match_state) :
  0 < mult st → 0 ≤ match_val st < mult st →
  let st' := foldl (match_step guess solution) st positions in
  mult st' = mult st * 3 ^ Z.of_nat (length positions) ∧
  0 ≤ match_val st' < mult st'.
Proof.
  revert st. induction positions as [|i rest IH]; intros st Hm Hv; simpl.
  - split; [lia | done].
  - pose proof (match_step_mult guess solution st i) as Hm'.
    pose proof (match_step_val guess solution st i Hm) as Hv'.
    destruct (IH (match_step guess solution st i)) as [IHm IHv]; [lia..|].
    split; [|exact IHv].
    rewrite IHm, Hm', Nat2Z.inj_succ, Z.pow_succ_r by lia. lia.
Qed.

Lemma match_loop_range (guess solution : string) :
  0 ≤ match_val (match_loop guess solution) < NUM_MATCH_VALS.
Proof.
  destruct (match_steps_range guess solution (seq 0 NUM_WORD_LETTERS)
              match_init) as [Hm Hv]; [simpl; lia..|].
  unfold match_loop. rewrite Hm in Hv. exact Hv.
Qed.

Lemma calc_match_val_range (m_match_strings : list string)
    (guess solution : string) :
  0 ≤ (calc_match_val m_match_strings guess solution).1 < NUM_MATCH_VALS.
Proof.
  pose proof (match_loop_range guess solution) as H.
  unfold calc_match_val, to_match_val_t; simpl.
  change NUM_MATCH_VALS with 243 in *.
  rewrite Z.mod_small; lia.
Qed.

Lemma init_match_val_ok (valid_guesses solutions : list string) (n i j : nat)
    (tables : list Z * list string) :
  tables_ok n tables →
  tables_ok n (init_match_val valid_guesses solutions i tables j).
Proof.
  intros [Hlen Hall]. unfold init_match_val, tables_ok; cbn [fst snd]. split.
  - by rewrite length_insert.
  - apply Forall_insert; [done|]. apply calc_match_val_range.
Qed.

Lemma init_match_vals_ok (valid_guesses solutions : list string) (n : nat)
    (tables : list Z * list string) :
  tables_ok n tables →
  tables_ok n (init_match_vals valid_guesses solutions tables).
Proof.
  unfold init_match_vals.
  generalize (seq 0 (length valid_guesses)) as is_.
  intros is_. revert tables.
  induction is_ as [|i is_ IH]; intros tables Hok; simpl; [done|].
  apply IH.
  generalize (seq 0 (length solutions)) as js. intros js.
  revert tables Hok.
  induction js as [|j js IHj]; intros tables Hok; simpl; [done|].
  apply IHj. by apply init_match_val_ok.
Qed.

(** Every entry of the match matrix of a constructed solver is a match
    value, and the solver counts the words it was given. *)
Lemma new_solver_inr (valid_guesses solutions : list string) (sv : solver) :
  new_solver valid_guesses solutions = inr sv →
  m_num_valid_guesses sv = length valid_guesses ∧
  m_num_solutions sv = length solutions ∧
  valid_guesses ≠ [] ∧ solutions ≠ [] ∧
  m_prune_limit sv = 0 ∧
  ∀ g s, 0 ≤ lookup_match sv g s < NUM_MATCH_VALS.
Proof.
  unfold new_solver. intros H.
  destruct (check_guesses_solutions valid_guesses solutions) eqn:Hc;
    [discriminate|].
  apply check_guesses_solutions_None in Hc as (Hg & Hs & _ & _).
  injection H as <-. simpl. split_and!; try done.
  intros g s. unfold lookup_match; simpl.
  destruct (init_match_vals_ok valid_guesses solutions
              (length valid_guesses * length solutions)
              (replicate (length valid_guesses * length solutions) 0,
               replicate (Z.to_nat NUM_MATCH_VALS) EmptyString)) as [_ Hall].
  { split; [apply length_replicate|].
    apply Forall_replicate. by vm_compute. }
  destruct (_ !! _) as [v|] eqn:Hv; simpl.
  - rewrite Forall_forall in Hall. apply Hall.
    by eapply list_elem_of_lookup_2.
  - by vm_compute.
Qed.

(** ** The match matrix holds the values of the encoder *)

Lemma calc_match_val_fst (m1 m2 : list string) (guess solution : string) :
  (calc_match_val m1 guess solution).1 = (calc_match_val m2 guess solution).1.
Proof. unfold calc_match_val. cbn [fst]. reflexivity. Qed.

Lemma init_match_val_entry (valid_guesses solutions : list string)
    (i j : nat) (tables : list Z * list string) :
  (j < length solutions)%nat →
  (init_match_val valid_guesses solutions i tables j).1
  = <[(i * length solutions + j)%nat :=
        match_entry valid_guesses solutions (i * length solutions + j)]>
      tables.1.
Proof.
  intros Hj. unfold init_match_val, match_entry. cbn [fst snd].
  rewrite Nat.div_add_l, Nat.div_small, Nat.add_0_r by lia.
  rewrite (Nat.add_comm (i * length solutions)), Nat.Div0.mod_add,
    Nat.mod_small by lia.
  by rewrite (calc_match_val_fst tables.2 []).
Qed.

Lemma init_row_entries (valid_guesses solutions : list string) (i : nat)
    (js : list nat) (tables : list Z * list string) (index : nat) :
  (i < length valid_guesses)%nat →
  Forall (λ j, (j < length solutions)%nat) js →
  length tables.1 = (length valid_guesses * length solutions)%nat →
  let tables' := foldl (init_match_val valid_guesses solutions i) tables js in
  length tables'.1 = (length valid_guesses * length solutions)%nat ∧
  (tables.1 !! index = Some (match_entry valid_guesses solutions index) ∨
   (∃ j, j ∈ js ∧ index = (i * length solutions + j)%nat) →
   tables'.1 !! index = Some (match_entry valid_guesses solutions index)).
Proof.
  intros Hi Hjs. revert tables.
  induction Hjs as [|j js Hj Hjs IH]; intros tables Hlen; simpl.
  - split; [done|]. intros [H|(j & Hin & _)]; [done|]. by apply elem_of_nil in Hin.
  - assert (Hlen' : length (init_match_val valid_guesses solutions i tables j).1
                    = (length valid_guesses * length solutions)%nat).
    { by rewrite init_match_val_entry, length_insert. }
    destruct (IH _ Hlen') as [Hl Hentry]. split; [done|].
    intros Hcase. apply Hentry.
    rewrite init_match_val_entry by done.
    destruct (decide (index = (i * length solutions + j)%nat)) as [->|Hne].
    + left. apply list_lookup_insert_eq. rewrite Hlen. nia.
    + rewrite list_lookup_insert_ne by done.
      destruct Hcase as [H|(j' & Hin & ->)]; [by left|].
      apply elem_of_cons in Hin as [->|Hin]; [done|].
      right. by exists j'.
Qed.

Lemma init_match_vals_entries (valid_guesses solutions : list string)
    (is_ : list nat) (tables : list Z * list string) (index : nat) :
  Forall (λ i, (i < length valid_guesses)%nat) is_ →
  length tables.1 = (length valid_guesses * length solutions)%nat →
  let tables' :=
    foldl (λ tables i,
             foldl (init_match_val valid_guesses solutions i) tables
                   (seq 0 (length solutions)))
          tables is_ in
  length tables'.1 = (length valid_guesses * length solutions)%nat ∧
  (tables.1 !! index = Some (match_entry valid_guesses solutions index) ∨
   (∃ i j, i ∈ is_ ∧ (j < length solutions)%nat ∧
           index = (i * length solutions + j)%nat) →
   tables'.1 !! index = Some (match_entry valid_guesses solutions index)).
Proof.
  intros His. revert tables.
  induction His as [|i is_ Hi His IH]; intros tables Hlen; simpl.
  - split; [done|]. intros [H|(i & j & Hin & _)]; [done|].
    by apply elem_of_nil in Hin.
  - destruct (init_row_entries valid_guesses solutions i
                (seq 0 (length solutions)) tables index Hi) as [Hl Hrow];
      [|done|].
    { apply Forall_forall. intros j Hj. apply elem_of_seq in Hj. lia. }
    destruct (IH _ Hl) as [Hl' Hentry]. split; [done|].
    intros Hcase. apply Hentry.
    destruct Hcase as [H|(i' & j & Hin & Hj & ->)].
    + left. apply Hrow. by left.
    + apply elem_of_cons in Hin as [->|Hin].
      * left. apply Hrow. right. exists j. split; [|done].
        apply elem_of_seq. lia.
      * right. by exists i', j.
Qed.

(** In a constructed solver, the match of the guess [g] and the solution
    [s] is the value that [calc_match_val] gives for the two words. *)
Lemma lookup_match_new_solver (valid_guesses solutions : list string)
    (sv : solver) (g s : nat) (guess solution : string) :
  new_solver valid_guesses solutions = inr sv →
  valid_guesses !! g = Some guess → solutions !! s = Some solution →
  lookup_match sv g s = (calc_match_val [] guess solution).1.
Proof.
  unfold new_solver. intros Hnew Hg Hs.
  destruct (check_guesses_solutions valid_guesses solutions); [done|].
  apply (inj inr) in Hnew. subst sv. unfold lookup_match, init_match_vals.
  cbn [m_match_vals m_num_solutions fst snd].
  apply lookup_lt_Some in Hg as Hg'. apply lookup_lt_Some in Hs as Hs'.
  destruct (init_match_vals_entries valid_guesses solutions
              (seq 0 (length valid_guesses))
              (replicate (length valid_guesses * length solutions) 0,
               replicate (Z.to_nat NUM_MATCH_VALS) EmptyString)
              (g * length solutions + s)%nat) as [_ Hentry].
  { apply Forall_forall. intros i Hi. apply elem_of_seq in Hi. lia. }
  { apply length_replicate. }
  cbn zeta in Hentry. cbn [fst snd] in Hentry. rewrite Hentry.
  - unfold match_entry. cbn [default].
    rewrite Nat.div_add_l, Nat.div_small, Nat.add_0_r by lia.
    rewrite Nat.add_comm, Nat.Div0.mod_add, Nat.mod_small by lia.
    by rewrite Hg, Hs.
  - right. exists g, s. split_and!; [|done|done]. apply elem_of_seq. lia.
Qed.

(** ** The average of solutions per unique match *)

Lemma to_int_small (z : Z) : 0 ≤ z ≤ INT_MAX → to_int z = z.
Proof.
  unfold INT_MAX, to_int. intros H.
  rewrite Z.mod_small by lia.
  destruct (z <? 2 ^ 31) eqn:E; [done|]. apply Z.ltb_ge in E. lia.
Qed.

Lemma to_size_t_small (z : Z) : 0 ≤ z ≤ INT_MAX → to_size_t z = z.
Proof. unfold INT_MAX, to_size_t. intros H. apply Z.mod_small. lia. Qed.

(** The state of the tally loop after the solutions of [F]. *)
Lemma tally_matches_spec (sv : solver) (g : nat) (F : list nat) :
  (∀ g s, 0 ≤ lookup_match sv g s < NUM_MATCH_VALS) →
  let tally := tally_matches sv F g in
  length tally.1 = Z.to_nat NUM_MATCH_VALS ∧
  (∀ m, 0 ≤ m < NUM_MATCH_VALS →
        default false (tally.1 !! Z.to_nat m) = true ↔ m ∈ match_set sv g F) ∧
  tally.2 = U_spec sv g F.
Proof.
  intros Hrange. unfold tally_matches, U_spec, match_set.
  induction F as [|s F IH] using rev_ind.
  - cbn [foldl fmap list_fmap list_to_set fst snd].
    split_and!; [apply length_replicate| |done].
    intros m Hm. rewrite lookup_replicate_2 by lia. simpl. set_solver.
  - destruct IH as (Hlen & Hseen & Hcount).
    rewrite foldl_snoc, fmap_app, list_to_set_app_L.
    cbn [fmap list_fmap list_to_set].
    set (acc := foldl (tally_match sv g)
                  (replicate (Z.to_nat NUM_MATCH_VALS) false, 0) F) in *.
    set (X := list_to_set (lookup_match sv g <$> F) : gset Z) in *.
    pose proof (Hrange g s) as Hs.
    unfold tally_match at 1 2 3.
    destruct (default false (acc.1 !! Z.to_nat (lookup_match sv g s))) eqn:E.
    + apply Hseen in E; [|done].
      replace (X ∪ (({[lookup_match sv g s]} : gset Z) ∪ ∅)) with X
        by set_solver.
      done.
    + assert (Hnotin : lookup_match sv g s ∉ X).
      { intros Hin. apply Hseen in Hin; [|done]. congruence. }
      simpl. split_and!.
      * by rewrite length_insert.
      * intros m Hm.
        destruct (decide (m = lookup_match sv g s)) as [->|Hne].
        -- rewrite list_lookup_insert_eq by lia. simpl. set_solver.
        -- rewrite list_lookup_insert_ne by lia.
           rewrite Hseen by done. set_solver.
      * rewrite Hcount.
        replace (X ∪ (({[lookup_match sv g s]} : gset Z) ∪ ∅))
          with ({[lookup_match sv g s]} ∪ X) by set_solver.
        rewrite size_union by set_solver. rewrite size_singleton. lia.
Qed.

(** C3: for a constructed solver, a non-empty feasible set [F] whose size
    is an [int], and any guess [g], the average of solutions per unique
    match is [(|F| - δ) / U(g, F)], with [U] the number of distinct match
    values over [F] and [δ] 1 when the all-greens value is among them. *)
Theorem avg_solutions_per_unique_match_spec
    (valid_guesses solutions : list string) (sv : solver)
    (F : list nat) (g : nat) :
  new_solver valid_guesses solutions = inr sv →
  F ≠ [] →
  Z.of_nat (length F) ≤ INT_MAX →
  avg_solutions_per_unique_match sv F g = avg_spec sv F g ∧
  0 < U_spec sv g F.
Proof.
  intros Hnew Hne Hsize.
  apply new_solver_inr in Hnew as (_ & _ & _ & _ & _ & Hrange).
  destruct (tally_matches_spec sv g F Hrange) as (Hlen & Hseen & Hcount).
  assert (Hpos : 0 < Z.of_nat (length F)).
  { destruct F; [done | simpl; lia]. }
  split.
  - unfold avg_solutions_per_unique_match, avg_spec, delta_spec.
    rewrite Hcount.
    assert (Hag : 0 ≤ ALL_GREENS_MATCH < NUM_MATCH_VALS) by (by vm_compute).
    specialize (Hseen ALL_GREENS_MATCH Hag).
    change (NUM_MATCH_VALS - 1) with ALL_GREENS_MATCH.
    destruct Hseen as [Hseen1 Hseen2].
    destruct (decide (ALL_GREENS_MATCH ∈ match_set sv g F)) as [Hin|Hin].
    + rewrite (Hseen2 Hin).
      rewrite to_size_t_small, to_int_small by lia. done.
    + destruct (default false _); [by destruct Hin; apply Hseen1|].
      rewrite to_int_small, Z.sub_0_r by lia. done.
  - unfold U_spec, match_set. destruct F as [|s F]; [done|].
    simpl. rewrite size_union_alt, size_singleton. lia.
Qed.

Lemma avg_solutions_per_unique_match_spec_witness :
  new_solver batch_words batch_words = inr batch_solver ∧
  avg_solutions_per_unique_match batch_solver [0; 1; 2; 3]%nat 0
  = avg_spec batch_solver [0; 1; 2; 3]%nat 0.
Proof.
  split; [reflexivity|].
  apply (avg_solutions_per_unique_match_spec batch_words batch_words);
    [reflexivity | discriminate | unfold INT_MAX; simpl; lia].
Defined.

(** ** Ranking the guesses *)

Lemma double_lt_spec (x y : Q) : double_lt x y = true ↔ (x < y)%Q.
Proof.
  unfold double_lt. rewrite negb_true_iff.
  destruct (Qle_bool y x) eqn:E.
  - apply Qle_bool_iff in E. split; [discriminate|].
    intros H. exfalso. by apply (Qlt_not_le x y).
  - split; [intros _ | done].
    apply Qnot_le_lt. intros H. apply Qle_bool_iff in H. congruence.
Qed.

(** The outcome of the loop over the guesses: an early return at the first
    guess whose average is below 1, or all the guesses with their averages
    when there is none. *)
Lemma rank_guesses_spec (get_avg : nat → Q) (guess_indexes : list nat)
    (ret : list (Q * nat)) :
  match rank_guesses get_avg guess_indexes ret with
  | inl early =>
      ∃ pre g post,
        guess_indexes = pre ++ g :: post ∧
        early = [(get_avg g, g)] ∧
        (get_avg g < 1)%Q ∧
        Forall (λ g', ¬ (get_avg g' < 1)%Q) pre
  | inr all =>
      all = ret ++ ((λ g, (get_avg g, g)) <$> guess_indexes) ∧
      Forall (λ g', ¬ (get_avg g' < 1)%Q) guess_indexes
  end.
Proof.
  revert ret. induction guess_indexes as [|g rest IH]; intros ret; simpl.
  - by rewrite app_nil_r.
  - destruct (double_lt (get_avg g) 1) eqn:E.
    + apply double_lt_spec in E. exists [], g, rest. by repeat split.
    + assert (Hg : ¬ (get_avg g < 1)%Q).
      { intros H. apply double_lt_spec in H. congruence. }
      specialize (IH (ret ++ [(get_avg g, g)])).
      destruct (rank_guesses _ _ _) as [early|all].
      * destruct IH as (pre & g' & post & -> & -> & Hlt & Hpre).
        exists (g :: pre), g', post. repeat split; [done|].
        by constructor.
      * destruct IH as [-> Hall]. split; [|by constructor].
        by rewrite <- app_assoc.
Qed.

(** C7: if, for a non-empty feasible set [F], some guess has an average
    below 1, then [get_best_unique_match_guesses] returns the one-element
    list of the first such guess with its average, whatever the prune
    limit is. *)
Theorem get_best_unique_match_guesses_early_exit
    (partial_sort : nat → list (Q * nat) → list (Q * nat))
    (sv : solver) (F : list nat) (g : nat) :
  F ≠ [] →
  (g < m_num_valid_guesses sv)%nat →
  (avg_solutions_per_unique_match sv F g < 1)%Q →
  ∃ g', (g' ≤ g)%nat ∧
        get_best_unique_match_guesses partial_sort sv F
        = [(avg_solutions_per_unique_match sv F g', g')] ∧
        (avg_solutions_per_unique_match sv F g' < 1)%Q ∧
        ∀ g'', (g'' < g')%nat →
               ¬ (avg_solutions_per_unique_match sv F g'' < 1)%Q.
Proof.
  intros _ Hg Hlt. unfold get_best_unique_match_guesses.
  pose proof (rank_guesses_spec (avg_solutions_per_unique_match sv F)
                (seq 0 (m_num_valid_guesses sv)) []) as Hrank.
  destruct (rank_guesses _ _ _) as [early|all].
  - destruct Hrank as (pre & g' & post & Hseq & -> & Hlt' & Hpre).
    assert (Hlen : g' = length pre).
    { assert (H : seq 0 (m_num_valid_guesses sv) !! length pre = Some g')
        by (rewrite Hseq; apply list_lookup_middle; done).
      apply lookup_seq in H. lia. }
    assert (Hpre' : pre = seq 0 g').
    { assert (H : take (length pre) (seq 0 (m_num_valid_guesses sv)) = pre)
        by (rewrite Hseq; apply take_app_length).
      rewrite <- H, take_seq, Hlen.
      f_equal. apply Nat.min_l.
      assert (length (seq 0 (m_num_valid_guesses sv))
              = length (pre ++ g' :: post)) as Hl by (by rewrite Hseq).
      rewrite length_seq, length_app in Hl. simpl in Hl. lia. }
    exists g'. split_and!; [|done|done|].
    + destruct (decide (g' ≤ g)%nat) as [|Hgt]; [done|].
      rewrite Forall_forall in Hpre. destruct (Hpre g); [|done].
      rewrite Hpre'. apply elem_of_seq. lia.
    + intros g'' Hg''. rewrite Forall_forall in Hpre. apply Hpre.
      rewrite Hpre'. apply elem_of_seq. lia.
  - destruct Hrank as [_ Hall]. rewrite Forall_forall in Hall.
    destruct (Hall g); [|done]. apply elem_of_seq. lia.
Qed.

Lemma get_best_unique_match_guesses_early_exit_witness :
  ∃ g', (g' ≤ 0)%nat ∧
        get_best_unique_match_guesses Libstdcxx.partial_sort batch_solver
                                      [0; 1]%nat
        = [(avg_solutions_per_unique_match batch_solver [0; 1]%nat g', g')] ∧
        (avg_solutions_per_unique_match batch_solver [0; 1]%nat g' < 1)%Q ∧
        ∀ g'', (g'' < g')%nat →
               ¬ (avg_solutions_per_unique_match batch_solver [0; 1]%nat g''
                  < 1)%Q.
Proof.
  apply (get_best_unique_match_guesses_early_exit
           Libstdcxx.partial_sort batch_solver [0; 1]%nat 0%nat);
    [discriminate | vm_compute; lia | by vm_compute].
Defined.

Lemma set_prune_limit_limit (sv : solver) (prune_limit : Z) :
  (1 ≤ m_num_valid_guesses sv)%nat →
  Z.of_nat (m_num_valid_guesses sv) ≤ INT_MAX →
  0 ≤ prune_limit ≤ INT_MAX →
  m_prune_limit (set_prune_limit sv prune_limit)
  = Z.min prune_limit (Z.of_nat (m_num_valid_guesses sv) - 1).
Proof.
  intros HG Hmax Hk. unfold set_prune_limit; simpl.
  rewrite !to_size_t_small, to_int_small by lia. done.
Qed.

Lemma lookup_match_set_prune_limit (sv : solver) (prune_limit : Z)
    (g s : nat) :
  lookup_match (set_prune_limit sv prune_limit) g s = lookup_match sv g s.
Proof. reflexivity. Qed.

(** C4, amended: when no guess has an average below 1,
    [get_best_unique_match_guesses] returns [K = min(prune_limit, G - 1)]
    entries [(avg(g), g)] of distinct guesses, in ascending order of the
    average, and no guess left out has a smaller average than a guess
    returned.  Which of the guesses of equal average are returned, and in
    which order, is as [std::ranges::partial_sort] leaves them. *)
Theorem get_best_unique_match_guesses_top_K
    (partial_sort : nat → list (Q * nat) → list (Q * nat))
    (valid_guesses solutions : list string) (sv0 : solver)
    (prune_limit : Z) (F : list nat) :
  partial_sort_contract partial_sort →
  new_solver valid_guesses solutions = inr sv0 →
  Z.of_nat (length valid_guesses) ≤ INT_MAX →
  0 ≤ prune_limit ≤ INT_MAX →
  let sv := set_prune_limit sv0 prune_limit in
  let avg := avg_solutions_per_unique_match sv F in
  let G := length valid_guesses in
  let K := Z.to_nat (Z.min prune_limit (Z.of_nat G - 1)) in
  let best := get_best_unique_match_guesses partial_sort sv F in
  (∀ g, (g < G)%nat → ¬ (avg g < 1)%Q) →
  length best = K ∧
  (∀ p, p ∈ best → (p.2 < G)%nat ∧ p.1 = avg p.2) ∧
  NoDup best.*2 ∧
  (∀ i j x y, (i ≤ j)%nat → best !! i = Some x → best !! j = Some y →
              (x.1 <= y.1)%Q) ∧
  (∀ g p, (g < G)%nat → g ∉ best.*2 → p ∈ best → (p.1 <= avg g)%Q).
Proof.
  intros Hps Hnew Hmax Hk sv avg G K best Hno.
  apply new_solver_inr in Hnew as (HG & _ & Hvg & _ & _ & _).
  assert (HG1 : (1 ≤ G)%nat).
  { subst G. destruct valid_guesses; [done | simpl; lia]. }
  assert (Hlim : m_prune_limit sv = Z.of_nat K).
  { subst sv K. rewrite set_prune_limit_limit by (rewrite ?HG; lia).
    rewrite HG. fold G. lia. }
  assert (HKG : (K < G)%nat) by (subst K; lia).
  subst best. unfold get_best_unique_match_guesses.
  pose proof (rank_guesses_spec avg (seq 0 (m_num_valid_guesses sv)) [])
    as Hrank.
  fold avg. change (m_num_valid_guesses sv) with (m_num_valid_guesses sv0) in *.
  rewrite HG in *. fold G in Hrank |- *.
  destruct (rank_guesses avg (seq 0 G) []) as [early|all].
  { destruct Hrank as (pre & g & post & Hseq & _ & Hlt & _).
    destruct (Hno g); [|done].
    assert (g ∈ seq 0 G) as Hin by (rewrite Hseq; set_solver).
    apply elem_of_seq in Hin. lia. }
  destruct Hrank as [Hall _]. simpl in Hall.
  rewrite Hlim.
  replace (Z.to_nat (Z.of_nat K + 1)) with (S K) by lia.
  rewrite Nat2Z.id.
  assert (Hlen : length all = G) by (by rewrite Hall, length_fmap, length_seq).
  destruct (Hps (S K) all) as [Hperm Hsorted]; [lia|].
  set (r := partial_sort (S K) all) in *.
  assert (Hlenr : length r = G) by (by rewrite Hperm).
  rewrite resize_le by lia.
  assert (Hfst : all.*2 = seq 0 G).
  { rewrite Hall, <- list_fmap_compose. apply list_fmap_id. }
  split_and!.
  - rewrite length_take. lia.
  - intros p Hp. apply elem_of_take in Hp as (i & Hp & _).
    apply list_elem_of_lookup_2 in Hp. rewrite Hperm, Hall in Hp.
    apply list_elem_of_fmap in Hp as (g & -> & Hg). simpl.
    apply elem_of_seq in Hg. split; [lia | done].
  - rewrite fmap_take. eapply sublist_NoDup; [|apply sublist_take].
    rewrite Hperm, Hfst. apply NoDup_seq.
  - intros i j x y Hij Hx Hy.
    apply lookup_take_Some in Hx as [Hx Hi].
    apply lookup_take_Some in Hy as [Hy Hj].
    eapply (Hsorted i j); [lia | done | done | done].
  - intros g p Hg Hnotin Hp.
    assert (Hin : (avg g, g) ∈ r).
    { rewrite Hperm, Hall. apply list_elem_of_fmap. exists g.
      split; [done|]. apply elem_of_seq. lia. }
    apply list_elem_of_lookup_1 in Hin as [j Hj].
    apply elem_of_take in Hp as (i & Hi & HiK).
    assert (K ≤ j)%nat.
    { destruct (decide (K ≤ j)%nat) as [|Hlt]; [done|].
      destruct Hnotin.
      apply list_elem_of_fmap. exists (avg g, g). split; [done|].
      apply elem_of_take. exists j. split; [done | lia]. }
    exact (Hsorted i j p (avg g, g) ltac:(lia) ltac:(lia) Hi Hj).
Qed.

#[local] Instance avg_le_transitive : Transitive avg_le.
Proof.
  intros x y z Hxy Hyz. unfold avg_le in *.
  apply Is_true_true, Qle_bool_iff. apply Is_true_true, Qle_bool_iff in Hxy.
  apply Is_true_true, Qle_bool_iff in Hyz. by eapply Qle_trans.
Qed.

#[local] Instance avg_le_total : Total avg_le.
Proof.
  intros x y. unfold avg_le.
  destruct (Qlt_le_dec x.1 y.1) as [H|H].
  - left. apply Is_true_true, Qle_bool_iff. by apply Qlt_le_weak.
  - right. by apply Is_true_true, Qle_bool_iff.
Qed.

Lemma StronglySorted_lookup_le {A} (R : relation A) (l : list A)
    (i j : nat) (x y : A) :
  StronglySorted R l → (i < j)%nat →
  l !! i = Some x → l !! j = Some y → R x y.
Proof.
  intros Hs. revert i j.
  induction Hs as [|a l Hs IH Hall]; intros i j Hij Hx Hy; [done|].
  destruct j as [|j]; [lia|]. simpl in Hy.
  destruct i as [|i]; simpl in Hx.
  - injection Hx as ->. rewrite Forall_forall in Hall. apply Hall.
    by eapply list_elem_of_lookup_2.
  - apply (IH i j); [lia | done | done].
Qed.

Lemma sorting_partial_sort_contract :
  partial_sort_contract sorting_partial_sort.
Proof.
  intros middle l _. unfold sorting_partial_sort. split.
  - apply merge_sort_Permutation.
  - intros i j x y _ Hij Hx Hy.
    destruct (decide (i = j)) as [->|Hne].
    + rewrite Hx in Hy. injection Hy as ->. apply Qle_refl.
    + apply Qle_bool_iff, Is_true_true.
      eapply (StronglySorted_lookup_le avg_le _ i j); [|lia|done|done].
      apply StronglySorted_merge_sort; apply _.
Qed.

Lemma get_best_unique_match_guesses_top_K_witness :
  length (get_best_unique_match_guesses sorting_partial_sort
            (set_prune_limit batch_solver 8) [0; 1; 2; 3]%nat)
  = 3%nat.
Proof.
  refine (proj1 (get_best_unique_match_guesses_top_K sorting_partial_sort
                   batch_words batch_words batch_solver 8 [0; 1; 2; 3]%nat
                   sorting_partial_sort_contract eq_refl _ _ _)).
  - unfold INT_MAX; simpl; lia.
  - unfold INT_MAX; lia.
  - intros g Hg.
    do 4 (destruct g as [|g]; [vm_compute; discriminate|]).
    simpl in Hg. lia.
Defined.

(** C4, as stated, fails on the tie-break: with the partial sort of GNU
    libstdc++, the four words batch, catch, hatch, latch as guesses and as
    solutions and the prune limit 8, every guess has the average 3/2, and
    the three guesses returned are 1, 3 and 0 in that order, not 0, 1
    and 2. *)
Lemma top_K_not_by_index :
  let sv := set_prune_limit batch_solver 8 in
  let F := [0; 1; 2; 3]%nat in
  (∀ g, (g < 4)%nat → ¬ (avg_solutions_per_unique_match sv F g < 1)%Q) ∧
  get_best_unique_match_guesses Libstdcxx.partial_sort sv F
  = [(3 # 2, 1%nat); (3 # 2, 3%nat); (3 # 2, 0%nat)]%Q ∧
  smallest_by_index sv F
  = [(3 # 2, 0%nat); (3 # 2, 1%nat); (3 # 2, 2%nat)]%Q ∧
  get_best_unique_match_guesses Libstdcxx.partial_sort sv F
  ≠ smallest_by_index sv F.
Proof.
  split_and!.
  - intros g Hg.
    do 4 (destruct g as [|g]; [vm_compute; discriminate|]). lia.
  - reflexivity.
  - reflexivity.
  - vm_compute. discriminate.
Qed.

(** ** Selection of the best candidate *)

(** [min_element] returns the first of the smallest elements. *)
Lemma min_element_from_spec {A} (proj : A → Q) (rest : list A) (best : A) :
  let m := min_element_from proj best rest in
  ∃ pre post,
    best :: rest = pre ++ m :: post ∧
    Forall (λ x, (proj m < proj x)%Q) pre ∧
    Forall (λ x, (proj m <= proj x)%Q) post.
Proof.
  revert best. induction rest as [|x rest IH]; intros best; simpl.
  - exists [], []. by repeat split.
  - destruct (double_lt (proj x) (proj best)) eqn:E.
    + apply double_lt_spec in E.
      destruct (IH x) as (pre & post & Heq & Hpre & Hpost).
      set (m := min_element_from proj x rest) in *.
      assert (Hmx : (proj m <= proj x)%Q).
      { destruct pre as [|y pre]; simpl in Heq.
        - injection Heq as Hx _. rewrite <- Hx. apply Qle_refl.
        - injection Heq as Hx _. subst y.
          apply Forall_cons in Hpre as [Hlt _]. by apply Qlt_le_weak. }
      exists (best :: pre), post. split_and!.
      * simpl. by rewrite Heq.
      * constructor; [|done]. by eapply Qle_lt_trans.
      * done.
    + assert (Hbx : (proj best <= proj x)%Q).
      { apply Qnot_lt_le. intros H. apply double_lt_spec in H. congruence. }
      destruct (IH best) as (pre & post & Heq & Hpre & Hpost).
      set (m := min_element_from proj best rest) in *.
      destruct pre as [|y pre]; simpl in Heq.
      * injection Heq as Hm Hrest. exists [], (x :: post). split_and!.
        -- simpl. by rewrite <- Hm, Hrest.
        -- done.
        -- constructor; [by rewrite <- Hm | done].
      * injection Heq as Hy Hrest. subst y.
        apply Forall_cons in Hpre as [Hlt Hpre].
        exists (best :: x :: pre), post. split_and!.
        -- simpl. by rewrite Hrest.
        -- repeat constructor; [done | by eapply Qlt_le_trans | done].
        -- done.
Qed.

Lemma filter_seq_sorted (P : nat → Prop) `{∀ i, Decision (P i)} (a n : nat) :
  StronglySorted lt (filter P (seq a n)).
Proof.
  revert a. induction n as [|n IH]; intros a; simpl; [constructor|].
  rewrite filter_cons. destruct (decide (P a)); [|apply IH].
  constructor; [apply IH|].
  apply Forall_forall. intros i Hi.
  apply list_elem_of_filter in Hi as [_ Hi]. apply elem_of_seq in Hi. lia.
Qed.

(** The position that [solve] selects: the first candidate of the
    smallest average among those within the depth bound, and position 0
    when no candidate is within the bound. *)
Lemma best_index_spec (depth : Z) (subtrees : list node) :
  let i := best_index depth subtrees in
  ((∃ n, n ∈ subtrees ∧ within_depth depth n = true) →
   ∃ chosen,
     subtrees !! i = Some chosen ∧
     within_depth depth chosen = true ∧
     ∀ j n, subtrees !! j = Some n → within_depth depth n = true →
            (average_num_guesses chosen <= average_num_guesses n)%Q ∧
            ((j < i)%nat →
             (average_num_guesses chosen < average_num_guesses n)%Q)) ∧
  ((∀ n, n ∈ subtrees → within_depth depth n = false) → i = 0%nat).
Proof.
  intros i. subst i. unfold best_index.
  set (P := λ i : nat,
         Is_true (within_depth depth (default new_node (subtrees !! i)))).
  set (proj := λ i : nat,
         average_num_guesses (default new_node (subtrees !! i))).
  assert (HP : ∀ j n, subtrees !! j = Some n →
                      (j ∈ filter P (seq 0 (length subtrees)) ↔
                       within_depth depth n = true)).
  { intros j n Hj. rewrite list_elem_of_filter, elem_of_seq.
    unfold P. rewrite Hj. simpl. rewrite Is_true_true.
    apply lookup_lt_Some in Hj. intuition lia. }
  pose proof (filter_seq_sorted P 0 (length subtrees)) as Hsorted.
  destruct (filter P (seq 0 (length subtrees))) as [|i0 rest] eqn:Hf.
  - split; [|done].
    intros (n & Hn & Hw). apply list_elem_of_lookup_1 in Hn as [j Hj].
    apply (HP j n Hj) in Hw. by apply elem_of_nil in Hw.
  - simpl. destruct (min_element_from_spec proj rest i0)
      as (pre & post & Heq & Hpre & Hpost).
    set (i := min_element_from proj i0 rest) in *.
    rewrite Heq in Hsorted, HP.
    assert (Hi : i ∈ filter P (seq 0 (length subtrees)))
      by (rewrite Hf, Heq; set_solver).
    apply list_elem_of_filter in Hi as [HPi Hi]. apply elem_of_seq in Hi.
    destruct (lookup_lt_is_Some_2 subtrees i) as [chosen Hchosen]; [lia|].
    assert (Hproj : ∀ j n, subtrees !! j = Some n →
                           proj j = average_num_guesses n).
    { intros j n Hj. unfold proj. by rewrite Hj. }
    split.
    + intros _. exists chosen. split_and!; [done| |].
      * unfold P in HPi. rewrite Hchosen in HPi. by apply Is_true_true.
      * intros j n Hj Hw. apply (HP j n Hj) in Hw.
        rewrite <- (Hproj i chosen Hchosen), <- (Hproj j n Hj).
        apply elem_of_app in Hw as [Hw|Hw].
        { rewrite Forall_forall in Hpre. split; [|by intros; apply Hpre].
          by apply Qlt_le_weak, Hpre. }
        apply elem_of_cons in Hw as [->|Hw].
        { split; [apply Qle_refl | lia]. }
        rewrite Forall_forall in Hpost. split; [by apply Hpost|].
        intros Hlt. exfalso.
        apply StronglySorted_app_1_r, StronglySorted_cons in Hsorted
          as [Hall _].
        rewrite Forall_forall in Hall. specialize (Hall j Hw). lia.
    + intros Hnone. specialize (Hnone chosen).
      unfold P in HPi. rewrite Hchosen in HPi. simpl in HPi.
      apply Is_true_true in HPi. rewrite Hnone in HPi; [done|].
      by eapply list_elem_of_lookup_2.
Qed.

Lemma swap_nodes_first (i : nat) (subtrees : list node) (chosen : node) :
  subtrees !! i = Some chosen →
  swap_nodes i 0 subtrees !! 0%nat = Some chosen ∧
  swap_nodes i 0 subtrees ≡ₚ subtrees.
Proof.
  intros Hi. unfold swap_nodes. rewrite Hi.
  destruct subtrees as [|first rest]; [done|]. simpl.
  destruct i as [|i]; simpl in *.
  - injection Hi as ->. done.
  - split; [done|].
    apply lookup_lt_Some in Hi as Hlt.
    rewrite <- (take_drop_middle rest i chosen Hi) at 2.
    rewrite insert_take_drop by done.
    rewrite <- !Permutation_middle. apply Permutation_swap.
Qed.

(** C5: in a call of [solve] that explores its candidates, the node
    returned is the candidate of the smallest [average_num_guesses] among
    those with [depth + min_depth <= 6], the earliest one among equals;
    it is the candidate at position 0 when none is within that bound; it
    stands at position 0 of the array after the swap, which keeps every
    candidate; and it is the node memoised and returned. *)
Theorem solve_indexes_selects_best
    (partial_sort : nat → list (Q * nat) → list (Q * nat)) (sv : solver)
    (fuel : nat) (m_memo m_memo' : memo_t) (F : list nat) (depth : Z)
    (subtrees : list node) :
  match lookup_memo m_memo F with
  | Some cached => within_depth depth cached = false
  | None => True
  end →
  explore sv (solve_indexes partial_sort sv fuel) m_memo F depth
          (get_best_unique_match_guesses partial_sort sv F)
  = Some (subtrees, m_memo') →
  subtrees ≠ [] →
  let i := best_index depth subtrees in
  ∃ chosen,
    subtrees !! i = Some chosen ∧
    swap_nodes i 0 subtrees !! 0%nat = Some chosen ∧
    swap_nodes i 0 subtrees ≡ₚ subtrees ∧
    solve_indexes partial_sort sv (S fuel) m_memo F depth
    = Some (chosen, set_memo m_memo' F chosen) ∧
    ((∃ n, n ∈ subtrees ∧ within_depth depth n = true) →
     within_depth depth chosen = true ∧
     ∀ j n, subtrees !! j = Some n → within_depth depth n = true →
            (average_num_guesses chosen <= average_num_guesses n)%Q ∧
            ((j < i)%nat →
             (average_num_guesses chosen < average_num_guesses n)%Q)) ∧
    ((∀ n, n ∈ subtrees → within_depth depth n = false) → i = 0%nat).
Proof.
  intros Hmemo Hexp Hne i.
  destruct (best_index_spec depth subtrees) as [Hsome Hnone]. fold i in Hsome, Hnone.
  assert (Hchosen : ∃ chosen, subtrees !! i = Some chosen).
  { destruct (decide (Exists (λ n, within_depth depth n = true) subtrees))
      as [Hex|Hnex]; rewrite Exists_exists in *.
    - destruct (Hsome Hex) as (chosen & Hi & _). by exists chosen.
    - rewrite Hnone.
      + destruct subtrees as [|first rest]; [done|]. by exists first.
      + intros n Hn. destruct (within_depth depth n) eqn:E; [|done].
        destruct Hnex. by exists n. }
  destruct Hchosen as [chosen Hchosen]. exists chosen.
  destruct (swap_nodes_first i subtrees chosen Hchosen) as [Hfirst Hperm].
  split_and!; [done | done | done | | | done].
  - assert (Hbody : solve_body partial_sort sv
                      (solve_indexes partial_sort sv fuel) m_memo F depth
                    = Some (chosen, set_memo m_memo' F chosen)).
    { unfold solve_body.
      assert (Hsel : select m_memo' F depth subtrees
                     = Some (chosen, set_memo m_memo' F chosen)).
      { unfold select. fold i. by rewrite Hfirst. }
      destruct (lookup_memo m_memo F) as [cached|].
      - rewrite Hmemo, Hexp. exact Hsel.
      - rewrite Hexp. exact Hsel. }
    exact Hbody.
  - intros Hex. destruct (Hsome Hex) as (chosen' & Hi & Hw & Hmin).
    rewrite Hchosen in Hi. injection Hi as <-. done.
Qed.

Lemma solve_indexes_selects_best_witness :
  ∃ chosen,
    batch_explored.1 !! best_index 0 batch_explored.1 = Some chosen ∧
    solve_indexes Libstdcxx.partial_sort batch_search 4 ∅ [0; 1; 2; 3]%nat 0
    = Some (chosen, set_memo batch_explored.2 [0; 1; 2; 3]%nat chosen).
Proof.
  destruct (solve_indexes_selects_best Libstdcxx.partial_sort batch_search 3
              ∅ batch_explored.2 [0; 1; 2; 3]%nat 0 batch_explored.1)
    as (chosen & Hi & _ & _ & Hsolve & _).
  - exact I.
  - vm_compute. reflexivity.
  - vm_compute. discriminate.
  - exists chosen. split; [exact Hi | exact Hsolve].
Defined.

(** ** Bounds on the counters of a node *)

Lemma mark_solved_ok (sv : solver) (subtree : node) (g s : nat) :
  node_ok subtree → node_ok (mark_solved sv subtree g s).
Proof.
  unfold node_ok, mark_solved. destruct subtree; simpl.
  intros (Hs & Hm & _).
  destruct (_ =? _); simpl; (split_and!; [lia..|intros _; lia]).
Qed.

Section Bounds.

Variable sv : solver.
Variable solve_rec : memo_t → list nat → Z → option (node * memo_t).
Hypothesis solve_rec_ok : rec_ok solve_rec.

Lemma traverse_match_ok (m_memo m_memo' : memo_t) (subtree subtree' : node)
    (g : nat) (depth : Z) (avail : list nat) (continue : bool) :
  memo_ok m_memo → node_ok subtree →
  traverse_match sv solve_rec m_memo subtree g depth avail
  = Some (subtree', m_memo', continue) →
  node_ok subtree' ∧ memo_ok m_memo'.
Proof.
  intros Hmemo Hsub. unfold traverse_match.
  destruct avail as [|s [|s' rest]].
  - intros [= <- <- _]. done.
  - intros [= <- <- _]. split; [by apply mark_solved_ok | done].
  - destruct (solve_rec m_memo (s :: s' :: rest) (depth + 1))
      as [[child memo1]|] eqn:Hrec; simpl; [|done].
    destruct (solve_rec_ok _ _ _ _ _ Hmemo Hrec) as [Hchild Hmemo1].
    destruct subtree; simpl. intros [= <- <- _]. split; [|done].
    destruct Hsub as (Hs & Hm & Hleaf). destruct Hchild as (Hcs & Hcm & _).
    unfold node_ok; simpl in *.
    split_and!; [lia..|]. intros H. specialize (Hleaf H). lia.
Qed.

Lemma traverse_match_loop_ok (buckets : list (list nat))
    (matches : list nat) (m_memo m_memo' : memo_t)
    (subtree subtree' : node) (g : nat) (depth : Z) :
  memo_ok m_memo → node_ok subtree →
  traverse_match_loop sv solve_rec buckets m_memo subtree g depth matches
  = Some (subtree', m_memo') →
  node_ok subtree' ∧ memo_ok m_memo'.
Proof.
  revert m_memo subtree.
  induction matches as [|m rest IH]; intros m_memo subtree Hmemo Hsub; simpl.
  - intros [= <- <-]. done.
  - destruct (traverse_match sv solve_rec m_memo subtree g depth
                (default [] (buckets !! m)))
      as [[[subtree1 memo1] continue]|] eqn:Hstep; simpl; [|done].
    destruct (traverse_match_ok _ _ _ _ _ _ _ _ Hmemo Hsub Hstep)
      as [Hsub1 Hmemo1].
    destruct continue.
    + by apply IH.
    + intros [= <- <-]. done.
Qed.

Lemma explore_ok (best_guesses : list (Q * nat)) (m_memo m_memo' : memo_t)
    (F : list nat) (depth : Z) (subtrees : list node) :
  memo_ok m_memo →
  explore sv solve_rec m_memo F depth best_guesses
  = Some (subtrees, m_memo') →
  Forall node_ok subtrees ∧ memo_ok m_memo'.
Proof.
  revert m_memo m_memo' subtrees.
  induction best_guesses as [|[avg g] rest IH];
    intros m_memo m_memo' subtrees Hmemo; simpl.
  - intros [= <- <-]. done.
  - destruct (traverse_matches sv solve_rec m_memo
                (Node g 0 0 0 false [] []) g F depth)
      as [[subtree memo1]|] eqn:Htrav; simpl; [|done].
    unfold traverse_matches in Htrav.
    apply traverse_match_loop_ok in Htrav as [Hsub Hmemo1];
      [|done|].
    2: { unfold node_ok; simpl. split_and!; [lia..|]. intros [?|?]; done. }
    destruct (explore sv solve_rec memo1 F depth rest)
      as [[subtrees' memo2]|] eqn:Hrest; simpl; [|done].
    destruct (IH _ _ _ Hmemo1 Hrest) as [Hall Hmemo2].
    intros [= <- <-]. split; [by constructor | done].
Qed.

Lemma select_ok (m_memo m_memo' : memo_t) (F : list nat) (depth : Z)
    (subtrees : list node) (n : node) :
  memo_ok m_memo → Forall node_ok subtrees →
  select m_memo F depth subtrees = Some (n, m_memo') →
  node_ok n ∧ memo_ok m_memo'.
Proof.
  intros Hmemo Hall. unfold select.
  destruct (swap_nodes _ 0 subtrees !! 0%nat) as [first|] eqn:Hfirst;
    simpl; [|done].
  intros [= <- <-].
  assert (Hok : node_ok first).
  { rewrite Forall_forall in Hall. apply Hall.
    apply list_elem_of_lookup_2 in Hfirst. revert Hfirst.
    unfold swap_nodes. generalize (best_index depth subtrees) as i. intros i.
    destruct (subtrees !! i) as [a|] eqn:Ha; [|done].
    destruct subtrees as [|b rest]; [done|].
    change ((b :: rest) !! 0%nat) with (Some b).
    intros Hin.
    apply list_elem_of_lookup_1 in Hin as [k Hk].
    apply list_lookup_insert_Some in Hk as [(_ & <- & _)|[_ Hk]];
      [set_solver|].
    apply list_lookup_insert_Some in Hk as [(_ & <- & _)|[_ Hk]];
      by eapply list_elem_of_lookup_2. }
  split; [done|]. by apply map_Forall_insert_2.
Qed.

Lemma solve_body_ok (partial_sort : nat → list (Q * nat) → list (Q * nat)) :
  rec_ok (solve_body partial_sort sv solve_rec).
Proof.
  intros m_memo F depth n m_memo' Hmemo. unfold solve_body.
  assert (Hexplore :
    (explore sv solve_rec m_memo F depth
       (get_best_unique_match_guesses partial_sort sv F)
     ≫= λ '(subtrees, m_memo0), select m_memo0 F depth subtrees)
    = Some (n, m_memo') → node_ok n ∧ memo_ok m_memo').
  { destruct (explore _ _ _ _ _ _) as [[subtrees memo1]|] eqn:Hexp;
      simpl; [|done].
    destruct (explore_ok _ _ _ _ _ _ Hmemo Hexp) as [Hall Hmemo1].
    by apply select_ok. }
  destruct (lookup_memo m_memo F) as [cached|] eqn:Hlook; [|done].
  destruct (within_depth depth cached); [|done].
  intros [= <- <-]. split; [|done]. by apply (Hmemo F).
Qed.

End Bounds.

(** Every node that [solve] returns, at any depth of the recursion, has
    [0 <= solved_count <= total_depth] and [0 <= min_depth <= 2], and
    [1 <= min_depth] when it is a leaf or has a leaf. *)
Lemma solve_indexes_ok
    (partial_sort : nat → list (Q * nat) → list (Q * nat)) (sv : solver)
    (fuel : nat) :
  rec_ok (solve_indexes partial_sort sv fuel).
Proof.
  induction fuel as [|fuel IH]; simpl.
  - intros m_memo F depth n m_memo' _ H. discriminate H.
  - by apply solve_body_ok.
Qed.

Lemma solve_ok (partial_sort : nat → list (Q * nat) → list (Q * nat))
    (sv : solver) (fuel : nat) (prune_limit : Z) (root : node) :
  (solve partial_sort sv fuel prune_limit).2 = Some root → node_ok root.
Proof.
  unfold solve; simpl.
  destruct (solve_indexes _ _ _ _ _ _) as [[n m_memo]|] eqn:H; [|done].
  intros [= <-].
  by destruct (solve_indexes_ok _ _ _ _ _ _ _ _ (map_Forall_empty _) H).
Qed.

(** ** The average number of guesses *)

Lemma average_num_guesses_nonneg (n : node) :
  node_ok n → (0 <= average_num_guesses n)%Q.
Proof.
  intros [[Hs Ht] _]. unfold average_num_guesses.
  destruct (solved_count n =? 0); [apply Qle_refl|].
  apply Qmult_le_0_compat; [|apply Qinv_le_0_compat].
  - rewrite <- (Zle_Qle 0). lia.
  - by rewrite <- (Zle_Qle 0).
Qed.

(** C10: [average_num_guesses] is defined on every node: it divides by
    no zero, and the value it returns is a number, 0 when [solved_count]
    is 0, where the quotient taken without the test would be no number,
    and [total_depth / solved_count] otherwise; so the selection, which
    takes this value of every candidate, divides by no zero.  A node
    that solved nothing has an average no greater than that of any node
    whose counters are not negative: it compares as the least. *)
Theorem average_num_guesses_total (n : node) :
  average_num_guesses_double n = Some (average_num_guesses n) ∧
  (solved_count n = 0 →
   average_num_guesses n = 0%Q ∧
   double_div (total_depth n) (solved_count n) = None) ∧
  (solved_count n ≠ 0 →
   average_num_guesses n
   = (inject_Z (total_depth n) / inject_Z (solved_count n))%Q ∧
   double_div (total_depth n) (solved_count n)
   = Some (average_num_guesses n)) ∧
  (solved_count n = 0 →
   ∀ candidate,
     0 ≤ total_depth candidate → 0 ≤ solved_count candidate →
     (average_num_guesses n <= average_num_guesses candidate)%Q).
Proof.
  unfold average_num_guesses_double, average_num_guesses, double_div.
  destruct (solved_count n =? 0) eqn:E.
  - apply Z.eqb_eq in E. split_and!; [done | by rewrite E | done |].
    intros _ candidate Ht Hs.
    destruct (solved_count candidate =? 0) eqn:E'; [apply Qle_refl|].
    apply Z.eqb_neq in E'.
    apply Qmult_le_0_compat; [|apply Qinv_le_0_compat].
    + rewrite <- (Zle_Qle 0). lia.
    + by rewrite <- (Zle_Qle 0).
  - apply Z.eqb_neq in E. split_and!; [done | done | done | done].
Qed.

Lemma average_num_guesses_total_witness :
  average_num_guesses_double (Node 1 10 4 1 true [] [])
  = Some (inject_Z 10 / inject_Z 4)%Q ∧
  average_num_guesses_double new_node = Some 0%Q ∧
  double_div (total_depth new_node) (solved_count new_node) = None ∧
  (average_num_guesses new_node
   <= average_num_guesses (Node 1 10 4 1 true [] []))%Q.
Proof.
  split_and!.
  - exact (proj1 (average_num_guesses_total (Node 1 10 4 1 true [] []))).
  - exact (proj1 (average_num_guesses_total new_node)).
  - exact (proj2 (proj1 (proj2 (average_num_guesses_total new_node))
                    eq_refl)).
  - refine (proj2 (proj2 (proj2 (average_num_guesses_total new_node)))
              eq_refl (Node 1 10 4 1 true [] []) _ _); cbn; lia.
Defined.

(** ** A root whose minimal depth is 0 *)

(** C1 fails on the code: with the fifteen guesses and ten solutions of
    [pairs_guesses] and [pairs_solutions] and the prune limit 8, [solve]
    returns a root that is no leaf and has no leaves, solves the ten
    solutions through five children, and has [min_depth = 0]. *)
Theorem solve_root_min_depth_zero :
  let root := (solve Libstdcxx.partial_sort pairs_solver 4 8).2 in
  new_solver pairs_guesses pairs_solutions = inr pairs_solver ∧
  min_depth <$> root = Some 0 ∧
  is_leaf <$> root = Some false ∧
  leaves <$> root = Some [] ∧
  guess_index <$> root = Some 1%nat ∧
  solved_count <$> root = Some 10 ∧
  total_depth <$> root = Some 25 ∧
  (length ∘ children) <$> root = Some 5%nat.
Proof. vm_compute. repeat split. Qed.

(** * Further properties *)

(** ** The pattern string and the match value *)

Lemma pattern_value_snoc (pattern : list ascii) (c : ascii) :
  pattern_value (pattern ++ [c])
  = pattern_value pattern + verdict_of_char c * 3 ^ Z.of_nat (length pattern).
Proof.
  induction pattern as [|d pattern IH]; cbn [pattern_value app length].
  - change (3 ^ Z.of_nat 0) with 1. lia.
  - rewrite IH, Nat2Z.inj_succ, Z.pow_succ_r by lia. lia.
Qed.

Lemma verdict_of_char_range (c : ascii) : 0 ≤ verdict_of_char c ≤ 2.
Proof. unfold verdict_of_char. repeat case_bool_decide; lia. Qed.

Lemma verdict_of_char_inj (c d : ascii) :
  pattern_char c → pattern_char d →
  verdict_of_char c = verdict_of_char d → c = d.
Proof.
  intros [-> | [-> | ->]] [-> | [-> | ->]]; vm_compute; congruence.
Qed.

Lemma pattern_value_range (pattern : list ascii) :
  0 ≤ pattern_value pattern < 3 ^ Z.of_nat (length pattern).
Proof.
  induction pattern as [|c pattern IH]; cbn [pattern_value length].
  - change (3 ^ Z.of_nat 0) with 1. lia.
  - pose proof (verdict_of_char_range c).
    rewrite Nat2Z.inj_succ, Z.pow_succ_r by lia. lia.
Qed.

(** A pattern string is determined by its value. *)
Lemma pattern_value_inj (p q : list ascii) :
  length p = length q → Forall pattern_char p → Forall pattern_char q →
  pattern_value p = pattern_value q → p = q.
Proof.
  revert q. induction p as [|c p IH]; intros [|d q] Hlen Hp Hq Hv;
    try done.
  apply Forall_cons in Hp as [Hc Hp]. apply Forall_cons in Hq as [Hd Hq].
  cbn [pattern_value] in Hv.
  pose proof (verdict_of_char_range c). pose proof (verdict_of_char_range d).
  assert (verdict_of_char c = verdict_of_char d) as Hcd by lia.
  f_equal.
  - by apply verdict_of_char_inj.
  - apply IH; [by injection Hlen | done | done | lia].
Qed.

(** One iteration of the loop of [calc_match_val] writes one character
    of the pattern string and adds its verdict at the weight [mult]. *)
Lemma match_step_char (guess solution : string) (st : match_state) (i : nat) :
  match_string st !! i = Some "."%char →
  ∃ c, pattern_char c ∧
       (c = "G"%char ↔ char_at guess i = char_at solution i) ∧
       match_string (match_step guess solution st i)
       = <[i := c]> (match_string st) ∧
       match_val (match_step guess solution st i)
       = match_val st + verdict_of_char c * mult st.
Proof.
  intros Hdot. unfold match_step. case_bool_decide as Heq.
  - exists "G"%char. cbn [match_string match_val].
    split_and!; [by right; right | done | done |].
    change (verdict_of_char "G") with 2. lia.
  - destruct (find_yellow _ _ _ _ _).
    + exists "y"%char. cbn [match_string match_val].
      split_and!; [by right; left | | done |].
      * split; [discriminate | done].
      * change (verdict_of_char "y") with 1. lia.
    + exists "."%char. cbn [match_string match_val].
      split_and!; [by left | | |].
      * split; [discriminate | done].
      * by rewrite list_insert_id.
      * change (verdict_of_char ".") with 0. lia.
Qed.

(** The state of the loop of [calc_match_val] after the positions below
    [n]. *)
Lemma match_steps_pattern (guess solution : string) (n : nat) :
  (n ≤ NUM_WORD_LETTERS)%nat →
  let st := foldl (match_step guess solution) match_init (seq 0 n) in
  mult st = 3 ^ Z.of_nat n ∧
  length (match_string st) = NUM_WORD_LETTERS ∧
  Forall pattern_char (match_string st) ∧
  match_val st = pattern_value (take n (match_string st)) ∧
  (∀ i, (n ≤ i < NUM_WORD_LETTERS)%nat →
        match_string st !! i = Some "."%char) ∧
  (∀ i, (i < n)%nat →
        match_string st !! i = Some "G"%char ↔
        char_at guess i = char_at solution i).
Proof.
  induction n as [|n IH]; intros Hn.
  - cbn [seq foldl]. unfold match_init.
    cbn [mult match_string match_val take pattern_value].
    split_and!; try done.
    + apply Forall_replicate. by left.
    + intros i Hi. apply lookup_replicate_2. lia.
    + intros i Hi. lia.
  - destruct IH as (Hm & Hlen & Hall & Hv & Hdot & Hgreen); [lia|].
    rewrite seq_S, foldl_snoc.
    set (st := foldl (match_step guess solution) match_init (seq 0 n)) in *.
    cbn [Nat.add].
    destruct (match_step_char guess solution st n)
      as (c & Hc & Hcg & Hstr & Hval); [apply Hdot; lia|].
    rewrite match_step_mult, Hstr, Hval, Hm, Hv.
    assert (n < length (match_string st))%nat by lia.
    split_and!.
    + rewrite Nat2Z.inj_succ, Z.pow_succ_r by lia. lia.
    + by rewrite length_insert.
    + by apply Forall_insert.
    + rewrite (take_S_r _ _ c) by (by apply list_lookup_insert_eq).
      rewrite take_insert_ge by lia.
      rewrite pattern_value_snoc, length_take_le by lia. done.
    + intros i Hi. rewrite list_lookup_insert_ne by lia. apply Hdot. lia.
    + intros i Hi. destruct (decide (i = n)) as [->|Hne].
      * rewrite list_lookup_insert_eq by done. rewrite <- Hcg.
        split; [by intros [= ->] | by intros ->].
      * rewrite list_lookup_insert_ne by done. apply Hgreen. lia.
Qed.

Lemma match_loop_pattern (guess solution : string) :
  let st := match_loop guess solution in
  length (match_string st) = NUM_WORD_LETTERS ∧
  Forall pattern_char (match_string st) ∧
  match_val st = pattern_value (match_string st) ∧
  (∀ i, (i < NUM_WORD_LETTERS)%nat →
        match_string st !! i = Some "G"%char ↔
        char_at guess i = char_at solution i).
Proof.
  destruct (match_steps_pattern guess solution NUM_WORD_LETTERS)
    as (_ & Hlen & Hall & Hv & _ & Hgreen); [done|].
  unfold match_loop. split_and!; [done | done | | done].
  rewrite Hv. by rewrite take_ge by lia.
Qed.

Lemma calc_match_val_unfold (m_match_strings : list string)
    (guess solution : string) :
  calc_match_val m_match_strings guess solution
  = (match_val (match_loop guess solution),
     <[Z.to_nat (match_val (match_loop guess solution)) :=
         string_of_list_ascii (match_string (match_loop guess solution))]>
       m_match_strings).
Proof.
  unfold calc_match_val. cbn zeta. f_equal.
  pose proof (match_loop_range guess solution) as H.
  change NUM_MATCH_VALS with 243 in H.
  unfold to_match_val_t. apply Z.mod_small. lia.
Qed.

(** X1: [calc_match_val] returns a value below 243, stores at that value
    a pattern string of five characters among '.', 'y' and 'G' whose
    base-3 reading (green 2, yellow 1, grey 0, position [i] weighing
    [3^i]) is the value returned, and leaves every other entry of
    [m_match_strings] as it was. *)
Theorem calc_match_val_encodes_pattern (m_match_strings : list string)
    (guess solution : string) :
  length m_match_strings = Z.to_nat NUM_MATCH_VALS →
  let r := calc_match_val m_match_strings guess solution in
  0 ≤ r.1 < NUM_MATCH_VALS ∧
  (∃ pattern,
     r.2 !! Z.to_nat r.1 = Some (string_of_list_ascii pattern) ∧
     length pattern = NUM_WORD_LETTERS ∧
     Forall pattern_char pattern ∧
     pattern_value pattern = r.1) ∧
  (∀ v, v ≠ Z.to_nat r.1 → r.2 !! v = m_match_strings !! v).
Proof.
  intros Hlen r. subst r. rewrite calc_match_val_unfold. cbn [fst snd].
  pose proof (match_loop_range guess solution) as Hrange.
  destruct (match_loop_pattern guess solution) as (Hl & Hall & Hv & _).
  split_and!; [lia | lia | |].
  - exists (match_string (match_loop guess solution)). split_and!; try done.
    apply list_lookup_insert_eq. rewrite Hlen. lia.
  - intros v Hne. by apply list_lookup_insert_ne.
Qed.

Lemma calc_match_val_encodes_pattern_witness :
  ∃ pattern,
    (calc_match_val empty_match_strings "crate" "trace").2 !! 214%nat
    = Some (string_of_list_ascii pattern) ∧
    pattern_value pattern = 214.
Proof.
  destruct (calc_match_val_encodes_pattern empty_match_strings
              "crate" "trace" eq_refl) as (_ & (p & H1 & _ & _ & H2) & _).
  exists p. split; [exact H1 | exact H2].
Defined.

Lemma char_at_cons (c : ascii) (word : string) (i : nat) :
  char_at (String c word) (S i) = char_at word i.
Proof. reflexivity. Qed.

Lemma string_eq_char_at (a b : string) :
  String.length a = String.length b →
  (∀ i, (i < String.length a)%nat → char_at a i = char_at b i) → a = b.
Proof.
  revert b. induction a as [|c a IH]; intros [|d b] Hlen Hchars; try done.
  cbn [String.length] in *. f_equal.
  - apply (Hchars 0%nat). lia.
  - apply IH; [lia|]. intros i Hi.
    rewrite <- (char_at_cons c a i), <- (char_at_cons d b i).
    apply Hchars. lia.
Qed.

(** The value of five greens is reached by five greens only. *)
Lemma pattern_value_all_greens (pattern : list ascii) :
  length pattern = NUM_WORD_LETTERS → Forall pattern_char pattern →
  pattern_value pattern = ALL_GREENS_MATCH ↔
  ∀ i, (i < NUM_WORD_LETTERS)%nat → pattern !! i = Some "G"%char.
Proof.
  intros Hlen Hall.
  assert (Hg : pattern_value (replicate NUM_WORD_LETTERS "G"%char)
               = ALL_GREENS_MATCH) by reflexivity.
  split.
  - intros Hv. rewrite <- Hg in Hv.
    assert (Heq : pattern = replicate NUM_WORD_LETTERS "G"%char).
    { apply pattern_value_inj; [|done| |done].
      - rewrite ?length_replicate. exact Hlen.
      - apply Forall_replicate. by right; right. }
    intros i Hi. rewrite Heq. by apply lookup_replicate_2.
  - intros Hgreen. rewrite <- Hg. f_equal.
    apply list_eq_same_length with NUM_WORD_LETTERS;
      [by rewrite length_replicate | done |].
    intros i x y Hi Hx Hy. rewrite Hgreen in Hx by done.
    rewrite lookup_replicate_2 in Hy by done. congruence.
Qed.

Lemma match_loop_all_greens (guess solution : string) :
  String.length guess = NUM_WORD_LETTERS →
  String.length solution = NUM_WORD_LETTERS →
  match_val (match_loop guess solution) = ALL_GREENS_MATCH ↔
  guess = solution.
Proof.
  intros Hg Hs.
  destruct (match_loop_pattern guess solution) as (Hl & Hall & Hv & Hgreen).
  rewrite Hv, (pattern_value_all_greens _ Hl Hall). split.
  - intros H. apply string_eq_char_at; [congruence|].
    intros i Hi. apply Hgreen; [lia|]. apply H. lia.
  - intros <- i Hi. by apply Hgreen.
Qed.

(** X2: in a constructed solver, the match of a guess and a solution is
    the all-greens value exactly when the two are the same word. *)
Theorem lookup_match_all_greens_iff (valid_guesses solutions : list string)
    (sv : solver) (g s : nat) (guess solution : string) :
  new_solver valid_guesses solutions = inr sv →
  valid_guesses !! g = Some guess → solutions !! s = Some solution →
  lookup_match sv g s = ALL_GREENS_MATCH ↔ guess = solution.
Proof.
  intros Hnew Hg Hs.
  rewrite (lookup_match_new_solver _ _ _ _ _ _ _ Hnew Hg Hs).
  rewrite calc_match_val_unfold. cbn [fst].
  unfold new_solver in Hnew.
  destruct (check_guesses_solutions valid_guesses solutions) eqn:Hc;
    [done|].
  apply check_guesses_solutions_None in Hc as (_ & _ & Hsl & Hgl).
  rewrite Forall_forall in Hsl, Hgl.
  apply match_loop_all_greens.
  - apply Hgl. by eapply list_elem_of_lookup_2.
  - apply Hsl. by eapply list_elem_of_lookup_2.
Qed.

Lemma lookup_match_all_greens_iff_witness :
  lookup_match batch_solver 1 1 = ALL_GREENS_MATCH ↔
  "catch"%string = "catch"%string.
Proof.
  exact (lookup_match_all_greens_iff batch_words batch_words batch_solver
           1 1 "catch" "catch" eq_refl eq_refl eq_refl).
Defined.

(** ** The table of pattern strings of a constructed solver *)

Lemma match_entry_pattern (valid_guesses solutions : list string)
    (index : nat) :
  0 ≤ match_entry valid_guesses solutions index < NUM_MATCH_VALS ∧
  ∃ pattern,
    match_pattern valid_guesses solutions index
    = string_of_list_ascii pattern ∧
    length pattern = NUM_WORD_LETTERS ∧ Forall pattern_char pattern ∧
    pattern_value pattern = match_entry valid_guesses solutions index.
Proof.
  unfold match_entry, match_pattern. rewrite calc_match_val_unfold.
  cbn [fst].
  set (st := match_loop _ _).
  pose proof (match_loop_range
                (default EmptyString
                   (valid_guesses !! (index / length solutions)%nat))
                (default EmptyString
                   (solutions !! (index mod length solutions)%nat))) as Hr.
  destruct (match_loop_pattern
              (default EmptyString
                 (valid_guesses !! (index / length solutions)%nat))
              (default EmptyString
                 (solutions !! (index mod length solutions)%nat)))
    as (Hl & Hall & Hv & _).
  fold st in Hr, Hl, Hall, Hv.
  split; [done|]. by exists (match_string st).
Qed.

(** Two pairs of words with the same match value have the same pattern
    string. *)
Lemma match_pattern_of_entry (valid_guesses solutions : list string)
    (index index' : nat) :
  match_entry valid_guesses solutions index
  = match_entry valid_guesses solutions index' →
  match_pattern valid_guesses solutions index
  = match_pattern valid_guesses solutions index'.
Proof.
  intros Heq.
  destruct (match_entry_pattern valid_guesses solutions index)
    as (_ & p & -> & Hl & Hall & Hv).
  destruct (match_entry_pattern valid_guesses solutions index')
    as (_ & p' & -> & Hl' & Hall' & Hv').
  f_equal. apply pattern_value_inj; [congruence | done | done | congruence].
Qed.

Lemma calc_match_val_val (m_match_strings : list string)
    (guess solution : string) :
  (calc_match_val m_match_strings guess solution).1
  = match_val (match_loop guess solution).
Proof.
  rewrite calc_match_val_unfold.
  generalize (match_loop guess solution). intros st. reflexivity.
Qed.

Lemma match_entry_row (valid_guesses solutions : list string) (i j : nat) :
  (j < length solutions)%nat →
  match_entry valid_guesses solutions (i * length solutions + j)
  = match_val (match_loop (default EmptyString (valid_guesses !! i))
                          (default EmptyString (solutions !! j))) ∧
  match_pattern valid_guesses solutions (i * length solutions + j)
  = string_of_list_ascii
      (match_string (match_loop (default EmptyString (valid_guesses !! i))
                                (default EmptyString (solutions !! j)))).
Proof.
  intros Hj. unfold match_entry, match_pattern.
  rewrite Nat.div_add_l, Nat.div_small, Nat.add_0_r by lia.
  rewrite (Nat.add_comm (i * length solutions)), Nat.Div0.mod_add,
    Nat.mod_small by lia.
  rewrite calc_match_val_val. split; reflexivity.
Qed.

Lemma match_entry_at (valid_guesses solutions : list string) (g s : nat)
    (guess solution : string) :
  valid_guesses !! g = Some guess → solutions !! s = Some solution →
  match_entry valid_guesses solutions (g * length solutions + s)
  = match_val (match_loop guess solution) ∧
  match_pattern valid_guesses solutions (g * length solutions + s)
  = string_of_list_ascii (match_string (match_loop guess solution)).
Proof.
  intros Hg Hs. apply lookup_lt_Some in Hs as Hs'.
  destruct (match_entry_row valid_guesses solutions g s Hs') as [-> ->].
  rewrite Hg, Hs. split; reflexivity.
Qed.

Lemma init_match_val_unfold (valid_guesses solutions : list string)
    (i j : nat) (tables : list Z * list string) :
  init_match_val valid_guesses solutions i tables j
  = (<[(i * length solutions + j)%nat :=
         (calc_match_val tables.2
            (default EmptyString (valid_guesses !! i))
            (default EmptyString (solutions !! j))).1]> tables.1,
     (calc_match_val tables.2
        (default EmptyString (valid_guesses !! i))
        (default EmptyString (solutions !! j))).2).
Proof. reflexivity. Qed.

Lemma init_match_val_strings (valid_guesses solutions : list string)
    (i j : nat) (tables : list Z * list string) :
  (j < length solutions)%nat →
  (init_match_val valid_guesses solutions i tables j).2
  = <[Z.to_nat (match_entry valid_guesses solutions
                            (i * length solutions + j)) :=
        match_pattern valid_guesses solutions (i * length solutions + j)]>
      tables.2.
Proof.
  intros Hj.
  destruct (match_entry_row valid_guesses solutions i j Hj) as [-> ->].
  rewrite init_match_val_unfold, calc_match_val_unfold.
  generalize (match_loop (default EmptyString (valid_guesses !! i))
                         (default EmptyString (solutions !! j))).
  intros st. reflexivity.
Qed.

(** What an entry of the table of strings is for the pair at [index]. *)
Lemma init_match_val_strings_keep (valid_guesses solutions : list string)
    (i j index : nat) (tables : list Z * list string) :
  (j < length solutions)%nat →
  length tables.2 = Z.to_nat NUM_MATCH_VALS →
  let tables' := init_match_val valid_guesses solutions i tables j in
  length tables'.2 = Z.to_nat NUM_MATCH_VALS ∧
  (tables.2 !! Z.to_nat (match_entry valid_guesses solutions index)
   = Some (match_pattern valid_guesses solutions index) ∨
   index = (i * length solutions + j)%nat →
   tables'.2 !! Z.to_nat (match_entry valid_guesses solutions index)
   = Some (match_pattern valid_guesses solutions index)).
Proof.
  intros Hj Hlen tables'. subst tables'.
  rewrite init_match_val_strings by done.
  split; [by rewrite length_insert|].
  set (index' := (i * length solutions + j)%nat).
  destruct (match_entry_pattern valid_guesses solutions index) as [Hr _].
  destruct (match_entry_pattern valid_guesses solutions index') as [Hr' _].
  intros Hcase.
  destruct (decide (match_entry valid_guesses solutions index
                    = match_entry valid_guesses solutions index'))
    as [Heq|Hne].
  - rewrite Heq, (match_pattern_of_entry _ _ _ _ Heq).
    apply list_lookup_insert_eq. rewrite Hlen. lia.
  - rewrite list_lookup_insert_ne by lia.
    destruct Hcase as [H | ->]; [done | by destruct Hne].
Qed.

Lemma init_row_strings (valid_guesses solutions : list string) (i : nat)
    (js : list nat) (tables : list Z * list string) (index : nat) :
  Forall (λ j, (j < length solutions)%nat) js →
  length tables.2 = Z.to_nat NUM_MATCH_VALS →
  let tables' := foldl (init_match_val valid_guesses solutions i) tables js in
  length tables'.2 = Z.to_nat NUM_MATCH_VALS ∧
  (tables.2 !! Z.to_nat (match_entry valid_guesses solutions index)
   = Some (match_pattern valid_guesses solutions index) ∨
   (∃ j, j ∈ js ∧ index = (i * length solutions + j)%nat) →
   tables'.2 !! Z.to_nat (match_entry valid_guesses solutions index)
   = Some (match_pattern valid_guesses solutions index)).
Proof.
  intros Hjs. revert tables.
  induction Hjs as [|j js Hj Hjs IH]; intros tables Hlen; cbn [foldl].
  - split; [done|]. intros [H|(j & Hin & _)]; [done|].
    by apply elem_of_nil in Hin.
  - destruct (init_match_val_strings_keep valid_guesses solutions i j index
                tables Hj Hlen) as [Hlen' Hkeep].
    destruct (IH _ Hlen') as [Hl Hentry]. split; [done|].
    intros Hcase. apply Hentry.
    destruct Hcase as [H|(j' & Hin & ->)].
    + left. apply Hkeep. by left.
    + apply elem_of_cons in Hin as [->|Hin].
      * left. apply Hkeep. by right.
      * right. by exists j'.
Qed.

Lemma init_match_vals_strings (valid_guesses solutions : list string)
    (is_ : list nat) (tables : list Z * list string) (index : nat) :
  length tables.2 = Z.to_nat NUM_MATCH_VALS →
  let tables' :=
    foldl (λ tables i,
             foldl (init_match_val valid_guesses solutions i) tables
                   (seq 0 (length solutions)))
          tables is_ in
  length tables'.2 = Z.to_nat NUM_MATCH_VALS ∧
  (tables.2 !! Z.to_nat (match_entry valid_guesses solutions index)
   = Some (match_pattern valid_guesses solutions index) ∨
   (∃ i j, i ∈ is_ ∧ (j < length solutions)%nat ∧
           index = (i * length solutions + j)%nat) →
   tables'.2 !! Z.to_nat (match_entry valid_guesses solutions index)
   = Some (match_pattern valid_guesses solutions index)).
Proof.
  revert tables.
  induction is_ as [|i is_ IH]; intros tables Hlen; cbn [foldl].
  - split; [done|]. intros [H|(i & j & Hin & _)]; [done|].
    by apply elem_of_nil in Hin.
  - destruct (init_row_strings valid_guesses solutions i
                (seq 0 (length solutions)) tables index) as [Hl Hrow];
      [|done|].
    { apply Forall_forall. intros j Hj. apply elem_of_seq in Hj. lia. }
    destruct (IH _ Hl) as [Hl' Hentry]. split; [done|].
    intros Hcase. apply Hentry.
    destruct Hcase as [H|(i' & j & Hin & Hj & ->)].
    + left. apply Hrow. by left.
    + apply elem_of_cons in Hin as [->|Hin].
      * left. apply Hrow. right. exists j. split; [|done].
        apply elem_of_seq. lia.
      * right. by exists i', j.
Qed.

(** X3: in a constructed solver the table of pattern strings holds, at
    the match value of every guess and solution, the pattern string that
    [calc_match_val] builds for the two words, although the pairs of
    words that share a value write the same entry one after the other;
    the string has five characters and reads back as the value. *)
Theorem match_strings_new_solver (valid_guesses solutions : list string)
    (sv : solver) (g s : nat) (guess solution : string) :
  new_solver valid_guesses solutions = inr sv →
  valid_guesses !! g = Some guess → solutions !! s = Some solution →
  let pattern := match_string (match_loop guess solution) in
  m_match_strings sv !! Z.to_nat (lookup_match sv g s)
  = Some (string_of_list_ascii pattern) ∧
  length pattern = NUM_WORD_LETTERS ∧
  Forall pattern_char pattern ∧
  pattern_value pattern = lookup_match sv g s.
Proof.
  intros Hnew Hg Hs.
  rewrite (lookup_match_new_solver _ _ _ _ _ _ _ Hnew Hg Hs).
  rewrite calc_match_val_val.
  destruct (match_loop_pattern guess solution) as (Hl & Hall & Hv & _).
  destruct (match_entry_at valid_guesses solutions g s guess solution Hg Hs)
    as [He Hp].
  revert Hl Hall Hv He Hp.
  generalize (match_loop guess solution).
  intros st Hl Hall Hv He Hp pattern. subst pattern.
  split_and!; [|done|done|done].
  rewrite <- He, <- Hp. clear dependent st.
  unfold new_solver in Hnew.
  destruct (check_guesses_solutions valid_guesses solutions); [done|].
  apply (inj inr) in Hnew. subst sv.
  apply lookup_lt_Some in Hg as Hg'. apply lookup_lt_Some in Hs as Hs'.
  apply (init_match_vals_strings valid_guesses solutions
           (seq 0 (length valid_guesses))
           (replicate (length valid_guesses * length solutions) 0,
            replicate (Z.to_nat NUM_MATCH_VALS) EmptyString)
           (g * length solutions + s)%nat).
  { apply length_replicate. }
  right. exists g, s. split_and!; [|done|done]. apply elem_of_seq. lia.
Qed.

Lemma match_strings_new_solver_witness :
  m_match_strings batch_solver !! Z.to_nat (lookup_match batch_solver 0 1)
  = Some (string_of_list_ascii (match_string (match_loop "batch" "catch"))).
Proof.
  exact (proj1 (match_strings_new_solver batch_words batch_words batch_solver
                  0 1 "batch" "catch" eq_refl eq_refl eq_refl)).
Defined.

(** ** The partition of the feasible solutions by match value *)

Lemma concat_alter_snoc {A} (buckets : list (list A)) (m : nat) (x : A) :
  (m < length buckets)%nat →
  concat (alter (λ bucket, bucket ++ [x]) m buckets) ≡ₚ concat buckets ++ [x].
Proof.
  revert m. induction buckets as [|b buckets IH]; intros m Hm;
    cbn [length] in Hm; [lia|].
  destruct m as [|m]; cbn [alter list_alter concat].
  - rewrite <- !app_assoc. f_equiv. apply Permutation_app_comm.
  - rewrite IH by lia. by rewrite app_assoc.
Qed.

(** The buckets for a solver whose match values are all below 243. *)
Lemma get_solutions_by_match_spec (sv : solver) (g : nat) (F : list nat) :
  (∀ g s, 0 ≤ lookup_match sv g s < NUM_MATCH_VALS) →
  let buckets := get_solutions_by_match sv g F in
  length buckets = Z.to_nat NUM_MATCH_VALS ∧
  (∀ m, (m < Z.to_nat NUM_MATCH_VALS)%nat →
        buckets !! m
        = Some (filter (λ s, Z.to_nat (lookup_match sv g s) = m) F)) ∧
  concat buckets ≡ₚ F.
Proof.
  intros Hrange buckets. subst buckets.
  unfold get_solutions_by_match.
  induction F as [|s F IH] using rev_ind.
  - cbn [foldl]. split_and!.
    + apply length_replicate.
    + intros m Hm. by rewrite lookup_replicate_2.
    + induction (Z.to_nat NUM_MATCH_VALS) as [|n IHn]; [done|].
      cbn [replicate concat]. done.
  - destruct IH as (Hlen & Hbuckets & Hperm).
    rewrite foldl_snoc.
    set (buckets := foldl _ _ F) in *.
    pose proof (Hrange g s) as Hs.
    split_and!.
    + by rewrite length_alter.
    + intros m Hm. rewrite filter_app, filter_cons, filter_nil.
      case_decide as Heq.
      * rewrite Heq, list_lookup_alter_eq. rewrite (Hbuckets m Hm). done.
      * rewrite list_lookup_alter_ne by done.
        rewrite (Hbuckets m Hm), app_nil_r. done.
    + rewrite concat_alter_snoc by (rewrite Hlen; lia). by rewrite Hperm.
Qed.

(** X4: for a constructed solver, [get_solutions_by_match] returns 243
    buckets; the bucket of a match value holds the feasible solutions
    with that match against the guess, in the order they have in the
    feasible set; and the buckets together hold every feasible solution
    once. *)
Theorem get_solutions_by_match_partition
    (valid_guesses solutions : list string) (sv : solver) (g : nat)
    (F : list nat) :
  new_solver valid_guesses solutions = inr sv →
  let buckets := get_solutions_by_match sv g F in
  length buckets = Z.to_nat NUM_MATCH_VALS ∧
  (∀ m, (m < Z.to_nat NUM_MATCH_VALS)%nat →
        buckets !! m
        = Some (filter (λ s, Z.to_nat (lookup_match sv g s) = m) F)) ∧
  concat buckets ≡ₚ F.
Proof.
  intros Hnew.
  apply new_solver_inr in Hnew as (_ & _ & _ & _ & _ & Hrange).
  by apply get_solutions_by_match_spec.
Qed.

Lemma get_solutions_by_match_partition_witness :
  concat (get_solutions_by_match batch_solver 0 [0; 1; 2; 3]%nat)
  ≡ₚ [0; 1; 2; 3]%nat.
Proof.
  exact (proj2 (proj2 (get_solutions_by_match_partition batch_words
                         batch_words batch_solver 0 [0; 1; 2; 3]%nat
                         eq_refl))).
Defined.

(** ** When the ranker returns early *)

Lemma size_list_to_set_le (l : list Z) :
  (size (list_to_set l : gset Z) ≤ length l)%nat.
Proof.
  induction l as [|x l IH]; cbn [list_to_set length].
  - by rewrite size_empty.
  - rewrite size_union_alt, size_singleton.
    assert (size (list_to_set l ∖ {[x]} : gset Z)
            ≤ size (list_to_set l : gset Z))%nat
      by (apply subseteq_size; set_solver).
    lia.
Qed.

Lemma NoDup_size_list_to_set (l : list Z) :
  size (list_to_set l : gset Z) = length l → NoDup l.
Proof.
  induction l as [|x l IH]; cbn [list_to_set length]; [constructor|].
  intros Hsz. pose proof (size_list_to_set_le l) as Hle.
  destruct (decide (x ∈ l)) as [Hin|Hnin].
  - replace ({[x]} ∪ list_to_set l : gset Z) with (list_to_set l : gset Z)
      in Hsz by set_solver.
    lia.
  - rewrite size_union, size_singleton in Hsz by set_solver.
    constructor; [done|]. apply IH. lia.
Qed.

Lemma Qdiv_lt_1 (n d : Z) :
  0 < d → (inject_Z n / inject_Z d < 1)%Q ↔ n < d.
Proof.
  intros Hd. destruct d as [|p|p]; try lia.
  unfold Qlt, Qdiv, Qmult, Qinv, inject_Z. cbn. lia.
Qed.

Lemma avg_numbers (sv : solver) (F : list nat) (g : nat) :
  (∀ g s, 0 ≤ lookup_match sv g s < NUM_MATCH_VALS) →
  F ≠ [] → Z.of_nat (length F) ≤ INT_MAX →
  avg_solutions_per_unique_match sv F g
  = (inject_Z (Z.of_nat (length F) - delta_spec sv g F)
     / inject_Z (U_spec sv g F))%Q.
Proof.
  intros Hrange Hne Hsize.
  destruct (tally_matches_spec sv g F Hrange) as (_ & Hseen & Hcount).
  assert (0 < Z.of_nat (length F)) by (destruct F; [done | simpl; lia]).
  unfold avg_solutions_per_unique_match, delta_spec. rewrite Hcount.
  assert (Hag : 0 ≤ ALL_GREENS_MATCH < NUM_MATCH_VALS) by (by vm_compute).
  destruct (Hseen ALL_GREENS_MATCH Hag) as [Hseen1 Hseen2].
  change (NUM_MATCH_VALS - 1) with ALL_GREENS_MATCH.
  destruct (decide (ALL_GREENS_MATCH ∈ match_set sv g F)) as [Hin|Hin].
  - rewrite (Hseen2 Hin).
    rewrite to_size_t_small, to_int_small by lia. done.
  - destruct (default false _); [by destruct Hin; apply Hseen1|].
    rewrite to_int_small, Z.sub_0_r by lia. done.
Qed.

(** X5: for a constructed solver and a non-empty feasible set, the
    average of a guess is below 1, so that the ranker returns that guess
    at once, exactly when the feasible solutions all have different
    matches against the guess and one of them matches it with all
    greens. *)
Theorem avg_below_1_iff (valid_guesses solutions : list string)
    (sv : solver) (F : list nat) (g : nat) :
  new_solver valid_guesses solutions = inr sv →
  F ≠ [] → Z.of_nat (length F) ≤ INT_MAX →
  (avg_solutions_per_unique_match sv F g < 1)%Q ↔
  NoDup (lookup_match sv g <$> F) ∧
  ∃ s, s ∈ F ∧ lookup_match sv g s = ALL_GREENS_MATCH.
Proof.
  intros Hnew Hne Hsize.
  apply new_solver_inr in Hnew as (_ & _ & _ & _ & _ & Hrange).
  rewrite (avg_numbers sv F g Hrange Hne Hsize).
  assert (Hpos : 0 < U_spec sv g F).
  { unfold U_spec, match_set. destruct F as [|s F]; [done|].
    cbn [fmap list_fmap list_to_set].
    rewrite size_union_alt, size_singleton. lia. }
  rewrite (Qdiv_lt_1 _ _ Hpos).
  pose proof (size_list_to_set_le (lookup_match sv g <$> F)) as Hle.
  rewrite length_fmap in Hle.
  assert (Hdup : NoDup (lookup_match sv g <$> F) ↔
                 U_spec sv g F = Z.of_nat (length F)).
  { unfold U_spec, match_set. split.
    - intros Hnd. rewrite size_list_to_set by done.
      by rewrite length_fmap.
    - intros Hsz. apply NoDup_size_list_to_set.
      rewrite length_fmap. lia. }
  assert (Hdelta : (∃ s, s ∈ F ∧ lookup_match sv g s = ALL_GREENS_MATCH) ↔
                   delta_spec sv g F = 1).
  { unfold delta_spec, match_set.
    change (NUM_MATCH_VALS - 1) with ALL_GREENS_MATCH.
    case_decide as Hin; rewrite elem_of_list_to_set, list_elem_of_fmap in Hin.
    - split; [done|]. intros _. destruct Hin as (s & Heq & Hs). by exists s.
    - split; [|done]. intros (s & Hs & Heq). destruct Hin. by exists s. }
  rewrite Hdup, Hdelta.
  assert (delta_spec sv g F = 0 ∨ delta_spec sv g F = 1)
    by (unfold delta_spec; case_decide; lia).
  unfold U_spec, match_set in *. lia.
Qed.

Lemma avg_below_1_iff_witness :
  (avg_solutions_per_unique_match batch_solver [0; 1]%nat 0 < 1)%Q ↔
  NoDup (lookup_match batch_solver 0 <$> [0; 1]%nat) ∧
  ∃ s, s ∈ [0; 1]%nat ∧ lookup_match batch_solver 0 s = ALL_GREENS_MATCH.
Proof.
  apply (avg_below_1_iff batch_words batch_words);
    [reflexivity | discriminate | unfold INT_MAX; simpl; lia].
Defined.

(** ** The memoisation map *)

Lemma select_inv (m_memo m_memo' : memo_t) (F : list nat) (depth : Z)
    (subtrees : list node) (n : node) :
  select m_memo F depth subtrees = Some (n, m_memo') →
  n ∈ subtrees ∧ m_memo' = set_memo m_memo F n.
Proof.
  unfold select.
  destruct (swap_nodes _ 0 subtrees !! 0%nat) as [first|] eqn:Hfirst;
    cbn [mbind option_bind]; [|done].
  intros [= <- <-]. split; [|done].
  apply list_elem_of_lookup_2 in Hfirst. revert Hfirst.
  unfold swap_nodes. generalize (best_index depth subtrees) as i. intros i.
  destruct (subtrees !! i) as [a|] eqn:Ha; [|done].
  destruct subtrees as [|b rest]; [done|].
  change ((b :: rest) !! 0%nat) with (Some b).
  intros Hin. apply list_elem_of_lookup_1 in Hin as [k Hk].
  apply list_lookup_insert_Some in Hk as [(_ & <- & _)|[_ Hk]];
    [set_solver|].
  apply list_lookup_insert_Some in Hk as [(_ & <- & _)|[_ Hk]];
    by eapply list_elem_of_lookup_2.
Qed.

Section Grows.

Variable sv : solver.
Variable solve_rec : memo_t → list nat → Z → option (node * memo_t).
Hypothesis solve_rec_grows : rec_grows solve_rec.

Lemma traverse_match_grows (m_memo m_memo' : memo_t)
    (subtree subtree' : node) (g : nat) (depth : Z) (avail : list nat)
    (continue : bool) :
  traverse_match sv solve_rec m_memo subtree g depth avail
  = Some (subtree', m_memo', continue) →
  dom m_memo ⊆ dom m_memo'.
Proof.
  unfold traverse_match. destruct avail as [|s [|s' rest]].
  - by intros [= _ <- _].
  - by intros [= _ <- _].
  - destruct (solve_rec m_memo (s :: s' :: rest) (depth + 1))
      as [[child memo1]|] eqn:Hrec; cbn [mbind option_bind]; [|done].
    destruct (solve_rec_grows _ _ _ _ _ Hrec) as [_ Hdom].
    destruct subtree. by intros [= _ <- _].
Qed.

Lemma traverse_match_loop_grows (buckets : list (list nat))
    (matches : list nat) (m_memo m_memo' : memo_t)
    (subtree subtree' : node) (g : nat) (depth : Z) :
  traverse_match_loop sv solve_rec buckets m_memo subtree g depth matches
  = Some (subtree', m_memo') →
  dom m_memo ⊆ dom m_memo'.
Proof.
  revert m_memo subtree.
  induction matches as [|m rest IH]; intros m_memo subtree;
    cbn [traverse_match_loop].
  - by intros [= _ <-].
  - destruct (traverse_match sv solve_rec m_memo subtree g depth
                (default [] (buckets !! m)))
      as [[[subtree1 memo1] continue]|] eqn:Hstep;
      cbn [mbind option_bind]; [|done].
    apply traverse_match_grows in Hstep.
    destruct continue.
    + intros Hloop. apply IH in Hloop. set_solver.
    + by intros [= _ <-].
Qed.

Lemma explore_grows (best_guesses : list (Q * nat))
    (m_memo m_memo' : memo_t) (F : list nat) (depth : Z)
    (subtrees : list node) :
  explore sv solve_rec m_memo F depth best_guesses
  = Some (subtrees, m_memo') →
  dom m_memo ⊆ dom m_memo'.
Proof.
  revert m_memo m_memo' subtrees.
  induction best_guesses as [|[avg g] rest IH];
    intros m_memo m_memo' subtrees; cbn [explore].
  - by intros [= _ <-].
  - destruct (traverse_matches sv solve_rec m_memo
                (Node g 0 0 0 false [] []) g F depth)
      as [[subtree memo1]|] eqn:Htrav; cbn [mbind option_bind]; [|done].
    apply traverse_match_loop_grows in Htrav.
    destruct (explore sv solve_rec memo1 F depth rest)
      as [[subtrees' memo2]|] eqn:Hrest; cbn [mbind option_bind]; [|done].
    apply IH in Hrest. intros [= _ <-]. set_solver.
Qed.

Lemma solve_body_grows
    (partial_sort : nat → list (Q * nat) → list (Q * nat)) :
  rec_grows (solve_body partial_sort sv solve_rec).
Proof.
  intros m_memo F depth n m_memo'. unfold solve_body.
  assert (Hexplore :
    (explore sv solve_rec m_memo F depth
       (get_best_unique_match_guesses partial_sort sv F)
     ≫= λ '(subtrees, m_memo0), select m_memo0 F depth subtrees)
    = Some (n, m_memo') →
    lookup_memo m_memo' F = Some n ∧ dom m_memo ⊆ dom m_memo').
  { destruct (explore _ _ _ _ _ _) as [[subtrees memo1]|] eqn:Hexp;
      cbn [mbind option_bind]; [|done].
    apply explore_grows in Hexp. intros Hsel.
    apply select_inv in Hsel as [_ ->]. unfold lookup_memo, set_memo.
    split; [apply lookup_insert_eq|]. rewrite dom_insert. set_solver. }
  destruct (lookup_memo m_memo F) as [cached|] eqn:Hlook; [|done].
  destruct (within_depth depth cached); [|done].
  by intros [= <- <-].
Qed.

End Grows.

Lemma solve_indexes_grows
    (partial_sort : nat → list (Q * nat) → list (Q * nat)) (sv : solver)
    (fuel : nat) :
  rec_grows (solve_indexes partial_sort sv fuel).
Proof.
  induction fuel as [|fuel IH]; cbn [solve_indexes].
  - intros m_memo F depth n m_memo' H. discriminate H.
  - by apply solve_body_grows.
Qed.



(** ** The counters of the tree *)

Lemma sum_with_app {A} (f : A → Z) (l k : list A) :
  sum_with f (l ++ k) = sum_with f l + sum_with f k.
Proof.
  unfold sum_with. induction l as [|x l IH]; cbn [app foldr]; lia.
Qed.

Lemma sum_list_with_ext_in {A} (f g : A → nat) (l : list A) :
  (∀ x, x ∈ l → f x = g x) → sum_list_with f l = sum_list_with g l.
Proof.
  induction l as [|x l IH]; intros H; cbn [sum_list_with]; [done|].
  rewrite (H x), IH; [done| |]; set_solver.
Qed.

(** The sizes of the buckets add up to the size of their concatenation. *)
Lemma bucket_sum (buckets : list (list nat)) :
  sum_list_with (λ m, length (default [] (buckets !! m)))
                (seq 0 (length buckets))
  = length (concat buckets).
Proof.
  induction buckets as [|b buckets IH] using rev_ind; [done|].
  rewrite length_app. cbn [length]. rewrite Nat.add_1_r, seq_S.
  rewrite sum_list_with_app, concat_app, length_app. cbn [Nat.add].
  cbn [sum_list_with concat]. rewrite list_lookup_middle by done.
  rewrite app_nil_r. cbn [default]. rewrite <- IH.
  rewrite Nat.add_0_r. f_equal.
  apply sum_list_with_ext_in. intros m Hm. apply elem_of_seq in Hm.
  by rewrite lookup_app_l by lia.
Qed.

Lemma tallied_new (g : nat) : tallied (Node g 0 0 0 false [] []).
Proof. by constructor. Qed.

Section Sound.

Variable sv : solver.
Hypothesis match_range : ∀ g s, 0 ≤ lookup_match sv g s < NUM_MATCH_VALS.
Variable solve_rec : memo_t → list nat → Z → option (node * memo_t).
Hypothesis solve_rec_sound : rec_sound solve_rec.

Lemma mark_solved_sound (subtree : node) (g s : nat) :
  tallied subtree →
  (is_leaf subtree = true → lookup_match sv g s ≠ ALL_GREENS_MATCH) →
  tallied (mark_solved sv subtree g s) ∧
  solved_count (mark_solved sv subtree g s) = solved_count subtree + 1 ∧
  (is_leaf (mark_solved sv subtree g s) = true →
   is_leaf subtree = true ∨ lookup_match sv g s = ALL_GREENS_MATCH).
Proof.
  intros Ht Hleaf. inversion Ht as [n Hch Hs Hd Hn]. subst n.
  unfold mark_solved. destruct subtree as [gi td sc md lf ch lv].
  cbn [is_leaf solved_count total_depth children leaves] in *.
  destruct (lookup_match sv g s =? ALL_GREENS_MATCH) eqn:E.
  - apply Z.eqb_eq in E. destruct lf; [by destruct Hleaf|].
    cbn [is_leaf solved_count]. split_and!; [|done|by right].
    constructor; cbn [is_leaf solved_count total_depth children leaves];
      [done|..]; cbn [Z.b2z] in *; lia.
  - cbn [is_leaf solved_count]. split_and!; [|done|by left].
    constructor; cbn [is_leaf solved_count total_depth children leaves];
      [done|..]; rewrite length_app; cbn [length]; lia.
Qed.

Lemma traverse_match_sound (m_memo m_memo' : memo_t)
    (subtree subtree' : node) (g : nat) (depth : Z) (avail : list nat)
    (continue : bool) (m : nat) :
  memo_sound m_memo → tallied subtree →
  (∀ s, s ∈ avail → Z.to_nat (lookup_match sv g s) = m) →
  (is_leaf subtree = true → m ≠ Z.to_nat ALL_GREENS_MATCH) →
  traverse_match sv solve_rec m_memo subtree g depth avail
  = Some (subtree', m_memo', continue) →
  tallied subtree' ∧ memo_sound m_memo' ∧
  solved_count subtree ≤ solved_count subtree'
                       ≤ solved_count subtree + Z.of_nat (length avail) ∧
  (avail ≠ [] → solved_count subtree + 1 ≤ solved_count subtree') ∧
  (continue = false → solved_count subtree + 1 ≤ solved_count subtree') ∧
  (is_leaf subtree' = true →
   is_leaf subtree = true ∨ m = Z.to_nat ALL_GREENS_MATCH).
Proof.
  intros Hmemo Ht Hm Hleaf. unfold traverse_match.
  destruct avail as [|s [|s' rest]].
  - intros [= <- <- <-]. cbn [length]. split_and!; try done; [lia|by left].
  - intros [= <- <- <-].
    destruct (mark_solved_sound subtree g s Ht) as (Ht' & Hs' & Hl').
    { intros Hl Hag. apply (Hleaf Hl). rewrite <- Hag. symmetry. apply Hm.
      set_solver. }
    cbn [length]. split_and!; [done | done | lia | lia | lia | done |].
    intros Hl. destruct (Hl' Hl) as [|Hag]; [by left|right].
    rewrite <- Hag. symmetry. apply Hm. set_solver.
  - destruct (solve_rec m_memo (s :: s' :: rest) (depth + 1))
      as [[child memo1]|] eqn:Hrec; cbn [mbind option_bind]; [|done].
    destruct (solve_rec_sound _ _ _ _ _ Hmemo Hrec)
      as [(Hct & Hcs & Hcpos) Hmemo1].
    specialize (Hcpos ltac:(done)).
    inversion Ht as [n Hch Hs Hd Hn]. subst n.
    destruct subtree as [gi td sc md lf ch lv].
    cbn [is_leaf solved_count total_depth children leaves] in *.
    intros [= <- <- <-].
    cbn [is_leaf solved_count total_depth children leaves].
    split_and!; [|done|lia|lia|lia|lia|by left].
    constructor; cbn [is_leaf solved_count total_depth children leaves].
    + apply Forall_app. split; [done|]. by apply Forall_singleton.
    + rewrite sum_with_app. unfold sum_with at 2. cbn [foldr]. lia.
    + rewrite sum_with_app. unfold sum_with at 2. cbn [foldr]. lia.
Qed.

Lemma traverse_match_loop_sound (buckets : list (list nat)) (g : nat)
    (depth : Z) (matches : list nat) (m_memo m_memo' : memo_t)
    (subtree subtree' : node) :
  NoDup matches → memo_sound m_memo → tallied subtree →
  (∀ m s, s ∈ default [] (buckets !! m) →
          Z.to_nat (lookup_match sv g s) = m) →
  (is_leaf subtree = true → Z.to_nat ALL_GREENS_MATCH ∉ matches) →
  traverse_match_loop sv solve_rec buckets m_memo subtree g depth matches
  = Some (subtree', m_memo') →
  tallied subtree' ∧ memo_sound m_memo' ∧
  solved_count subtree
  ≤ solved_count subtree'
  ≤ solved_count subtree
    + Z.of_nat (sum_list_with
                  (λ m, length (default [] (buckets !! m))) matches) ∧
  ((∃ m, m ∈ matches ∧ default [] (buckets !! m) ≠ []) →
   solved_count subtree + 1 ≤ solved_count subtree').
Proof.
  intros Hnd. revert m_memo subtree.
  induction Hnd as [|m rest Hnotin Hnd IH];
    intros m_memo subtree Hmemo Ht Hbuckets Hleaf;
    cbn [traverse_match_loop sum_list_with].
  - intros [= <- <-]. split_and!; [done | done | lia | lia |].
    intros (m & Hin & _). by apply elem_of_nil in Hin.
  - destruct (traverse_match sv solve_rec m_memo subtree g depth
                (default [] (buckets !! m)))
      as [[[subtree1 memo1] continue]|] eqn:Hstep;
      cbn [mbind option_bind]; [|done].
    destruct (traverse_match_sound _ _ _ _ _ _ _ _ m Hmemo Ht
                (Hbuckets m) ltac:(set_solver) Hstep)
      as (Ht1 & Hmemo1 & Hs1 & Hne1 & Hstop1 & Hl1).
    destruct continue.
    + intros Hloop.
      destruct (IH memo1 subtree1 Hmemo1 Ht1 Hbuckets) as
        (Ht' & Hmemo' & Hs' & Hpos'); [|done|].
      { intros Hl. destruct (Hl1 Hl) as [Hl0| <-]; [|done].
        specialize (Hleaf Hl0). set_solver. }
      split_and!; [done | done | lia | lia |].
      intros (m' & Hin & Hne). apply elem_of_cons in Hin as [->|Hin].
      * specialize (Hne1 Hne). lia.
      * assert (solved_count subtree1 + 1 ≤ solved_count subtree')
          by (apply Hpos'; by exists m').
        lia.
    + intros [= <- <-]. specialize (Hstop1 eq_refl).
      split_and!; [done | done | lia | lia | lia].
Qed.

Lemma traverse_matches_sound (m_memo m_memo' : memo_t) (g : nat)
    (F : list nat) (depth : Z) (subtree' : node) :
  memo_sound m_memo →
  traverse_matches sv solve_rec m_memo (Node g 0 0 0 false [] []) g F depth
  = Some (subtree', m_memo') →
  node_sound F subtree' ∧ memo_sound m_memo'.
Proof.
  intros Hmemo Htrav. unfold traverse_matches in Htrav.
  destruct (get_solutions_by_match_spec sv g F match_range)
    as (Hlen & Hbuckets & Hperm).
  set (buckets := get_solutions_by_match sv g F) in *.
  apply traverse_match_loop_sound in Htrav
    as (Ht & Hmemo' & Hs & Hpos); [|apply NoDup_seq|done|apply tallied_new| |done].
  - cbn [solved_count] in Hs, Hpos.
    rewrite <- Hlen, bucket_sum, Hperm in Hs.
    split; [|done]. split_and!; [done | lia | lia |].
    intros Hne. destruct F as [|s F]; [done|].
    assert (Hm : (Z.to_nat (lookup_match sv g s)
                  < Z.to_nat NUM_MATCH_VALS)%nat)
      by (pose proof (match_range g s); lia).
    assert (1 ≤ solved_count subtree'); [|lia].
    apply Hpos. exists (Z.to_nat (lookup_match sv g s)). split.
    + apply elem_of_seq. lia.
    + rewrite (Hbuckets _ Hm). cbn [default].
      rewrite filter_cons. by case_decide.
  - intros m s Hin.
    destruct (decide (m < Z.to_nat NUM_MATCH_VALS)%nat) as [Hm|Hm].
    + rewrite (Hbuckets m Hm) in Hin. cbn [default] in Hin.
      by apply list_elem_of_filter in Hin as [Hin _].
    + rewrite lookup_ge_None_2 in Hin by lia. by apply elem_of_nil in Hin.
Qed.

Lemma explore_sound (best_guesses : list (Q * nat))
    (m_memo m_memo' : memo_t) (F : list nat) (depth : Z)
    (subtrees : list node) :
  memo_sound m_memo →
  explore sv solve_rec m_memo F depth best_guesses
  = Some (subtrees, m_memo') →
  Forall (node_sound F) subtrees ∧ memo_sound m_memo'.
Proof.
  revert m_memo m_memo' subtrees.
  induction best_guesses as [|[avg g] rest IH];
    intros m_memo m_memo' subtrees Hmemo; cbn [explore].
  - intros [= <- <-]. done.
  - destruct (traverse_matches sv solve_rec m_memo
                (Node g 0 0 0 false [] []) g F depth)
      as [[subtree memo1]|] eqn:Htrav; cbn [mbind option_bind]; [|done].
    apply traverse_matches_sound in Htrav as [Hsub Hmemo1]; [|done].
    destruct (explore sv solve_rec memo1 F depth rest)
      as [[subtrees' memo2]|] eqn:Hrest; cbn [mbind option_bind]; [|done].
    destruct (IH _ _ _ Hmemo1 Hrest) as [Hall Hmemo2].
    intros [= <- <-]. split; [by constructor | done].
Qed.

Lemma solve_body_sound
    (partial_sort : nat → list (Q * nat) → list (Q * nat)) :
  rec_sound (solve_body partial_sort sv solve_rec).
Proof.
  intros m_memo F depth n m_memo' Hmemo. unfold solve_body.
  assert (Hexplore :
    (explore sv solve_rec m_memo F depth
       (get_best_unique_match_guesses partial_sort sv F)
     ≫= λ '(subtrees, m_memo0), select m_memo0 F depth subtrees)
    = Some (n, m_memo') → node_sound F n ∧ memo_sound m_memo').
  { destruct (explore _ _ _ _ _ _) as [[subtrees memo1]|] eqn:Hexp;
      cbn [mbind option_bind]; [|done].
    destruct (explore_sound _ _ _ _ _ _ Hmemo Hexp) as [Hall Hmemo1].
    intros Hsel. apply select_inv in Hsel as [Hin ->].
    rewrite Forall_forall in Hall.
    split; [by apply Hall|]. apply map_Forall_insert_2; [|done].
    by apply Hall. }
  destruct (lookup_memo m_memo F) as [cached|] eqn:Hlook; [|done].
  destruct (within_depth depth cached); [|done].
  intros [= <- <-]. split; [|done]. by apply (Hmemo F).
Qed.

End Sound.

Lemma solve_indexes_sound
    (partial_sort : nat → list (Q * nat) → list (Q * nat)) (sv : solver)
    (fuel : nat) :
  (∀ g s, 0 ≤ lookup_match sv g s < NUM_MATCH_VALS) →
  rec_sound (solve_indexes partial_sort sv fuel).
Proof.
  intros Hrange. induction fuel as [|fuel IH]; cbn [solve_indexes].
  - intros m_memo F depth n m_memo' _ H. discriminate H.
  - by apply solve_body_sound.
Qed.

(** In a call for a feasible set that is not empty, every candidate
    explored has solved a solution. *)
Lemma explore_solved_positive
    (partial_sort : nat → list (Q * nat) → list (Q * nat)) (sv : solver)
    (fuel : nat) (m_memo m_memo' : memo_t) (F : list nat) (depth : Z)
    (best_guesses : list (Q * nat)) (subtrees : list node) :
  (∀ g s, 0 ≤ lookup_match sv g s < NUM_MATCH_VALS) →
  memo_sound m_memo → F ≠ [] →
  explore sv (solve_indexes partial_sort sv fuel) m_memo F depth
          best_guesses
  = Some (subtrees, m_memo') →
  Forall (λ n, 1 ≤ solved_count n) subtrees.
Proof.
  intros Hrange Hmemo HF Hexp.
  destruct (explore_sound sv Hrange _
              (solve_indexes_sound partial_sort sv fuel Hrange)
              _ _ _ _ _ _ Hmemo Hexp) as [Hall _].
  eapply Forall_impl; [exact Hall|].
  intros n (_ & _ & Hpos). by apply Hpos.
Qed.

Lemma solve_root_sound
    (partial_sort : nat → list (Q * nat) → list (Q * nat))
    (valid_guesses solutions : list string) (sv : solver) (fuel : nat)
    (prune_limit : Z) (root : node) :
  new_solver valid_guesses solutions = inr sv →
  (solve partial_sort sv fuel prune_limit).2 = Some root →
  node_sound (seq 0 (length solutions)) root.
Proof.
  intros Hnew. unfold solve. cbn [snd].
  apply new_solver_inr in Hnew as (_ & HS & _ & _ & _ & Hrange).
  change (m_num_solutions (set_prune_limit sv prune_limit))
    with (m_num_solutions sv). rewrite HS.
  destruct (solve_indexes _ _ _ _ _ _) as [[n m_memo]|] eqn:H; [|done].
  intros [= <-].
  by destruct (solve_indexes_sound partial_sort
                 (set_prune_limit sv prune_limit) fuel Hrange
                 _ _ _ _ _ (map_Forall_empty _) H).
Qed.

(** X7: in the tree that [solve] returns for a constructed solver, the
    counters of every node are those of its shape: [solved_count] is 1
    for the node as a leaf, plus the number of its leaves, plus the
    [solved_count] of its children; [total_depth] is 1 for the node as a
    leaf, plus 2 for each of its leaves, plus, for each child, its
    [total_depth] and its [solved_count]. *)
Theorem solve_tree_tallied
    (partial_sort : nat → list (Q * nat) → list (Q * nat))
    (valid_guesses solutions : list string) (sv : solver) (fuel : nat)
    (prune_limit : Z) (root : node) :
  new_solver valid_guesses solutions = inr sv →
  (solve partial_sort sv fuel prune_limit).2 = Some root →
  tallied root.
Proof.
  intros Hnew Hroot.
  by destruct (solve_root_sound _ _ _ _ _ _ _ Hnew Hroot) as (Ht & _).
Qed.

Lemma solve_tree_tallied_witness :
  ∃ root,
    (solve Libstdcxx.partial_sort batch_solver 4 8).2 = Some root ∧
    tallied root.
Proof.
  destruct (solve Libstdcxx.partial_sort batch_solver 4 8).2
    as [root|] eqn:Hroot.
  - exists root. split; [reflexivity|].
    exact (solve_tree_tallied Libstdcxx.partial_sort batch_words batch_words
             batch_solver 4 8 root eq_refl Hroot).
  - exfalso. vm_compute in Hroot. discriminate Hroot.
Defined.

Lemma Qdiv_ge_1 (n d : Z) :
  0 < d → d ≤ n → (1 <= inject_Z n / inject_Z d)%Q.
Proof.
  intros Hd Hn. destruct d as [|p|p]; try lia.
  unfold Qle, Qdiv, Qmult, Qinv, inject_Z. cbn. lia.
Qed.

(** X8: the root that [solve] returns for a constructed solver counts at
    least one solution and at most as many as the solver has, its
    [total_depth] is at least its [solved_count], and so its average
    number of guesses is at least 1. *)
Theorem solve_root_counts
    (partial_sort : nat → list (Q * nat) → list (Q * nat))
    (valid_guesses solutions : list string) (sv : solver) (fuel : nat)
    (prune_limit : Z) (root : node) :
  new_solver valid_guesses solutions = inr sv →
  (solve partial_sort sv fuel prune_limit).2 = Some root →
  1 ≤ solved_count root ≤ Z.of_nat (length solutions) ∧
  solved_count root ≤ total_depth root ∧
  (1 <= average_num_guesses root)%Q.
Proof.
  intros Hnew Hroot.
  destruct (solve_root_sound _ _ _ _ _ _ _ Hnew Hroot) as (_ & Hs & Hpos).
  destruct (solve_ok _ _ _ _ _ Hroot) as ((_ & Htd) & _).
  apply new_solver_inr in Hnew as (_ & _ & _ & Hsols & _ & _).
  rewrite length_seq in Hs.
  assert (1 ≤ solved_count root).
  { apply Hpos. destruct solutions; [done|]. done. }
  split_and!; [lia | lia | lia |].
  unfold average_num_guesses.
  destruct (solved_count root =? 0) eqn:E; [apply Z.eqb_eq in E; lia|].
  apply Qdiv_ge_1; lia.
Qed.

Lemma solve_root_counts_witness :
  ∃ root,
    (solve Libstdcxx.partial_sort batch_solver 4 8).2 = Some root ∧
    1 ≤ solved_count root ≤ 4.
Proof.
  destruct (solve Libstdcxx.partial_sort batch_solver 4 8).2
    as [root|] eqn:Hroot.
  - exists root. split; [reflexivity|].
    exact (proj1 (solve_root_counts Libstdcxx.partial_sort batch_words
                    batch_words batch_solver 4 8 root eq_refl Hroot)).
  - exfalso. vm_compute in Hroot. discriminate Hroot.
Defined.

(** X9: down to depth 4 the bound of six guesses prunes nothing: every
    candidate that [solve] explores at a depth of at most 4 passes the
    filter [within_depth], because no node has a [min_depth] above 2. *)
Theorem explore_within_depth
    (partial_sort : nat → list (Q * nat) → list (Q * nat)) (sv : solver)
    (fuel : nat) (m_memo m_memo' : memo_t) (F : list nat) (depth : Z)
    (best_guesses : list (Q * nat)) (subtrees : list node) :
  memo_ok m_memo → depth ≤ 4 →
  explore sv (solve_indexes partial_sort sv fuel) m_memo F depth best_guesses
  = Some (subtrees, m_memo') →
  Forall (λ n, within_depth depth n = true) subtrees.
Proof.
  intros Hmemo Hdepth Hexp.
  destruct (explore_ok sv _ (solve_indexes_ok partial_sort sv fuel)
              _ _ _ _ _ _ Hmemo Hexp) as [Hall _].
  eapply Forall_impl; [exact Hall|].
  intros n (_ & Hmin & _). unfold within_depth.
  apply bool_decide_eq_true. unfold NUM_ALLOWED_GUESSES. lia.
Qed.

Lemma explore_within_depth_witness :
  memo_ok ∅ ∧ Forall (λ n, within_depth 0 n = true) batch_explored.1.
Proof.
  split; [apply map_Forall_empty|].
  refine (explore_within_depth Libstdcxx.partial_sort batch_search 3 ∅
            batch_explored.2 [0; 1; 2; 3]%nat 0
            (get_best_unique_match_guesses Libstdcxx.partial_sort
               batch_search [0; 1; 2; 3]%nat)
            batch_explored.1 _ _ _).
  - apply map_Forall_empty.
  - lia.
  - vm_compute. reflexivity.
Defined.

(** ** The prune limit *)

(** X10: for a solver with at least one guess, and no more than an [int]
    holds, [solve] sets the prune limit to [min(prune_limit, G - 1)] when
    [prune_limit] is not negative and to [G - 1] when it is negative
    (the conversion to [size_t] makes it large); in both cases the limit
    lies between 0 and [G - 1]. *)
Theorem set_prune_limit_clamps (sv : solver) (prune_limit : Z) :
  (1 ≤ m_num_valid_guesses sv)%nat →
  Z.of_nat (m_num_valid_guesses sv) ≤ INT_MAX →
  - INT_MAX - 1 ≤ prune_limit ≤ INT_MAX →
  let G := Z.of_nat (m_num_valid_guesses sv) in
  let limit := m_prune_limit (set_prune_limit sv prune_limit) in
  0 ≤ limit ≤ G - 1 ∧
  (0 ≤ prune_limit → limit = Z.min prune_limit (G - 1)) ∧
  (prune_limit < 0 → limit = G - 1).
Proof.
  intros HG Hmax Hk G limit. subst limit G.
  unfold set_prune_limit, INT_MAX in *. cbn [m_prune_limit].
  rewrite (to_size_t_small (Z.of_nat (m_num_valid_guesses sv) - 1))
    by (unfold INT_MAX; lia).
  destruct (decide (0 ≤ prune_limit)) as [Hpos|Hneg].
  - rewrite to_size_t_small, to_int_small by (unfold INT_MAX; lia).
    split_and!; lia.
  - assert (Hwrap : to_size_t prune_limit = prune_limit + 2 ^ 64).
    { unfold to_size_t.
      rewrite <- (Z.mod_add prune_limit 1 (2 ^ 64)) by lia.
      apply Z.mod_small. lia. }
    rewrite Hwrap, Z.min_r, to_int_small by (unfold INT_MAX; lia).
    split_and!; lia.
Qed.

Lemma set_prune_limit_clamps_witness :
  m_prune_limit (set_prune_limit batch_solver (-1)) = 3.
Proof.
  refine (proj2 (proj2 (set_prune_limit_clamps batch_solver (-1) _ _ _)) _).
  - vm_compute. lia.
  - unfold INT_MAX. vm_compute. discriminate.
  - unfold INT_MAX. lia.
  - lia.
Defined.

(** ** Combining the word lists *)

(** The state of the loop of [combine_lines] after the strings of
    [source]. *)
Lemma combine_lines_loop (destination source : list string) :
  let acc := foldl combine_line (destination, list_to_set destination)
                   source in
  acc.2 = list_to_set acc.1 ∧
  ∃ added,
    acc.1 = destination ++ added ∧
    NoDup added ∧
    added `sublist_of` source ∧
    (∀ x, x ∈ added ↔ x ∈ source ∧ x ∉ destination).
Proof.
  induction source as [|str source IH] using rev_ind.
  - cbn [foldl fst snd]. split; [done|]. exists []. rewrite app_nil_r.
    split_and!; [done | constructor | done |]. set_solver.
  - destruct IH as (Hset & added & Hacc & Hnd & Hsub & Hin).
    rewrite foldl_snoc.
    set (acc := foldl combine_line (destination, list_to_set destination)
                      source) in *.
    unfold combine_line. destruct (decide (str ∈ acc.2)) as [Hstr|Hstr].
    + split; [done|]. exists added. split_and!; [done | done | |].
      * by apply sublist_inserts_r.
      * rewrite Hset, elem_of_list_to_set, Hacc in Hstr.
        intros x. rewrite Hin. set_solver.
    + cbn [fst snd]. split.
      * rewrite list_to_set_app_L, Hset. set_solver.
      * rewrite Hset, elem_of_list_to_set, Hacc in Hstr.
        exists (added ++ [str]). split_and!.
        -- by rewrite Hacc, app_assoc.
        -- apply NoDup_app. split_and!; [done | | apply NoDup_singleton].
           intros x Hx. set_solver.
        -- by apply sublist_app.
        -- intros x. rewrite !elem_of_app, Hin. set_solver.
Qed.

Lemma elem_of_combine_lines (destination source : list string) (x : string) :
  x ∈ combine_lines destination source ↔ x ∈ destination ∨ x ∈ source.
Proof.
  destruct (combine_lines_loop destination source)
    as (_ & added & Hacc & _ & _ & Hin).
  fold (combine_lines destination source) in Hacc.
  rewrite Hacc, elem_of_app, Hin.
  destruct (decide (x ∈ destination)); set_solver.
Qed.

Lemma first_occurrence_exists (l : list string) (x : string) :
  x ∈ l → ∃ i, first_occurrence l x i.
Proof.
  induction l as [|y l IH]; [by intros ?%elem_of_nil|].
  intros Hin. destruct (decide (y = x)) as [->|Hne].
  - exists 0%nat. split; [done|]. intros k Hk. lia.
  - apply elem_of_cons in Hin as [->|Hin]; [done|].
    destruct (IH Hin) as (i & Hi & Hfirst). exists (S i). split; [done|].
    intros [|k] Hk; cbn [lookup list_lookup].
    + by intros [= ->].
    + apply Hfirst. lia.
Qed.

Lemma first_occurrence_app (l : list string) (x str : string) (i : nat) :
  first_occurrence l x i → first_occurrence (l ++ [str]) x i.
Proof.
  intros [Hi Hfirst]. apply lookup_lt_Some in Hi as Hlt. split.
  - by rewrite lookup_app_l.
  - intros k Hk. rewrite lookup_app_l by lia. by apply Hfirst.
Qed.

Lemma first_occurrence_snoc (l : list string) (str : string) :
  str ∉ l → first_occurrence (l ++ [str]) str (length l).
Proof.
  intros Hnot. split.
  - by rewrite lookup_app_r, Nat.sub_diag by lia.
  - intros k Hk. rewrite lookup_app_l by lia. intros Hl.
    apply Hnot. by eapply list_elem_of_lookup_2.
Qed.

(** The strings that the loop of [combine_lines] appends stand in the
    order of their first occurrences in [source]. *)
Lemma combine_lines_loop_order (destination source added : list string) :
  (foldl combine_line (destination, list_to_set destination) source).1
  = destination ++ added →
  ∀ i j x y,
    (i < j)%nat → added !! i = Some x → added !! j = Some y →
    ∃ i' j', (i' < j')%nat ∧
             first_occurrence source x i' ∧ first_occurrence source y j'.
Proof.
  revert added. induction source as [|str source IH] using rev_ind;
    intros added' Hacc'.
  - cbn [foldl fst] in Hacc'.
    rewrite <- (app_nil_r destination) in Hacc' at 1.
    apply (inj (app destination)) in Hacc'. subst added'.
    intros i j x y _ Hi. by rewrite lookup_nil in Hi.
  - destruct (combine_lines_loop destination source)
      as (Hset & added & Hacc & Hnd & Hsub & Hin).
    rewrite foldl_snoc in Hacc'.
    set (acc := foldl combine_line (destination, list_to_set destination)
                      source) in *.
    unfold combine_line in Hacc'.
    destruct (decide (str ∈ acc.2)) as [Hstr|Hstr].
    + rewrite Hacc in Hacc'. apply (inj (app destination)) in Hacc'.
      subst added'. intros i j x y Hij Hi Hj.
      destruct (IH added Hacc i j x y Hij Hi Hj) as (i' & j' & Hlt & Hx & Hy).
      exists i', j'. split_and!; [done | |]; by apply first_occurrence_app.
    + cbn [fst] in Hacc'. rewrite Hacc, <- app_assoc in Hacc'.
      apply (inj (app destination)) in Hacc'. subst added'.
      rewrite Hset, elem_of_list_to_set, Hacc in Hstr.
      assert (str ∉ source) as Hnew.
      { intros Hs. apply Hstr. apply elem_of_app.
        destruct (decide (str ∈ destination)); [by left|].
        right. by apply Hin. }
      intros i j x y Hij Hi Hj.
      apply lookup_lt_Some in Hj as Hjlt.
      rewrite length_app in Hjlt. cbn [length] in Hjlt.
      destruct (decide (j < length added)%nat) as [Hjin|Hjout].
      * rewrite lookup_app_l in Hi, Hj by lia.
        destruct (IH added Hacc i j x y Hij Hi Hj)
          as (i' & j' & Hlt & Hx & Hy).
        exists i', j'. split_and!; [done | |]; by apply first_occurrence_app.
      * assert (j = length added) as -> by lia.
        rewrite lookup_app_l in Hi by lia.
        rewrite lookup_app_r, Nat.sub_diag in Hj by lia.
        injection Hj as <-.
        assert (x ∈ source) as Hxs.
        { apply (Hin x). by eapply list_elem_of_lookup_2. }
        destruct (first_occurrence_exists source x Hxs) as (i' & Hx).
        exists i', (length source). split_and!.
        -- destruct Hx as [Hx _]. by apply lookup_lt_Some in Hx.
        -- by apply first_occurrence_app.
        -- by apply first_occurrence_snoc.
Qed.

(** X11: [combine_lines] leaves the strings of [destination] in place and
    appends to them, each once and in the order of their first
    occurrences in [source], the strings of [source] that [destination]
    does not hold: of two strings appended, the one appended first has
    its first occurrence in [source] before that of the other.  When
    [destination] holds them all it is left unchanged. *)
Theorem combine_lines_appends (destination source : list string) :
  (∃ added,
     combine_lines destination source = destination ++ added ∧
     NoDup added ∧
     added `sublist_of` source ∧
     (∀ x, x ∈ added ↔ x ∈ source ∧ x ∉ destination) ∧
     (∀ i j x y,
        (i < j)%nat → added !! i = Some x → added !! j = Some y →
        ∃ i' j', (i' < j')%nat ∧
                 first_occurrence source x i' ∧
                 first_occurrence source y j')) ∧
  (∀ x, x ∈ combine_lines destination source ↔
        x ∈ destination ∨ x ∈ source) ∧
  ((∀ x, x ∈ source → x ∈ destination) →
   combine_lines destination source = destination).
Proof.
  destruct (combine_lines_loop destination source)
    as (_ & added & Hacc & Hnd & Hsub & Hin).
  pose proof (combine_lines_loop_order destination source added Hacc)
    as Horder.
  fold (combine_lines destination source) in Hacc.
  split_and!.
  - by exists added.
  - intros x. apply elem_of_combine_lines.
  - intros Hall. rewrite Hacc.
    destruct added as [|x added]; [by rewrite app_nil_r|].
    assert (x ∈ source ∧ x ∉ destination) as [Hx Hnx]
      by (apply Hin; set_solver).
    destruct Hnx. by apply Hall.
Qed.

(** X12: with the guesses that [main] passes, the valid guesses combined
    with the solutions, the constructor returns a solver exactly when
    there is a solution and every guess and solution has five
    characters: no solution can then be missing among the guesses. *)
Theorem new_solver_combined (valid_guesses solutions : list string) :
  (∃ sv, new_solver (combine_lines valid_guesses solutions) solutions
         = inr sv) ↔
  solutions ≠ [] ∧
  Forall (λ w, String.length w = NUM_WORD_LETTERS) valid_guesses ∧
  Forall (λ w, String.length w = NUM_WORD_LETTERS) solutions.
Proof.
  pose proof (elem_of_combine_lines valid_guesses solutions) as Hin.
  set (combined := combine_lines valid_guesses solutions) in *.
  assert (Hnone : check_guesses_solutions combined solutions = None ↔
                  solutions ≠ [] ∧
                  Forall (λ w, String.length w = NUM_WORD_LETTERS)
                         valid_guesses ∧
                  Forall (λ w, String.length w = NUM_WORD_LETTERS)
                         solutions).
  { rewrite check_guesses_solutions_None, !Forall_forall. split.
    - intros (_ & Hs & Hsl & Hgl). split_and!; [done | |].
      + intros w Hw. apply Hgl, Hin. by left.
      + intros w Hw. by apply Hsl.
    - intros (Hs & Hgl & Hsl). split_and!; [|done| |].
      + destruct solutions as [|s rest]; [done|].
        intros Hnil. assert (s ∈ combined) as Hs' by (apply Hin; set_solver).
        rewrite Hnil in Hs'. by apply elem_of_nil in Hs'.
      + intros w Hw. split; [by apply Hsl|]. apply Hin. by right.
      + intros w Hw. apply Hin in Hw as [Hw|Hw]; [by apply Hgl|by apply Hsl]. }
  unfold new_solver.
  destruct (check_guesses_solutions combined solutions) as [e|].
  - split; [intros [sv H]; discriminate H|].
    intros H. apply Hnone in H. discriminate H.
  - split; [intros _; by apply Hnone | intros _; eauto].
Qed.

(** ** Reading a word list *)

Lemma getline_chars_line (count : nat) (line rest : list ascii) :
  (length line ≤ count)%nat → Forall (λ c, c ≠ newline) line →
  (rest = [] ∨ ∃ rest', rest = newline :: rest') →
  getline_chars count (line ++ rest) = (line, rest).
Proof.
  revert count. induction line as [|c line IH]; intros count Hlen Hnl Hrest.
  - cbn [app]. destruct Hrest as [-> | [rest' ->]].
    + by destruct count.
    + destruct count; [done|]. cbn [getline_chars].
      by rewrite bool_decide_eq_true_2.
  - apply Forall_cons in Hnl as [Hc Hnl]. cbn [length] in Hlen.
    destruct count as [|count]; [lia|].
    cbn [app getline_chars]. rewrite bool_decide_eq_false_2 by done.
    rewrite IH by (done || lia). done.
Qed.

Lemma getline_chars_long (pre rest : list ascii) :
  length pre = S NUM_WORD_LETTERS → Forall (λ c, c ≠ newline) pre →
  ∃ stored c left,
    getline_chars NUM_WORD_LETTERS (pre ++ rest) = (stored, c :: left) ∧
    c ≠ newline.
Proof.
  intros Hlen Hnl.
  do 6 (destruct pre as [|? pre]; [done|]). destruct pre; [|done].
  repeat (apply Forall_cons in Hnl as [? Hnl]).
  cbn [app getline_chars NUM_WORD_LETTERS].
  rewrite !bool_decide_eq_false_2 by done. cbn [fst snd]. eauto.
Qed.

Lemma c_string_line (line : string) :
  Forall (λ c, c ≠ newline ∧ c ≠ "000"%char) (list_ascii_of_string line) →
  c_string (list_ascii_of_string line) = line.
Proof.
  induction line as [|c line IH]; cbn [list_ascii_of_string c_string];
    [done|].
  intros [[_ Hc] Hall]%Forall_cons.
  rewrite bool_decide_eq_false_2 by done. by rewrite IH.
Qed.

Lemma length_list_ascii_of_string (line : string) :
  length (list_ascii_of_string line) = String.length line.
Proof.
  induction line as [|c line IH]; cbn [list_ascii_of_string length];
    [done|].
  cbn [String.length]. by rewrite IH.
Qed.

(** One turn of the loop of [read_lines] on a short line that a newline
    ends. *)
Lemma getline_short_line (line : string) (rest : list ascii) :
  short_line line →
  getline (NUM_WORD_LETTERS + 1)
          (IStream (list_ascii_of_string line ++ newline :: rest)
                   false false)
  = (list_ascii_of_string line, IStream rest false false).
Proof.
  intros [Hlen Hall]. unfold getline. cbn [eofbit failbit unread orb].
  rewrite getline_chars_line.
  - cbn [fst snd]. by rewrite bool_decide_eq_true_2.
  - rewrite length_list_ascii_of_string. unfold NUM_WORD_LETTERS in *. lia.
  - eapply Forall_impl; [exact Hall|]. by intros c [Hc _].
  - right. by exists rest.
Qed.

Lemma read_lines_loop_lines (lines : list string) (fuel : nat)
    (tail : list ascii) (ret : list string) :
  Forall short_line lines →
  read_lines_loop (length lines + fuel)
                  (IStream (file_of_lines lines ++ tail) false false) ret
  = read_lines_loop fuel (IStream tail false false) (ret ++ lines).
Proof.
  intros Hall. revert ret.
  induction Hall as [|line lines Hline Hall IH]; intros ret.
  - by rewrite app_nil_r.
  - unfold file_of_lines. rewrite fmap_cons. cbn [concat length Nat.add].
    rewrite <- !app_assoc. cbn [app].
    cbn [read_lines_loop]. rewrite getline_short_line by done.
    cbn [fst snd failbit].
    rewrite c_string_line by apply Hline.
    fold (file_of_lines lines). rewrite IH.
    by rewrite <- app_assoc.
Qed.

Lemma length_file_of_lines (lines : list string) :
  (length lines ≤ length (file_of_lines lines))%nat.
Proof.
  unfold file_of_lines.
  induction lines as [|line lines IH]; [done|].
  rewrite fmap_cons. cbn [concat length].
  rewrite !length_app. cbn [length]. lia.
Qed.

(** X13: [read_lines] throws when the file cannot be opened.  From a
    file of lines of at most five characters, each ended by a newline,
    it returns the lines; it also returns a last line that no newline
    ends; and it stops, without an error, in front of the first line of
    more than five characters: that line and all the lines after it are
    left out. *)
Theorem read_lines_short_lines (lines : list string) :
  Forall short_line lines →
  read_lines None = inl Unable_to_open ∧
  read_lines (Some (file_of_lines lines)) = inr lines ∧
  (∀ last, short_line last → last ≠ EmptyString →
           read_lines (Some (file_of_lines lines
                             ++ list_ascii_of_string last))
           = inr (lines ++ [last])) ∧
  (∀ tail, long_start tail →
           read_lines (Some (file_of_lines lines ++ tail)) = inr lines).
Proof.
  intros Hall. pose proof (length_file_of_lines lines) as Hlen.
  assert (Hfuel : ∀ tail,
            (length (file_of_lines lines ++ tail) + 2
             = length lines
               + (length (file_of_lines lines ++ tail) - length lines + 2))%nat).
  { intros tail. rewrite length_app. lia. }
  split_and!.
  - done.
  - replace (file_of_lines lines) with (file_of_lines lines ++ [])
      by apply app_nil_r.
    unfold read_lines. f_equal.
    rewrite (Hfuel []), read_lines_loop_lines by done.
    rewrite Nat.add_comm. cbn [Nat.add read_lines_loop app].
    by cbn.
  - intros last Hlast Hne. unfold read_lines. f_equal.
    rewrite Hfuel, read_lines_loop_lines by done.
    rewrite Nat.add_comm. cbn [Nat.add read_lines_loop app].
    destruct Hlast as [Hl Hchars].
    assert (Hget : getline (NUM_WORD_LETTERS + 1)
                     (IStream (list_ascii_of_string last) false false)
                   = (list_ascii_of_string last, IStream [] true false)).
    { assert (Hchars' : getline_chars NUM_WORD_LETTERS
                          (list_ascii_of_string last)
                        = (list_ascii_of_string last, [])).
      { rewrite <- (app_nil_r (list_ascii_of_string last)) at 1.
        apply getline_chars_line.
        - by rewrite length_list_ascii_of_string.
        - eapply Forall_impl; [exact Hchars|]. by intros c [Hc _].
        - by left. }
      unfold getline. cbn [eofbit failbit unread orb].
      change (NUM_WORD_LETTERS + 1 - 1)%nat with NUM_WORD_LETTERS.
      rewrite !Hchars'. cbn [fst snd].
      rewrite bool_decide_eq_false_2; [done|].
      destruct last; [done|]. by cbn [list_ascii_of_string]. }
    rewrite !Hget. cbn [fst snd].
    rewrite c_string_line by done.
    unfold getline. by cbn.
  - intros tail (pre & rest & -> & Hpre & Hnl). unfold read_lines. f_equal.
    rewrite Hfuel, read_lines_loop_lines by done.
    rewrite Nat.add_comm. cbn [Nat.add read_lines_loop app].
    unfold getline. cbn [eofbit failbit unread orb].
    destruct (getline_chars_long pre rest Hpre Hnl)
      as (stored & c & left & Hget & Hc).
    change (NUM_WORD_LETTERS + 1 - 1)%nat with NUM_WORD_LETTERS.
    rewrite Hget. cbn [fst snd].
    rewrite bool_decide_eq_false_2 by done. by cbn [snd failbit].
Qed.

Lemma read_lines_short_lines_witness :
  read_lines (Some (file_of_lines ["batch"; "catch"]%string))
  = inr ["batch"; "catch"]%string.
Proof.
  refine (proj1 (proj2 (read_lines_short_lines ["batch"; "catch"]%string _))).
  repeat constructor; by vm_compute.
Defined.
(** ** Statistics of a tree *)

Lemma node_children_ind (P : node → Prop) :
  (∀ n, Forall P (children n) → P n) → ∀ n, P n.
Proof.
  intros step. fix IH 1. intros [g t s m l cs lv]. apply step.
  cbn [children]. induction cs as [|c cs IHcs]; constructor.
  - apply IH.
  - exact IHcs.
Qed.

Lemma get_stats_unfold (tree : node) (stats : list Z) (depth : Z) :
  get_stats tree stats depth
  = if bool_decide (depth > NUM_ALLOWED_GUESSES - 1) then stats
    else
      let stats1 :=
        if is_leaf tree then alter (λ c, c + 1) (Z.to_nat depth) stats
        else stats in
      let stats2 :=
        foldl (λ stats child, get_stats child stats (depth + 1)) stats1
              (children tree) in
      if bool_decide (depth < NUM_ALLOWED_GUESSES - 1)
      then alter (λ c, to_int (to_size_t c
                               + Z.of_nat (length (leaves tree))))
                 (Z.to_nat (depth + 1)) stats2
      else stats2.
Proof. by destruct tree. Qed.

Lemma num_held_unfold (tree : node) :
  num_held tree
  = Z.b2z (is_leaf tree) + Z.of_nat (length (leaves tree))
    + sum_with num_held (children tree).
Proof. by destruct tree. Qed.

Lemma sum_with_nonneg {A} (f : A → Z) (l : list A) :
  Forall (λ x, 0 ≤ f x) l → 0 ≤ sum_with f l.
Proof.
  induction 1 as [|x l Hx Hl IH]; cbn [sum_with foldr]; [done|].
  fold (sum_with f l). lia.
Qed.

Lemma num_held_nonneg (tree : node) : 0 ≤ num_held tree.
Proof.
  induction tree as [tree IH] using node_children_ind.
  rewrite num_held_unfold. apply sum_with_nonneg in IH.
  destruct (is_leaf tree); cbn [Z.b2z]; lia.
Qed.

Lemma sum_with_ext {A} (f g : A → Z) (l : list A) :
  (∀ x, x ∈ l → f x = g x) → sum_with f l = sum_with g l.
Proof.
  unfold sum_with. induction l as [|x l IH]; intros H; cbn [foldr]; [done|].
  rewrite (H x), IH; [done| |]; set_solver.
Qed.

Lemma sum_with_zero {A} (l : list A) : sum_with (λ _, 0) l = 0.
Proof. unfold sum_with. induction l as [|x l IH]; cbn [foldr]; lia. Qed.

Lemma sum_with_plus {A} (f g : A → Z) (l : list A) :
  sum_with (λ x, f x + g x) l = sum_with f l + sum_with g l.
Proof. unfold sum_with. induction l as [|x l IH]; cbn [foldr]; lia. Qed.

Lemma sum_with_cons {A} (f : A → Z) (x : A) (l : list A) :
  sum_with f (x :: l) = f x + sum_with f l.
Proof. done. Qed.

Lemma counted_at_unfold (depth : Z) (tree : node) (i : nat) :
  0 ≤ depth →
  counted_at depth tree i
  = (if bool_decide (Z.to_nat depth = i) then Z.b2z (is_leaf tree) else 0)
    + sum_with (λ child, counted_at (depth + 1) child i) (children tree)
    + (if bool_decide (Z.to_nat (depth + 1) = i)
       then Z.of_nat (length (leaves tree)) else 0).
Proof.
  intros Hd. unfold counted_at.
  destruct (decide (depth ≤ Z.of_nat i)) as [Hle|Hgt].
  - rewrite (bool_decide_eq_true_2 (depth ≤ Z.of_nat i)) by done.
    destruct (decide (Z.to_nat depth = i)) as [Heq|Hne].
    + rewrite (bool_decide_eq_true_2 _ Heq).
      rewrite (bool_decide_eq_false_2 (Z.to_nat (depth + 1) = i)) by lia.
      rewrite (bool_decide_eq_false_2 (depth + 1 ≤ Z.of_nat i)) by lia.
      rewrite sum_with_zero.
      replace (i - Z.to_nat depth)%nat with 0%nat by lia.
      cbn [solved_at]. lia.
    + rewrite (bool_decide_eq_false_2 _ Hne).
      rewrite (bool_decide_eq_true_2 (depth + 1 ≤ Z.of_nat i)) by lia.
      replace (i - Z.to_nat depth)%nat
        with (S (i - Z.to_nat (depth + 1)))%nat by lia.
      cbn [solved_at].
      destruct (decide (Z.to_nat (depth + 1) = i)) as [Heq1|Hne1].
      * rewrite (bool_decide_eq_true_2 _ Heq1).
        replace (i - Z.to_nat (depth + 1))%nat with 0%nat by lia. lia.
      * rewrite (bool_decide_eq_false_2 _ Hne1).
        destruct (i - Z.to_nat (depth + 1))%nat eqn:E; [lia|]. lia.
  - rewrite (bool_decide_eq_false_2 (depth ≤ Z.of_nat i)) by done.
    rewrite (bool_decide_eq_false_2 (Z.to_nat depth = i)) by lia.
    rewrite (bool_decide_eq_false_2 (Z.to_nat (depth + 1) = i)) by lia.
    rewrite (bool_decide_eq_false_2 (depth + 1 ≤ Z.of_nat i)) by lia.
    rewrite sum_with_zero. lia.
Qed.

Lemma counts_within_weaken (bound bound' : Z) (stats : list Z) :
  counts_within bound stats → bound ≤ bound' → counts_within bound' stats.
Proof.
  intros [Hl Hall] Hle. split; [done|].
  eapply Forall_impl; [exact Hall|]. intros c Hc. cbn beta in *. lia.
Qed.

Lemma counts_within_alter (bound k : Z) (stats : list Z) (i : nat)
    (f : Z → Z) :
  counts_within bound stats → 0 ≤ k →
  (∀ c, 0 ≤ c ≤ bound → f c = c + k) →
  counts_within (bound + k) (alter f i stats) ∧
  ∀ j c, stats !! j = Some c →
         alter f i stats !! j
         = Some (c + if bool_decide (i = j) then k else 0).
Proof.
  intros [Hl Hall] Hk Hf. rewrite Forall_lookup in Hall.
  assert (Hlook : ∀ j c, stats !! j = Some c →
            alter f i stats !! j
            = Some (c + if bool_decide (i = j) then k else 0)).
  { intros j c Hj. case_bool_decide as Hij.
    - subst j. rewrite list_lookup_alter_eq, Hj.
      cbn [fmap option_fmap option_map].
      f_equal. apply Hf. by eapply Hall.
    - rewrite list_lookup_alter_ne, Hj by done. f_equal. lia. }
  split; [|done]. split; [by rewrite length_alter|].
  apply Forall_lookup. intros j c' Hj.
  destruct (stats !! j) as [c|] eqn:E.
  - rewrite (Hlook _ _ E) in Hj. inversion Hj; subst c'.
    specialize (Hall _ _ E). cbn beta in Hall.
    case_bool_decide; lia.
  - apply lookup_lt_Some in Hj. rewrite length_alter in Hj.
    apply lookup_ge_None in E. lia.
Qed.

Lemma get_stats_children (cs : list node) :
  Forall get_stats_spec cs →
  ∀ (stats : list Z) (depth bound : Z),
    0 ≤ depth → counts_within bound stats →
    bound + sum_with num_held cs ≤ INT_MAX →
    let stats' :=
      foldl (λ stats child, get_stats child stats depth) stats cs in
    counts_within (bound + sum_with num_held cs) stats' ∧
    ∀ i c, stats !! i = Some c →
           stats' !! i
           = Some (c + sum_with (λ child, counted_at depth child i) cs).
Proof.
  induction 1 as [|child cs Hchild Hcs IH];
    intros stats depth bound Hd Hst Hb; cbn [foldl].
  - cbn [sum_with foldr]. rewrite Z.add_0_r. split; [done|].
    intros i c Hi. by rewrite Z.add_0_r.
  - rewrite !sum_with_cons in *.
    pose proof (num_held_nonneg child) as Hn.
    assert (0 ≤ sum_with num_held cs) as Hns.
    { apply sum_with_nonneg, Forall_forall. intros c _.
      apply num_held_nonneg. }
    destruct (Hchild stats depth bound Hd Hst) as [Hst1 Hl1]; [lia|].
    destruct (IH _ depth _ Hd Hst1) as [Hst2 Hl2]; [lia|].
    rewrite Z.add_assoc. split; [done|].
    intros i c Hi. rewrite (Hl2 _ _ (Hl1 _ _ Hi)). f_equal.
    rewrite sum_with_cons. lia.
Qed.

Lemma get_stats_spec_all (tree : node) : get_stats_spec tree.
Proof.
  induction tree as [tree IH] using node_children_ind.
  intros stats depth bound Hd Hst Hb.
  rewrite num_held_unfold in *.
  assert (0 ≤ sum_with num_held (children tree)) as Hns.
  { apply sum_with_nonneg, Forall_forall. intros c _.
    apply num_held_nonneg. }
  assert (0 ≤ Z.b2z (is_leaf tree)) as Hleaf by (by destruct (is_leaf tree)).
  rewrite get_stats_unfold. case_bool_decide as Hdeep.
  - split; [eapply counts_within_weaken; [done|lia]|].
    intros i c Hi. rewrite Hi. f_equal. unfold counted_at.
    apply lookup_lt_Some in Hi. destruct Hst as [Hlen _].
    rewrite Hlen in Hi. unfold NUM_ALLOWED_GUESSES in *.
    rewrite bool_decide_eq_false_2 by lia. lia.
  - cbn zeta.
    set (stats1 := if is_leaf tree
                   then alter (λ c, c + 1) (Z.to_nat depth) stats
                   else stats).
    assert (counts_within (bound + Z.b2z (is_leaf tree)) stats1 ∧
            ∀ i c, stats !! i = Some c →
                   stats1 !! i
                   = Some (c + if bool_decide (Z.to_nat depth = i)
                               then Z.b2z (is_leaf tree) else 0))
      as [Hst1 Hl1].
    { subst stats1. destruct (is_leaf tree); cbn [Z.b2z].
      - by apply counts_within_alter.
      - rewrite Z.add_0_r. split; [done|]. intros i c Hi.
        rewrite Hi. f_equal. case_bool_decide; lia. }
    destruct (get_stats_children (children tree) IH stats1 (depth + 1)
                (bound + Z.b2z (is_leaf tree))) as [Hst2 Hl2];
      [lia | done | lia |].
    cbn zeta in Hst2, Hl2.
    set (stats2 := foldl (λ stats child, get_stats child stats (depth + 1))
                         stats1 (children tree)) in *.
    assert (∀ i c, stats !! i = Some c →
              c + counted_at depth tree i
              = c + (if bool_decide (Z.to_nat depth = i)
                     then Z.b2z (is_leaf tree) else 0)
                + sum_with (λ child, counted_at (depth + 1) child i)
                           (children tree)
                + (if bool_decide (Z.to_nat (depth + 1) = i)
                   then Z.of_nat (length (leaves tree)) else 0)) as Hsum.
    { intros i c _. rewrite counted_at_unfold by done. lia. }
    case_bool_decide as Hlast.
    + destruct (counts_within_alter
                  (bound + Z.b2z (is_leaf tree)
                   + sum_with num_held (children tree))
                  (Z.of_nat (length (leaves tree))) stats2
                  (Z.to_nat (depth + 1))
                  (λ c, to_int (to_size_t c
                                + Z.of_nat (length (leaves tree)))))
        as [Hst3 Hl3]; [done | lia | |].
      { intros c Hc. cbn beta.
        rewrite to_size_t_small, to_int_small by lia. done. }
      split.
      * eapply counts_within_weaken; [exact Hst3|lia].
      * intros i c Hi. rewrite (Hl3 _ _ (Hl2 _ _ (Hl1 _ _ Hi))).
        f_equal. rewrite (Hsum _ _ Hi). lia.
    + split.
      * eapply counts_within_weaken; [exact Hst2|lia].
      * intros i c Hi. rewrite (Hl2 _ _ (Hl1 _ _ Hi)).
        f_equal. rewrite (Hsum _ _ Hi).
        apply lookup_lt_Some in Hi. destruct Hst as [Hlen _].
        rewrite Hlen in Hi. unfold NUM_ALLOWED_GUESSES in *.
        rewrite (bool_decide_eq_false_2 (Z.to_nat (depth + 1) = i)) by lia.
        lia.
Qed.

(** The counts that [get_stats] leaves when it starts from zero. *)
Lemma get_stats_from_zero (tree : node) :
  num_held tree ≤ INT_MAX →
  get_stats tree (replicate (Z.to_nat NUM_ALLOWED_GUESSES) 0) 0
  = solved_at tree <$> seq 0 (Z.to_nat NUM_ALLOWED_GUESSES).
Proof.
  intros Hheld.
  destruct (get_stats_spec_all tree
              (replicate (Z.to_nat NUM_ALLOWED_GUESSES) 0) 0 0)
    as [[Hlen _] Hlook]; [done | | lia |].
  { split; [apply length_replicate|].
    apply Forall_forall. intros c Hc.
    apply elem_of_replicate in Hc as [-> _]. lia. }
  apply (list_eq_same_length _ _ (Z.to_nat NUM_ALLOWED_GUESSES));
    [by rewrite length_fmap, length_seq | done |].
  intros i x y Hi Hx Hy.
  rewrite (Hlook i 0) in Hx by (by apply lookup_replicate_2).
  rewrite list_lookup_fmap, lookup_seq_lt in Hy by done.
  cbn in Hy. unfold counted_at in Hx.
  rewrite bool_decide_eq_true_2, Nat.sub_0_r in Hx by lia.
  rewrite Z.add_0_l in Hx. congruence.
Qed.

(** X14: called as [print_stats] calls it, [get_stats] leaves in
    [counts[i]] the number of solutions that the tree holds at [i]
    guesses below its root, the solutions found with [i + 1] guesses;
    what the tree holds further down is not counted. *)
Theorem get_stats_counts (tree : node) :
  num_held tree ≤ INT_MAX →
  get_stats tree (replicate (Z.to_nat NUM_ALLOWED_GUESSES) 0) 0
  = solved_at tree <$> seq 0 (Z.to_nat NUM_ALLOWED_GUESSES).
Proof. apply get_stats_from_zero. Qed.

Lemma get_stats_counts_witness :
  get_stats (Node 3 0 0 0 true
               [Node 1 0 0 0 false [] [5; 6]%nat; Node 2 0 0 0 true [] []]
               [7%nat])
            (replicate (Z.to_nat NUM_ALLOWED_GUESSES) 0) 0
  = [1; 2; 2; 0; 0; 0].
Proof.
  refine (get_stats_counts _ _). by vm_compute.
Defined.

Lemma sum_upto_ext (n : nat) (f g : nat → Z) :
  (∀ k, f k = g k) → sum_upto n f = sum_upto n g.
Proof.
  revert f g. induction n as [|n IH]; intros f g H; cbn [sum_upto]; [done|].
  rewrite (H 0%nat). f_equal. apply IH. intros k. apply H.
Qed.

Lemma sum_upto_plus (n : nat) (f g : nat → Z) :
  sum_upto n (λ k, f k + g k) = sum_upto n f + sum_upto n g.
Proof.
  revert f g. induction n as [|n IH]; intros f g; cbn [sum_upto]; [done|].
  rewrite (IH (λ k, f (S k)) (λ k, g (S k))). lia.
Qed.

Lemma sum_upto_sum_with {A} (n : nat) (f : A → nat → Z) (l : list A) :
  sum_upto n (λ k, sum_with (λ x, f x k) l)
  = sum_with (λ x, sum_upto n (f x)) l.
Proof.
  induction l as [|x l IH].
  - cbn [sum_with foldr]. clear. induction n as [|n IH]; cbn [sum_upto]; lia.
  - rewrite sum_with_cons, <- IH, <- sum_upto_plus.
    apply sum_upto_ext. intros k. by rewrite sum_with_cons.
Qed.

Lemma sum_upto_first (n : nat) (a : Z) (w : nat → Z) :
  sum_upto n (λ k, w k * (if k is O then a else 0))
  = if n is O then 0 else w 0%nat * a.
Proof.
  destruct n as [|n]; cbn [sum_upto]; [done|].
  assert (∀ m (v : nat → Z), sum_upto m (λ k, v k * 0) = 0) as Hz.
  { clear. induction m as [|m IH]; intros v; cbn [sum_upto]; [done|].
    rewrite (IH (λ k, v (S k))). lia. }
  rewrite (Hz n (λ k, w (S k))). lia.
Qed.

Lemma guesses_needed_unfold (tree : node) :
  guesses_needed tree
  = Z.max (Z.b2z (is_leaf tree))
      (Z.max (if leaves tree is [] then 0 else 2)
         (foldr (λ child acc, Z.max (1 + guesses_needed child) acc) 0
                (children tree))).
Proof. by destruct tree. Qed.

Lemma guesses_needed_nonneg (tree : node) : 0 ≤ guesses_needed tree.
Proof.
  rewrite guesses_needed_unfold. destruct (is_leaf tree); cbn [Z.b2z]; lia.
Qed.

Lemma guesses_needed_child (tree child : node) :
  child ∈ children tree →
  1 + guesses_needed child ≤ guesses_needed tree.
Proof.
  intros Hin. rewrite (guesses_needed_unfold tree).
  assert (1 + guesses_needed child
          ≤ foldr (λ child acc, Z.max (1 + guesses_needed child) acc) 0
                  (children tree)); [|lia].
  induction (children tree) as [|c cs IH]; [by apply elem_of_nil in Hin|].
  cbn [foldr]. apply elem_of_cons in Hin as [->|Hin]; [lia|].
  specialize (IH Hin). lia.
Qed.

(** In a tallied tree the counters are the sums over the solutions the
    tree holds. *)
Lemma tallied_totals (tree : node) :
  tallied tree → ∀ n : nat,
  guesses_needed tree ≤ Z.of_nat n →
  sum_upto n (solved_at tree) = solved_count tree ∧
  sum_upto n (λ k, (Z.of_nat k + 1) * solved_at tree k) = total_depth tree.
Proof.
  induction tree as [tree IH] using node_children_ind.
  intros Htal n Hn. inversion Htal as [tree' Hcs Hsolved Htotal Heq].
  subst tree'. rewrite Hsolved, Htotal.
  rewrite Forall_forall in IH, Hcs.
  pose proof (guesses_needed_nonneg tree) as Hnn.
  destruct n as [|n].
  - rewrite guesses_needed_unfold in Hn. cbn [sum_upto].
    destruct (is_leaf tree); cbn [Z.b2z] in *; [lia|].
    destruct (leaves tree); [|lia].
    destruct (children tree) as [|c cs]; [done|].
    cbn [foldr] in Hn. pose proof (guesses_needed_nonneg c). lia.
  - assert (Hkids : ∀ c, c ∈ children tree →
              sum_upto n (solved_at c) = solved_count c ∧
              sum_upto n (λ k, (Z.of_nat k + 1) * solved_at c k)
              = total_depth c).
    { intros c Hc. apply IH; [done | by apply Hcs |].
      pose proof (guesses_needed_child tree c Hc). lia. }
    assert (Hleaves : n = 0%nat → length (leaves tree) = 0%nat).
    { intros ->. rewrite guesses_needed_unfold in Hn.
      destruct (leaves tree); [done|lia]. }
    cbn [sum_upto solved_at]. split.
    + rewrite sum_upto_plus, sum_upto_sum_with.
      rewrite (sum_upto_ext n _ (λ k, 1 * (if k is O
                                   then Z.of_nat (length (leaves tree))
                                   else 0)))
        by (intros k; lia).
      rewrite (sum_upto_first n _ (λ _, 1)).
      rewrite (sum_with_ext _ solved_count)
        by (intros c Hc; apply (Hkids c Hc)).
      destruct n; [specialize (Hleaves eq_refl)|]; lia.
    + rewrite (sum_upto_ext n _
                 (λ k, (Z.of_nat k + 2)
                       * (if k is O then Z.of_nat (length (leaves tree))
                          else 0)
                       + sum_with (λ c, (Z.of_nat k + 1) * solved_at c k
                                        + solved_at c k)
                                  (children tree))).
      2:{ intros k.
          rewrite (sum_with_ext
                     (λ c, (Z.of_nat k + 1) * solved_at c k + solved_at c k)
                     (λ c, (Z.of_nat k + 2) * solved_at c k))
            by (intros; lia).
          assert (∀ (w : Z) l, sum_with (λ c : node, w * solved_at c k) l
                               = w * sum_with (λ c, solved_at c k) l) as Hw.
          { intros w l. unfold sum_with.
            induction l as [|c l IHl]; cbn [foldr]; lia. }
          rewrite Hw. lia. }
      rewrite sum_upto_plus, sum_upto_sum_with.
      rewrite (sum_upto_first n _ (λ k, Z.of_nat k + 2)).
      rewrite (sum_with_ext _ (λ c, solved_count c + total_depth c)).
      2:{ intros c Hc. rewrite sum_upto_plus.
          destruct (Hkids c Hc) as [-> ->]. lia. }
      destruct n; [specialize (Hleaves eq_refl)|]; lia.
Qed.

Lemma tallied_num_held (tree : node) :
  tallied tree → num_held tree = solved_count tree.
Proof.
  induction tree as [tree IH] using node_children_ind.
  intros Htal. inversion Htal as [tree' Hcs Hsolved Htotal Heq].
  rewrite num_held_unfold, Hsolved. f_equal.
  apply sum_with_ext. intros c Hc.
  rewrite Forall_forall in IH, Hcs. by apply IH, Hcs.
Qed.

Lemma print_stats_totals (f : nat → Z) :
  foldl (print_stats_step (f <$> seq 0 (Z.to_nat NUM_ALLOWED_GUESSES)))
        (0, 0) (seq 0 (Z.to_nat NUM_ALLOWED_GUESSES))
  = (sum_upto (Z.to_nat NUM_ALLOWED_GUESSES)
              (λ k, (Z.of_nat k + 1) * f k),
     sum_upto (Z.to_nat NUM_ALLOWED_GUESSES) f).
Proof.
  change (Z.to_nat NUM_ALLOWED_GUESSES) with 6%nat.
  cbn [seq fmap list_fmap foldl sum_upto]. unfold print_stats_step.
  cbn [lookup list_lookup default fst snd Z.of_nat Pos.of_succ_nat
       Pos.succ]. unfold id. f_equal; lia.
Qed.

(** X15: for the root that [solve] returns for a constructed solver,
    when the tree holds no solution further down than six guesses,
    [print_stats] writes as count [i + 1] the number of solutions found
    with [i + 1] guesses, after [x] the number of solutions less the
    [solved_count] of the root, and after [av] the average number of
    guesses of the root, [total_depth / solved_count]. *)
Theorem print_stats_solved
    (partial_sort : nat → list (Q * nat) → list (Q * nat))
    (valid_guesses solutions : list string) (sv : solver) (fuel : nat)
    (prune_limit : Z) (root : node) :
  new_solver valid_guesses solutions = inr sv →
  (solve partial_sort sv fuel prune_limit).2 = Some root →
  Z.of_nat (length solutions) ≤ INT_MAX →
  guesses_needed root ≤ NUM_ALLOWED_GUESSES →
  let report :=
    print_stats (solve partial_sort sv fuel prune_limit).1 root in
  report_counts report
  = solved_at root <$> seq 0 (Z.to_nat NUM_ALLOWED_GUESSES) ∧
  report_x report = Z.of_nat (length solutions) - solved_count root ∧
  report_av report = Some (average_num_guesses root).
Proof.
  intros Hnew Hroot Hint Hdeep report.
  destruct (solve_root_sound _ _ _ _ _ _ _ Hnew Hroot)
    as (Htal & Hs & Hpos).
  apply new_solver_inr in Hnew as (_ & HS & _ & Hsols & _ & _).
  rewrite length_seq in Hs.
  assert (1 ≤ solved_count root) as Hone.
  { apply Hpos. by destruct solutions. }
  pose proof (tallied_num_held root Htal) as Hheld.
  destruct (tallied_totals root Htal (Z.to_nat NUM_ALLOWED_GUESSES))
    as [Hcount Hsum]; [done|].
  pose proof (get_stats_from_zero root) as Hget.
  rewrite Hheld in Hget. specialize (Hget ltac:(lia)).
  subst report. unfold print_stats, solve.
  cbn [fst report_counts report_x report_av].
  change (m_num_solutions (set_prune_limit sv prune_limit))
    with (m_num_solutions sv).
  rewrite Hget, print_stats_totals, Hcount, Hsum, HS. cbn [fst snd].
  split_and!; [done | |].
  - unfold to_size_t. apply Z.mod_small. unfold INT_MAX in Hint. lia.
  - unfold average_num_guesses.
    destruct (solved_count root =? 0) eqn:E; [|done].
    apply Z.eqb_eq in E. lia.
Qed.

Lemma print_stats_solved_witness :
  ∃ root,
    (solve Libstdcxx.partial_sort batch_solver 4 8).2 = Some root ∧
    report_av
      (print_stats (solve Libstdcxx.partial_sort batch_solver 4 8).1 root)
    = Some (average_num_guesses root).
Proof.
  assert (∃ root,
            (solve Libstdcxx.partial_sort batch_solver 4 8).2 = Some root ∧
            guesses_needed root ≤ NUM_ALLOWED_GUESSES)
    as (root & Hroot & Hdeep).
  { eexists. split; [vm_compute; reflexivity|]. by vm_compute. }
  exists root. split; [exact Hroot|].
  refine (proj2 (proj2 (print_stats_solved Libstdcxx.partial_sort
                          batch_words batch_words batch_solver 4 8 root
                          eq_refl Hroot _ Hdeep))).
  by vm_compute.
Defined.

(** ** The stacks of guesses of a tree *)

Lemma extract_tree_stacks_from_unfold (valid_guesses solutions : list string)
    (subtree : node) (stacks_by_solution : gmap nat (list nat))
    (guesses_so_far : list nat) :
  extract_tree_stacks_from valid_guesses solutions subtree
                           stacks_by_solution guesses_so_far
  = let stacks1 :=
      if is_leaf subtree
      then <[guess_to_solution_index (guess_index subtree)
                                     valid_guesses solutions :=
               guesses_so_far]> stacks_by_solution
      else stacks_by_solution in
    let guesses := guesses_so_far ++ [guess_index subtree] in
    let stacks2 :=
      foldl (λ stacks solution_index, <[solution_index := guesses]> stacks)
            stacks1 (leaves subtree) in
    foldl (λ stacks child,
             extract_tree_stacks_from valid_guesses solutions child stacks
                                      guesses)
          stacks2 (children subtree).
Proof. by destruct subtree. Qed.

Lemma solutions_held_unfold (valid_guesses solutions : list string)
    (tree : node) :
  solutions_held valid_guesses solutions tree
  = (if is_leaf tree
     then [guess_to_solution_index (guess_index tree)
                                   valid_guesses solutions]
     else [])
    ++ leaves tree
    ++ concat (solutions_held valid_guesses solutions <$> children tree).
Proof. by destruct tree. Qed.

Lemma leaves_stacks_lookup (guesses : list nat) (lvs : list nat)
    (stacks : gmap nat (list nat)) (s : nat) :
  foldl (λ stacks solution_index, <[solution_index := guesses]> stacks)
        stacks lvs !! s
  = if decide (s ∈ lvs) then Some guesses else stacks !! s.
Proof.
  revert stacks. induction lvs as [|s' lvs IH]; intros stacks; cbn [foldl].
  - by rewrite decide_False by apply not_elem_of_nil.
  - rewrite IH. destruct (decide (s ∈ lvs)) as [Hin|Hnin].
    + by rewrite decide_True by (by right).
    + destruct (decide (s = s')) as [->|Hne].
      * rewrite lookup_insert_eq. by rewrite decide_True by (by left).
      * rewrite lookup_insert_ne by done.
        rewrite decide_False; [done|].
        intros [?|?]%elem_of_cons; done.
Qed.

Lemma extract_tree_stacks_children (valid_guesses solutions : list string)
    (cs : list node) :
  Forall (extract_tree_stacks_spec valid_guesses solutions) cs →
  ∀ (stacks : gmap nat (list nat)) (guesses : list nat) (s : nat),
    let stacks' :=
      foldl (λ stacks child,
               extract_tree_stacks_from valid_guesses solutions child stacks
                                        guesses)
            stacks cs in
    (∀ stack, stacks' !! s = Some stack →
              stacks !! s = Some stack ∨
              ∃ child, child ∈ cs ∧
                       stack_of valid_guesses solutions guesses child s
                                stack) ∧
    (is_Some (stacks !! s) ∨
     s ∈ concat (solutions_held valid_guesses solutions <$> cs) →
     is_Some (stacks' !! s)).
Proof.
  induction 1 as [|child cs Hchild Hcs IH]; intros stacks guesses s;
    cbn [foldl].
  - split; [by left|]. intros [H|H]; [done|].
    by apply elem_of_nil in H.
  - destruct (Hchild stacks guesses s) as [Hsound Hhas].
    destruct (IH (extract_tree_stacks_from valid_guesses solutions child
                    stacks guesses) guesses s) as [Hsound' Hhas'].
    split.
    + intros stack Hstack.
      destruct (Hsound' stack Hstack) as [Hin|(c & Hc & Hof)].
      * destruct (Hsound stack Hin) as [?|Hof]; [by left|].
        right. exists child. split; [by left|done].
      * right. exists c. split; [by right|done].
    + intros Hcase. apply Hhas'. rewrite fmap_cons in Hcase.
      cbn [concat] in Hcase.
      destruct Hcase as [H|[H|H]%elem_of_app].
      * left. apply Hhas. by left.
      * left. apply Hhas. by right.
      * by right.
Qed.

Lemma extract_tree_stacks_spec_all (valid_guesses solutions : list string)
    (tree : node) :
  extract_tree_stacks_spec valid_guesses solutions tree.
Proof.
  induction tree as [tree IH] using node_children_ind.
  intros stacks guesses_so_far s.
  rewrite extract_tree_stacks_from_unfold, solutions_held_unfold.
  cbn zeta.
  set (own := guess_to_solution_index (guess_index tree) valid_guesses
                                      solutions).
  set (stacks1 := if is_leaf tree then <[own := guesses_so_far]> stacks
                  else stacks).
  set (guesses := guesses_so_far ++ [guess_index tree]).
  set (stacks2 := foldl (λ stacks solution_index,
                           <[solution_index := guesses]> stacks)
                        stacks1 (leaves tree)).
  destruct (extract_tree_stacks_children valid_guesses solutions
              (children tree) IH stacks2 guesses s) as [Hsound Hhas].
  assert (H2 : stacks2 !! s
               = if decide (s ∈ leaves tree) then Some guesses
                 else stacks1 !! s) by apply leaves_stacks_lookup.
  split.
  - intros stack Hstack.
    destruct (Hsound stack Hstack) as [Hin|(c & Hc & Hof)].
    + rewrite H2 in Hin. destruct (decide (s ∈ leaves tree)) as [Hl|Hl].
      * injection Hin as <-. right. by apply stack_of_leaf.
      * subst stacks1. destruct (is_leaf tree) eqn:Hleaf; [|by left].
        destruct (decide (s = own)) as [->|Hne].
        -- rewrite lookup_insert_eq in Hin. injection Hin as <-.
           right. by apply stack_of_node.
        -- rewrite lookup_insert_ne in Hin by done. by left.
    + right. by eapply stack_of_child.
  - intros Hcase. apply Hhas.
    destruct Hcase as [H|[H|[H|H]%elem_of_app]%elem_of_app].
    + left. rewrite H2. destruct (decide (s ∈ leaves tree)); [done|].
      subst stacks1. destruct (is_leaf tree); [|done].
      destruct (decide (s = own)) as [->|Hne].
      * by rewrite lookup_insert_eq.
      * by rewrite lookup_insert_ne.
    + left. rewrite H2. destruct (decide (s ∈ leaves tree)); [done|].
      subst stacks1. destruct (is_leaf tree); [|by apply elem_of_nil in H].
      apply list_elem_of_singleton in H as ->.
      by rewrite lookup_insert_eq.
    + left. rewrite H2. by rewrite decide_True.
    + by right.
Qed.

Lemma elem_of_concat {A} (x : A) (ls : list (list A)) :
  x ∈ concat ls ↔ ∃ l, l ∈ ls ∧ x ∈ l.
Proof.
  induction ls as [|l ls IH]; cbn [concat].
  - split; [by intros ?%elem_of_nil|].
    by intros (l & ?%elem_of_nil & _).
  - rewrite elem_of_app, IH. split.
    + intros [H|(l' & Hl' & H)].
      * exists l. split; [by left|done].
      * exists l'. split; [by right|done].
    + intros (l' & [->|Hl']%elem_of_cons & H); [by left|].
      right. by exists l'.
Qed.

Lemma stack_of_held (valid_guesses solutions : list string)
    (guesses_so_far : list nat) (tree : node) (s : nat) (stack : list nat) :
  stack_of valid_guesses solutions guesses_so_far tree s stack →
  s ∈ solutions_held valid_guesses solutions tree.
Proof.
  induction 1 as [pre tree Hleaf | pre tree s Hs
                 | pre tree child s stack Hc Hof IH];
    rewrite solutions_held_unfold.
  - rewrite Hleaf. apply elem_of_app. left. by left.
  - apply elem_of_app. right. apply elem_of_app. by left.
  - apply elem_of_app. right. apply elem_of_app. right.
    apply elem_of_concat. eexists. split; [|exact IH].
    by apply list_elem_of_fmap_2.
Qed.

(** X16: [extract_tree_stacks] gives a stack to exactly the solutions
    that the tree holds, and the stack of a solution is the list of the
    guesses on a way from the root down to where the tree holds it,
    without the guess that names the solution. *)
Theorem extract_tree_stacks_paths (tree : node)
    (valid_guesses solutions : list string) (s : nat) :
  (∀ stack,
     extract_tree_stacks tree valid_guesses solutions !! s = Some stack →
     stack_of valid_guesses solutions [] tree s stack) ∧
  (is_Some (extract_tree_stacks tree valid_guesses solutions !! s) ↔
   s ∈ solutions_held valid_guesses solutions tree).
Proof.
  destruct (extract_tree_stacks_spec_all valid_guesses solutions tree ∅ [] s)
    as [Hsound Hhas].
  fold (extract_tree_stacks tree valid_guesses solutions) in Hsound, Hhas.
  assert (∀ stack,
            extract_tree_stacks tree valid_guesses solutions !! s
            = Some stack →
            stack_of valid_guesses solutions [] tree s stack) as Hof.
  { intros stack Hstack.
    destruct (Hsound stack Hstack) as [H|H]; [|done].
    by rewrite lookup_empty in H. }
  split; [done|]. split.
  - intros [stack Hstack]. eapply stack_of_held. by apply Hof.
  - intros Hin. apply Hhas. by right.
Qed.

(** ** The solutions that the tree of the search holds *)

Lemma length_solutions_held (valid_guesses solutions : list string)
    (tree : node) :
  Z.of_nat (length (solutions_held valid_guesses solutions tree))
  = num_held tree.
Proof.
  induction tree as [tree IH] using node_children_ind.
  rewrite solutions_held_unfold, num_held_unfold, !length_app.
  assert (Z.of_nat (length (concat (solutions_held valid_guesses solutions
                                      <$> children tree)))
          = sum_with num_held (children tree)) as Hkids.
  { induction IH as [|c cs Hc Hcs IHcs]; [done|].
    rewrite fmap_cons, sum_with_cons. cbn [concat].
    rewrite length_app. lia. }
  destruct (is_leaf tree); cbn [length Z.b2z]; lia.
Qed.

Lemma length_match_vals_new_solver (valid_guesses solutions : list string)
    (sv : solver) :
  new_solver valid_guesses solutions = inr sv →
  length (m_match_vals sv) = (length valid_guesses * length solutions)%nat.
Proof.
  unfold new_solver. intros Hnew.
  destruct (check_guesses_solutions valid_guesses solutions); [done|].
  apply (inj inr) in Hnew. subst sv. cbn [m_match_vals].
  destruct (init_match_vals_ok valid_guesses solutions
              (length valid_guesses * length solutions)
              (replicate (length valid_guesses * length solutions) 0,
               replicate (Z.to_nat NUM_MATCH_VALS) EmptyString))
    as [Hlen _]; [|done].
  split; [apply length_replicate|].
  apply Forall_replicate. by vm_compute.
Qed.

(** In a constructed solver over solutions without a duplicate, a guess
    that matches a solution with all greens names that solution. *)
Lemma all_greens_solution_index (valid_guesses solutions : list string)
    (sv : solver) (g s : nat) :
  new_solver valid_guesses solutions = inr sv → NoDup solutions →
  (s < length solutions)%nat →
  lookup_match sv g s = ALL_GREENS_MATCH →
  guess_to_solution_index g valid_guesses solutions = s.
Proof.
  intros Hnew Hnd Hs Hgreen.
  destruct (decide (g < length valid_guesses)%nat) as [Hg|Hg].
  - destruct (lookup_lt_is_Some_2 valid_guesses g Hg) as [guess Hguess].
    destruct (lookup_lt_is_Some_2 solutions s Hs) as [solution Hsolution].
    rewrite (lookup_match_new_solver _ _ _ _ _ _ _ Hnew Hguess Hsolution),
      calc_match_val_val in Hgreen.
    assert (guess = solution) as ->.
    { unfold new_solver in Hnew.
      destruct (check_guesses_solutions valid_guesses solutions) eqn:Hc;
        [done|].
      apply check_guesses_solutions_None in Hc as (_ & _ & Hsl & Hgl).
      rewrite Forall_forall in Hsl, Hgl.
      apply match_loop_all_greens; [| |done].
      - apply Hgl. by eapply list_elem_of_lookup_2.
      - apply Hsl. by eapply list_elem_of_lookup_2. }
    unfold guess_to_solution_index. rewrite Hguess.
    change (default EmptyString (Some solution)) with solution.
    cbn zeta.
    destruct (list_find (λ x, x = solution) solutions) as [[i x]|] eqn:Hfind.
    + apply list_find_Some in Hfind as (Hi & -> & _).
      exact (NoDup_lookup _ _ _ _ Hnd Hi Hsolution).
    + apply list_find_None in Hfind. rewrite Forall_forall in Hfind.
      destruct (Hfind solution); [|done].
      by eapply list_elem_of_lookup_2.
  - apply new_solver_inr in Hnew as Hinr.
    destruct Hinr as (_ & HS & _).
    apply length_match_vals_new_solver in Hnew.
    unfold lookup_match in Hgreen. rewrite HS in Hgreen.
    rewrite lookup_ge_None_2 in Hgreen by nia.
    by vm_compute in Hgreen.
Qed.

Section Holds.

Variables valid_guesses solutions : list string.
Variable sv : solver.
Hypothesis match_range : ∀ g s, 0 ≤ lookup_match sv g s < NUM_MATCH_VALS.
Hypothesis all_greens_index : ∀ g s,
  (s < length solutions)%nat → lookup_match sv g s = ALL_GREENS_MATCH →
  guess_to_solution_index g valid_guesses solutions = s.
Variable solve_rec : memo_t → list nat → Z → option (node * memo_t).
Hypothesis solve_rec_holds : rec_holds valid_guesses solutions solve_rec.

Lemma mark_solved_holds (subtree : node) (s : nat) :
  (s < length solutions)%nat →
  s ∉ solutions_held valid_guesses solutions subtree →
  guess_index (mark_solved sv subtree (guess_index subtree) s)
  = guess_index subtree ∧
  solutions_held valid_guesses solutions
                 (mark_solved sv subtree (guess_index subtree) s)
  ≡ₚ s :: solutions_held valid_guesses solutions subtree.
Proof.
  intros Hs Hnot. rewrite solutions_held_unfold in Hnot.
  rewrite (solutions_held_unfold _ _ subtree).
  destruct subtree as [gi td sc md lf ch lv].
  cbn [guess_index is_leaf children leaves] in *.
  unfold mark_solved.
  destruct (lookup_match sv gi s =? ALL_GREENS_MATCH) eqn:E.
  - apply Z.eqb_eq in E. apply all_greens_index in E; [|done].
    split; [done|]. rewrite solutions_held_unfold.
    cbn [guess_index is_leaf children leaves]. rewrite E.
    destruct lf; [|done]. rewrite E in Hnot. set_solver.
  - split; [done|]. rewrite solutions_held_unfold.
    cbn [guess_index is_leaf children leaves].
    rewrite <- !app_assoc. cbn [app].
    rewrite !app_assoc. by rewrite <- Permutation_middle.
Qed.

Lemma traverse_match_holds (m_memo m_memo' : memo_t)
    (subtree subtree' : node) (depth : Z) (avail : list nat)
    (continue : bool) :
  memo_holds valid_guesses solutions m_memo →
  NoDup (solutions_held valid_guesses solutions subtree) →
  Forall (λ s, (s < length solutions)%nat) avail →
  (∀ s, s ∈ avail → s ∉ solutions_held valid_guesses solutions subtree) →
  traverse_match sv solve_rec m_memo subtree (guess_index subtree) depth
                 avail
  = Some (subtree', m_memo', continue) →
  guess_index subtree' = guess_index subtree ∧
  NoDup (solutions_held valid_guesses solutions subtree') ∧
  memo_holds valid_guesses solutions m_memo' ∧
  ∀ s, s ∈ solutions_held valid_guesses solutions subtree' →
       s ∈ solutions_held valid_guesses solutions subtree ∨ s ∈ avail.
Proof.
  intros Hmemo Hnd Hfeasible Hnew. unfold traverse_match.
  destruct avail as [|s [|s' rest]].
  - intros [= <- <- <-]. split_and!; [done | done | done |]. by left.
  - intros [= <- <- <-].
    destruct (mark_solved_holds subtree s) as [Hg Hperm].
    { apply Forall_cons in Hfeasible. apply Hfeasible. }
    { apply Hnew. by left. }
    split_and!; [done | | done |].
    + rewrite Hperm. apply NoDup_cons. split; [|done]. apply Hnew. by left.
    + intros x. rewrite Hperm. set_solver.
  - destruct (solve_rec m_memo (s :: s' :: rest) (depth + 1))
      as [[child memo1]|] eqn:Hrec; cbn [mbind option_bind]; [|done].
    destruct (solve_rec_holds _ _ _ _ _ Hmemo Hfeasible Hrec)
      as [[Hcnd Hcin] Hmemo1].
    assert (Hheld : ∀ n : node,
              solutions_held valid_guesses solutions n
              = (if is_leaf n
                 then [guess_to_solution_index (guess_index n)
                         valid_guesses solutions]
                 else [])
                ++ leaves n
                ++ concat (solutions_held valid_guesses solutions
                           <$> children n))
      by apply solutions_held_unfold.
    rewrite (Hheld subtree) in Hnd, Hnew |- *.
    destruct subtree as [gi td sc md lf ch lv].
    cbn [guess_index is_leaf children leaves] in *.
    intros [= <- <- <-]. rewrite (Hheld (Node _ _ _ _ _ _ _)).
    cbn [guess_index is_leaf children leaves].
    rewrite fmap_app, concat_app. cbn [fmap list_fmap concat].
    rewrite app_nil_r, (app_assoc lv), (app_assoc _ (lv ++ _)).
    split_and!; [done | | done |].
    + apply NoDup_app. split_and!; [done | | done].
      intros x Hx Hc. apply Hcin in Hc. by apply (Hnew x).
    + intros x [Hx|Hx]%elem_of_app; [by left|]. right. by apply Hcin.
Qed.

Lemma traverse_match_loop_holds (buckets : list (list nat)) (depth : Z)
    (F : list nat) (matches : list nat) (m_memo m_memo' : memo_t)
    (subtree subtree' : node) :
  NoDup matches →
  Forall (λ s, (s < length solutions)%nat) F →
  (∀ m s, s ∈ default [] (buckets !! m) →
          s ∈ F ∧
          Z.to_nat (lookup_match sv (guess_index subtree) s) = m) →
  memo_holds valid_guesses solutions m_memo →
  NoDup (solutions_held valid_guesses solutions subtree) →
  (∀ s, s ∈ solutions_held valid_guesses solutions subtree →
        s ∈ F ∧
        Z.to_nat (lookup_match sv (guess_index subtree) s) ∉ matches) →
  traverse_match_loop sv solve_rec buckets m_memo subtree
                      (guess_index subtree) depth matches
  = Some (subtree', m_memo') →
  NoDup (solutions_held valid_guesses solutions subtree') ∧
  memo_holds valid_guesses solutions m_memo' ∧
  ∀ s, s ∈ solutions_held valid_guesses solutions subtree' → s ∈ F.
Proof.
  intros Hnd Hfeasible. revert m_memo subtree.
  induction Hnd as [|m rest Hnotin Hnd IH];
    intros m_memo subtree Hbuckets Hmemo Hheld Hdone;
    cbn [traverse_match_loop].
  - intros [= <- <-]. split_and!; [done | done |].
    intros s Hs. by apply Hdone.
  - destruct (traverse_match sv solve_rec m_memo subtree
                (guess_index subtree) depth (default [] (buckets !! m)))
      as [[[subtree1 memo1] continue]|] eqn:Hstep;
      cbn [mbind option_bind]; [|done].
    apply traverse_match_holds in Hstep
      as (Hg1 & Hheld1 & Hmemo1 & Hin1); [|done|done| |].
    2:{ apply Forall_forall. intros s Hs.
        rewrite Forall_forall in Hfeasible.
        by apply Hfeasible, (Hbuckets m). }
    2:{ intros s Hs Hold. destruct (Hdone s Hold) as [_ Hm].
        destruct (Hbuckets m s Hs) as [_ Hm']. set_solver. }
    assert (Hdone1 : ∀ s,
              s ∈ solutions_held valid_guesses solutions subtree1 →
              s ∈ F ∧
              Z.to_nat (lookup_match sv (guess_index subtree) s) ∉ rest).
    { intros s Hs. destruct (Hin1 s Hs) as [Hold|Hnew].
      - destruct (Hdone s Hold) as [HF Hm]. set_solver.
      - destruct (Hbuckets m s Hnew) as [HF ->]. done. }
    destruct continue.
    + rewrite <- Hg1. apply IH; [|done|done|]; by rewrite Hg1.
    + intros [= <- <-]. split_and!; [done | done |].
      intros s Hs. by apply Hdone1.
Qed.

Lemma traverse_matches_holds (m_memo m_memo' : memo_t) (g : nat)
    (F : list nat) (depth : Z) (subtree' : node) :
  memo_holds valid_guesses solutions m_memo →
  Forall (λ s, (s < length solutions)%nat) F →
  traverse_matches sv solve_rec m_memo (Node g 0 0 0 false [] []) g F depth
  = Some (subtree', m_memo') →
  node_holds valid_guesses solutions F subtree' ∧
  memo_holds valid_guesses solutions m_memo'.
Proof.
  intros Hmemo Hfeasible Htrav. unfold traverse_matches in Htrav.
  destruct (get_solutions_by_match_spec sv g F match_range)
    as (Hlen & Hbuckets & _).
  set (buckets := get_solutions_by_match sv g F) in *.
  apply (traverse_match_loop_holds buckets depth F _ _ _
           (Node g 0 0 0 false [] [])) in Htrav
    as (Hnd & Hmemo' & Hin); [done|apply NoDup_seq|done| |done| |].
  - intros m s Hs. cbn [guess_index].
    destruct (decide (m < Z.to_nat NUM_MATCH_VALS)%nat) as [Hm|Hm].
    + rewrite (Hbuckets m Hm) in Hs. cbn [default] in Hs.
      by apply list_elem_of_filter in Hs as [Hs Hin].
    + rewrite lookup_ge_None_2 in Hs by lia. by apply elem_of_nil in Hs.
  - constructor.
  - intros s Hs. by apply elem_of_nil in Hs.
Qed.

Lemma explore_holds (best_guesses : list (Q * nat))
    (m_memo m_memo' : memo_t) (F : list nat) (depth : Z)
    (subtrees : list node) :
  memo_holds valid_guesses solutions m_memo →
  Forall (λ s, (s < length solutions)%nat) F →
  explore sv solve_rec m_memo F depth best_guesses
  = Some (subtrees, m_memo') →
  Forall (node_holds valid_guesses solutions F) subtrees ∧
  memo_holds valid_guesses solutions m_memo'.
Proof.
  intros Hmemo Hfeasible. revert m_memo m_memo' subtrees Hmemo.
  induction best_guesses as [|[avg g] rest IH];
    intros m_memo m_memo' subtrees Hmemo; cbn [explore].
  - intros [= <- <-]. done.
  - destruct (traverse_matches sv solve_rec m_memo
                (Node g 0 0 0 false [] []) g F depth)
      as [[subtree memo1]|] eqn:Htrav; cbn [mbind option_bind]; [|done].
    apply traverse_matches_holds in Htrav as [Hsub Hmemo1]; [|done|done].
    destruct (explore sv solve_rec memo1 F depth rest)
      as [[subtrees' memo2]|] eqn:Hrest; cbn [mbind option_bind]; [|done].
    destruct (IH _ _ _ Hmemo1 Hrest) as [Hall Hmemo2].
    intros [= <- <-]. split; [by constructor | done].
Qed.

Lemma solve_body_holds
    (partial_sort : nat → list (Q * nat) → list (Q * nat)) :
  rec_holds valid_guesses solutions (solve_body partial_sort sv solve_rec).
Proof.
  intros m_memo F depth n m_memo' Hmemo Hfeasible. unfold solve_body.
  assert (Hexplore :
    (explore sv solve_rec m_memo F depth
       (get_best_unique_match_guesses partial_sort sv F)
     ≫= λ '(subtrees, m_memo0), select m_memo0 F depth subtrees)
    = Some (n, m_memo') →
    node_holds valid_guesses solutions F n ∧
    memo_holds valid_guesses solutions m_memo').
  { destruct (explore _ _ _ _ _ _) as [[subtrees memo1]|] eqn:Hexp;
      cbn [mbind option_bind]; [|done].
    destruct (explore_holds _ _ _ _ _ _ Hmemo Hfeasible Hexp)
      as [Hall Hmemo1].
    intros Hsel. apply select_inv in Hsel as [Hin ->].
    rewrite Forall_forall in Hall.
    split; [by apply Hall|]. apply map_Forall_insert_2; [|done].
    by apply Hall. }
  destruct (lookup_memo m_memo F) as [cached|] eqn:Hlook; [|done].
  destruct (within_depth depth cached); [|done].
  intros [= <- <-]. split; [|done]. by apply (Hmemo F).
Qed.

End Holds.

Lemma solve_indexes_holds
    (partial_sort : nat → list (Q * nat) → list (Q * nat))
    (valid_guesses solutions : list string) (sv : solver) (fuel : nat) :
  (∀ g s, 0 ≤ lookup_match sv g s < NUM_MATCH_VALS) →
  (∀ g s, (s < length solutions)%nat →
          lookup_match sv g s = ALL_GREENS_MATCH →
          guess_to_solution_index g valid_guesses solutions = s) →
  rec_holds valid_guesses solutions (solve_indexes partial_sort sv fuel).
Proof.
  intros Hrange Hgreen. induction fuel as [|fuel IH]; cbn [solve_indexes].
  - intros m_memo F depth n m_memo' _ _ H. discriminate H.
  - by apply solve_body_holds.
Qed.

Lemma solve_root_holds
    (partial_sort : nat → list (Q * nat) → list (Q * nat))
    (valid_guesses solutions : list string) (sv : solver) (fuel : nat)
    (prune_limit : Z) (root : node) :
  new_solver valid_guesses solutions = inr sv → NoDup solutions →
  (solve partial_sort sv fuel prune_limit).2 = Some root →
  node_holds valid_guesses solutions (seq 0 (length solutions)) root.
Proof.
  intros Hnew Hnd. unfold solve. cbn [snd].
  apply new_solver_inr in Hnew as Hinr.
  destruct Hinr as (_ & HS & _ & _ & _ & Hrange).
  change (m_num_solutions (set_prune_limit sv prune_limit))
    with (m_num_solutions sv). rewrite HS.
  destruct (solve_indexes _ _ _ _ _ _) as [[n m_memo]|] eqn:H; [|done].
  intros [= <-].
  destruct (solve_indexes_holds partial_sort valid_guesses solutions
              (set_prune_limit sv prune_limit) fuel Hrange
              (λ g s, all_greens_solution_index _ _ _ g s Hnew Hnd)
              ∅ (seq 0 (length solutions)) 0 n m_memo) as [Hn _];
    [apply map_Forall_empty | | done | done].
  apply Forall_forall. intros s Hs. apply elem_of_seq in Hs. lia.
Qed.

Lemma solve_root_held_all
    (partial_sort : nat → list (Q * nat) → list (Q * nat))
    (valid_guesses solutions : list string) (sv : solver) (fuel : nat)
    (prune_limit : Z) (root : node) :
  new_solver valid_guesses solutions = inr sv → NoDup solutions →
  (solve partial_sort sv fuel prune_limit).2 = Some root →
  solved_count root = Z.of_nat (length (solutions_held valid_guesses
                                          solutions root)) ∧
  (solved_count root = Z.of_nat (length solutions) →
   ∀ s, (s < length solutions)%nat →
        s ∈ solutions_held valid_guesses solutions root).
Proof.
  intros Hnew Hnd Hroot.
  destruct (solve_root_holds _ _ _ _ _ _ _ Hnew Hnd Hroot) as [Hheld Hin].
  destruct (solve_root_sound _ _ _ _ _ _ _ Hnew Hroot) as (Htal & _).
  assert (solved_count root
          = Z.of_nat (length (solutions_held valid_guesses solutions root)))
    as Hcount.
  { by rewrite length_solutions_held, tallied_num_held. }
  split; [done|]. intros Hall s Hs.
  assert (solutions_held valid_guesses solutions root
          ≡ₚ seq 0 (length solutions)) as Hperm.
  { apply submseteq_length_Permutation.
    - by apply NoDup_submseteq.
    - rewrite length_seq. lia. }
  rewrite Hperm. apply elem_of_seq. lia.
Qed.

(** X17: over solutions without a duplicate, the tree that [solve]
    returns for a constructed solver holds no solution twice and holds
    only indexes of solutions; the [solved_count] of its root is the
    number of solutions the tree holds; so when it is the number of
    solutions, the tree holds every solution. *)
Theorem solve_tree_holds
    (partial_sort : nat → list (Q * nat) → list (Q * nat))
    (valid_guesses solutions : list string) (sv : solver) (fuel : nat)
    (prune_limit : Z) (root : node) :
  new_solver valid_guesses solutions = inr sv → NoDup solutions →
  (solve partial_sort sv fuel prune_limit).2 = Some root →
  NoDup (solutions_held valid_guesses solutions root) ∧
  (∀ s, s ∈ solutions_held valid_guesses solutions root →
        (s < length solutions)%nat) ∧
  solved_count root
  = Z.of_nat (length (solutions_held valid_guesses solutions root)) ∧
  (solved_count root = Z.of_nat (length solutions) →
   ∀ s, (s < length solutions)%nat →
        s ∈ solutions_held valid_guesses solutions root).
Proof.
  intros Hnew Hnd Hroot.
  destruct (solve_root_holds _ _ _ _ _ _ _ Hnew Hnd Hroot) as [Hheld Hin].
  destruct (solve_root_held_all _ _ _ _ _ _ _ Hnew Hnd Hroot)
    as [Hcount Hall].
  split_and!; [done | | done | done].
  intros s Hs. apply Hin, elem_of_seq in Hs. lia.
Qed.

Lemma solve_tree_holds_witness :
  ∃ root,
    (solve Libstdcxx.partial_sort batch_solver 4 8).2 = Some root ∧
    NoDup (solutions_held batch_words batch_words root).
Proof.
  destruct (solve Libstdcxx.partial_sort batch_solver 4 8).2
    as [root|] eqn:Hroot.
  - exists root. split; [reflexivity|].
    refine (proj1 (solve_tree_holds Libstdcxx.partial_sort batch_words
                     batch_words batch_solver 4 8 root eq_refl _ Hroot)).
    apply (bool_decide_unpack _). by vm_compute.
  - exfalso. vm_compute in Hroot. discriminate Hroot.
Defined.

Lemma print_tree_target_held (sv : solver) (head : node)
    (valid_guesses solutions : list string) (s : nat) (target : string) :
  NoDup solutions → solutions !! s = Some target →
  s ∈ solutions_held valid_guesses solutions head →
  ∃ stack,
    stack_of valid_guesses solutions [] head s stack ∧
    print_tree_target sv head valid_guesses solutions target
    = inr (print_tree_stack sv valid_guesses solutions s stack).
Proof.
  intros Hnd Hs Hheld. unfold print_tree_target.
  destruct (list_find (λ solution, solution = target) solutions)
    as [[i x]|] eqn:Hfind.
  - apply list_find_Some in Hfind as (Hi & -> & _).
    assert (i = s) as -> by exact (NoDup_lookup _ _ _ _ Hnd Hi Hs).
    cbn zeta.
    destruct (extract_tree_stacks_spec_all valid_guesses solutions head
                ∅ [] s) as [Hsound Hhas].
    fold (extract_tree_stacks head valid_guesses solutions)
      in Hsound, Hhas.
    destruct Hhas as [stack Hstack]; [by right|].
    rewrite Hstack. exists stack. split; [|done].
    destruct (Hsound stack Hstack) as [H|H]; [|done].
    by rewrite lookup_empty in H.
  - apply list_find_None in Hfind. rewrite Forall_forall in Hfind.
    destruct (Hfind target); [|done]. by eapply list_elem_of_lookup_2.
Qed.

(** X18: over solutions without a duplicate, when the root that [solve]
    returns for a constructed solver counts every solution, [print_tree]
    with a target throws only for a target that is not a solution, and
    then with the message that the solution list does not contain it;
    for a solution it writes the line of a stack of the tree for that
    solution, and does not throw for an invalid tree state. *)
Theorem print_tree_target_solved
    (partial_sort : nat → list (Q * nat) → list (Q * nat))
    (valid_guesses solutions : list string) (sv : solver) (fuel : nat)
    (prune_limit : Z) (root : node) (target : string) :
  new_solver valid_guesses solutions = inr sv → NoDup solutions →
  (solve partial_sort sv fuel prune_limit).2 = Some root →
  solved_count root = Z.of_nat (length solutions) →
  let printed :=
    print_tree_target (solve partial_sort sv fuel prune_limit).1 root
                      valid_guesses solutions target in
  (target ∉ solutions →
   printed = inl (Solution_list_does_not_contain target)) ∧
  (∀ s, solutions !! s = Some target →
        ∃ stack,
          stack_of valid_guesses solutions [] root s stack ∧
          printed
          = inr (print_tree_stack
                   (solve partial_sort sv fuel prune_limit).1
                   valid_guesses solutions s stack)).
Proof.
  intros Hnew Hnd Hroot Hall printed. subst printed.
  unfold print_tree_target. split.
  - intros Hnot.
    destruct (list_find (λ solution, solution = target) solutions)
      as [[i x]|] eqn:Hfind; [|done].
    apply list_find_Some in Hfind as (Hi & -> & _).
    destruct Hnot. by eapply list_elem_of_lookup_2.
  - intros s Hs.
    destruct (solve_root_held_all _ _ _ _ _ _ _ Hnew Hnd Hroot)
      as [_ Hheld].
    apply lookup_lt_Some in Hs as Hlt.
    fold (print_tree_target (solve partial_sort sv fuel prune_limit).1
                            root valid_guesses solutions target).
    by apply print_tree_target_held, Hheld.
Qed.

Lemma print_tree_target_solved_witness :
  ∃ root,
    (solve Libstdcxx.partial_sort batch_solver 4 8).2 = Some root ∧
    ∃ stack,
      stack_of batch_words batch_words [] root 3 stack ∧
      print_tree_target (solve Libstdcxx.partial_sort batch_solver 4 8).1
                        root batch_words batch_words "latch"
      = inr (print_tree_stack
               (solve Libstdcxx.partial_sort batch_solver 4 8).1
               batch_words batch_words 3 stack).
Proof.
  assert (∃ root,
            (solve Libstdcxx.partial_sort batch_solver 4 8).2 = Some root ∧
            solved_count root = Z.of_nat (length batch_words))
    as (root & Hroot & Hall).
  { eexists. split; [vm_compute; reflexivity|]. by vm_compute. }
  exists root. split; [exact Hroot|].
  refine (proj2 (print_tree_target_solved Libstdcxx.partial_sort
                   batch_words batch_words batch_solver 4 8 root "latch"
                   eq_refl _ Hroot Hall) 3%nat eq_refl).
  apply (bool_decide_unpack _). by vm_compute.
Defined.

(** ** A candidate that tells no solution apart *)

Lemma filter_all {A} (P : A → Prop) `{∀ x, Decision (P x)} (l : list A) :
  Forall P l → filter P l = l.
Proof.
  induction 1 as [|x l Hx Hl IH]; [done|].
  rewrite filter_cons, decide_True by done. by rewrite IH.
Qed.

Lemma filter_none {A} (P : A → Prop) `{∀ x, Decision (P x)} (l : list A) :
  Forall (λ x, ¬ P x) l → filter P l = [].
Proof.
  induction 1 as [|x l Hx Hl IH]; [done|].
  by rewrite filter_cons, decide_False.
Qed.

Lemma filter_whole {A} (P : A → Prop) `{∀ x, Decision (P x)} (l : list A) :
  length (filter P l) = length l → filter P l = l.
Proof.
  induction l as [|x l IH]; [done|].
  rewrite filter_cons. destruct (decide (P x)); cbn [length].
  - intros [= Hlen]. by rewrite IH.
  - pose proof (length_filter P l). lia.
Qed.

Lemma elem_of_length_pos {A} (l : list A) :
  (0 < length l)%nat → ∃ x, x ∈ l.
Proof.
  destruct l as [|x l]; cbn [length]; [lia|]. intros _. exists x. by left.
Qed.

(** [traverse_match] fails to return only when its call of [solve]
    does. *)
Lemma traverse_match_None (sv : solver)
    (solve_rec : memo_t → list nat → Z → option (node * memo_t))
    (m_memo : memo_t) (subtree : node) (g : nat) (depth : Z)
    (avail : list nat) :
  traverse_match sv solve_rec m_memo subtree g depth avail = None →
  (2 ≤ length avail)%nat ∧ solve_rec m_memo avail (depth + 1) = None.
Proof.
  unfold traverse_match. destruct avail as [|s [|s' rest]]; [done | done |].
  destruct (solve_rec m_memo (s :: s' :: rest) (depth + 1))
    as [[child memo1]|] eqn:Hrec; cbn [mbind option_bind].
  - by destruct subtree.
  - intros _. cbn [length]. split; [lia | done].
Qed.

Lemma traverse_match_stuck (sv : solver)
    (solve_rec : memo_t → list nat → Z → option (node * memo_t))
    (m_memo : memo_t) (subtree : node) (g : nat) (depth : Z)
    (avail : list nat) :
  (2 ≤ length avail)%nat →
  solve_rec m_memo avail (depth + 1) = None →
  traverse_match sv solve_rec m_memo subtree g depth avail = None.
Proof.
  intros Hlen Hrec. unfold traverse_match.
  destruct avail as [|s [|s' rest]]; cbn [length] in Hlen; [lia | lia |].
  by rewrite Hrec.
Qed.

Lemma traverse_match_loop_None (sv : solver)
    (solve_rec : memo_t → list nat → Z → option (node * memo_t))
    (buckets : list (list nat)) (g : nat) (depth : Z) (matches : list nat)
    (m_memo : memo_t) (subtree : node) :
  traverse_match_loop sv solve_rec buckets m_memo subtree g depth matches
  = None →
  ∃ memo1 avail, solve_rec memo1 avail (depth + 1) = None.
Proof.
  revert m_memo subtree.
  induction matches as [|m rest IH]; intros m_memo subtree;
    cbn [traverse_match_loop]; [done|].
  destruct (traverse_match sv solve_rec m_memo subtree g depth
              (default [] (buckets !! m)))
    as [[[subtree1 memo1] continue]|] eqn:Hstep;
    cbn [mbind option_bind].
  - destruct continue; [apply IH | done].
  - intros _. apply traverse_match_None in Hstep as [_ Hrec]. eauto.
Qed.

Lemma explore_None (sv : solver)
    (solve_rec : memo_t → list nat → Z → option (node * memo_t))
    (best_guesses : list (Q * nat)) (m_memo : memo_t) (F : list nat)
    (depth : Z) :
  explore sv solve_rec m_memo F depth best_guesses = None →
  ∃ memo1 avail, solve_rec memo1 avail (depth + 1) = None.
Proof.
  revert m_memo.
  induction best_guesses as [|[avg g] rest IH]; intros m_memo;
    cbn [explore]; [done|].
  destruct (traverse_matches sv solve_rec m_memo
              (Node g 0 0 0 false [] []) g F depth)
    as [[subtree memo1]|] eqn:Htrav; cbn [mbind option_bind].
  - destruct (explore sv solve_rec memo1 F depth rest)
      as [[subtrees memo2]|] eqn:Hrest; cbn [mbind option_bind]; [done|].
    intros _. by eapply IH.
  - intros _. by eapply traverse_match_loop_None.
Qed.

Lemma explore_length (sv : solver)
    (solve_rec : memo_t → list nat → Z → option (node * memo_t))
    (best_guesses : list (Q * nat)) (m_memo m_memo' : memo_t)
    (F : list nat) (depth : Z) (subtrees : list node) :
  explore sv solve_rec m_memo F depth best_guesses
  = Some (subtrees, m_memo') →
  length subtrees = length best_guesses.
Proof.
  revert m_memo m_memo' subtrees.
  induction best_guesses as [|[avg g] rest IH];
    intros m_memo m_memo' subtrees; cbn [explore].
  - by intros [= <- _].
  - destruct (traverse_matches sv solve_rec m_memo
                (Node g 0 0 0 false [] []) g F depth)
      as [[subtree memo1]|]; cbn [mbind option_bind]; [|done].
    destruct (explore sv solve_rec memo1 F depth rest)
      as [[subtrees' memo2]|] eqn:Hrest; cbn [mbind option_bind]; [|done].
    intros [= <- _]. cbn [length]. f_equal. by eapply IH.
Qed.

Lemma select_None (m_memo : memo_t) (F : list nat) (depth : Z)
    (subtrees : list node) :
  select m_memo F depth subtrees = None → subtrees = [].
Proof.
  unfold select.
  destruct (swap_nodes _ 0 subtrees !! 0%nat) as [first|] eqn:Hfirst;
    cbn [mbind option_bind]; [done|].
  intros _. apply lookup_ge_None in Hfirst.
  assert (length (swap_nodes (best_index depth subtrees) 0 subtrees)
          = length subtrees) as Hlen.
  { unfold swap_nodes.
    destruct (subtrees !! best_index depth subtrees); [|done].
    destruct (subtrees !! 0%nat); [|done].
    by rewrite !length_insert. }
  destruct subtrees; [done|]. rewrite Hlen in Hfirst.
  cbn [length] in Hfirst. lia.
Qed.

(** With a candidate to explore, the body of [solve] fails to return
    only when a call of [solve] one level down does: the array of nodes
    is not empty when the selection is reached. *)
Lemma solve_body_None
    (partial_sort : nat → list (Q * nat) → list (Q * nat)) (sv : solver)
    (solve_rec : memo_t → list nat → Z → option (node * memo_t))
    (m_memo : memo_t) (F : list nat) (depth : Z) :
  get_best_unique_match_guesses partial_sort sv F ≠ [] →
  solve_body partial_sort sv solve_rec m_memo F depth = None →
  ∃ memo1 avail, solve_rec memo1 avail (depth + 1) = None.
Proof.
  intros Hbest. unfold solve_body.
  assert (Hexplore :
    (explore sv solve_rec m_memo F depth
       (get_best_unique_match_guesses partial_sort sv F)
     ≫= λ '(subtrees, m_memo0), select m_memo0 F depth subtrees)
    = None →
    ∃ memo1 avail, solve_rec memo1 avail (depth + 1) = None).
  { destruct (explore _ _ _ _ _ _) as [[subtrees memo1]|] eqn:Hexp;
      cbn [mbind option_bind].
    - intros Hsel. apply select_None in Hsel. subst subtrees.
      apply explore_length in Hexp. cbn [length] in Hexp.
      destruct (get_best_unique_match_guesses partial_sort sv F);
        [done | discriminate Hexp].
    - intros _. by eapply explore_None. }
  destruct (lookup_memo m_memo F) as [cached|]; [|done].
  by destruct (within_depth depth cached).
Qed.

Section Keeps.

Variable sv : solver.
Hypothesis match_range : ∀ g s, 0 ≤ lookup_match sv g s < NUM_MATCH_VALS.
Variable solve_rec : memo_t → list nat → Z → option (node * memo_t).
Hypothesis solve_rec_keeps : rec_keeps solve_rec.

Lemma traverse_match_keeps (m_memo m_memo' : memo_t)
    (subtree subtree' : node) (g : nat) (depth : Z) (avail : list nat)
    (continue : bool) (key : list nat) :
  (length avail < length key)%nat →
  traverse_match sv solve_rec m_memo subtree g depth avail
  = Some (subtree', m_memo', continue) →
  m_memo' !! key = m_memo !! key.
Proof.
  intros Hlen. unfold traverse_match. destruct avail as [|s [|s' rest]].
  - by intros [= _ <- _].
  - by intros [= _ <- _].
  - destruct (solve_rec m_memo (s :: s' :: rest) (depth + 1))
      as [[child memo1]|] eqn:Hrec; cbn [mbind option_bind]; [|done].
    apply (solve_rec_keeps _ _ _ _ _ key) in Hrec; [|done].
    destruct subtree. by intros [= _ <- _].
Qed.

Lemma traverse_match_loop_keeps (buckets : list (list nat))
    (matches : list nat) (m_memo m_memo' : memo_t)
    (subtree subtree' : node) (g : nat) (depth : Z) (key : list nat) :
  (∀ m, (length (default [] (buckets !! m)) < length key)%nat) →
  traverse_match_loop sv solve_rec buckets m_memo subtree g depth matches
  = Some (subtree', m_memo') →
  m_memo' !! key = m_memo !! key.
Proof.
  intros Hlen. revert m_memo subtree.
  induction matches as [|m rest IH]; intros m_memo subtree;
    cbn [traverse_match_loop].
  - by intros [= _ <-].
  - destruct (traverse_match sv solve_rec m_memo subtree g depth
                (default [] (buckets !! m)))
      as [[[subtree1 memo1] continue]|] eqn:Hstep;
      cbn [mbind option_bind]; [|done].
    apply (traverse_match_keeps _ _ _ _ _ _ _ _ key) in Hstep; [|done].
    destruct continue.
    + intros Hloop. apply IH in Hloop. by rewrite Hloop.
    + by intros [= _ <-].
Qed.

Lemma bucket_length (g : nat) (F : list nat) (m : nat) :
  (length (default [] (get_solutions_by_match sv g F !! m)) ≤ length F)%nat.
Proof.
  destruct (get_solutions_by_match_spec sv g F match_range)
    as (Hlen & Hbuckets & _).
  destruct (decide (m < Z.to_nat NUM_MATCH_VALS)%nat) as [Hm|Hm].
  - rewrite (Hbuckets m Hm). cbn [default]. apply length_filter.
  - rewrite lookup_ge_None_2 by lia. cbn [default length]. lia.
Qed.

Lemma explore_keeps (best_guesses : list (Q * nat))
    (m_memo m_memo' : memo_t) (F : list nat) (depth : Z)
    (subtrees : list node) (key : list nat) :
  (length F < length key)%nat →
  explore sv solve_rec m_memo F depth best_guesses
  = Some (subtrees, m_memo') →
  m_memo' !! key = m_memo !! key.
Proof.
  intros Hlen. revert m_memo m_memo' subtrees.
  induction best_guesses as [|[avg g] rest IH];
    intros m_memo m_memo' subtrees; cbn [explore].
  - by intros [= _ <-].
  - destruct (traverse_matches sv solve_rec m_memo
                (Node g 0 0 0 false [] []) g F depth)
      as [[subtree memo1]|] eqn:Htrav; cbn [mbind option_bind]; [|done].
    apply (traverse_match_loop_keeps _ _ _ _ _ _ _ _ key) in Htrav.
    2:{ intros m. pose proof (bucket_length g F m). lia. }
    destruct (explore sv solve_rec memo1 F depth rest)
      as [[subtrees' memo2]|] eqn:Hrest; cbn [mbind option_bind]; [|done].
    apply IH in Hrest. intros [= _ <-]. by rewrite Hrest.
Qed.

Lemma solve_body_keeps
    (partial_sort : nat → list (Q * nat) → list (Q * nat)) :
  rec_keeps (solve_body partial_sort sv solve_rec).
Proof.
  intros m_memo F depth n m_memo' key Hbody Hlen. revert Hbody.
  unfold solve_body.
  assert (Hexplore :
    (explore sv solve_rec m_memo F depth
       (get_best_unique_match_guesses partial_sort sv F)
     ≫= λ '(subtrees, m_memo0), select m_memo0 F depth subtrees)
    = Some (n, m_memo') →
    m_memo' !! key = m_memo !! key).
  { destruct (explore _ _ _ _ _ _) as [[subtrees memo1]|] eqn:Hexp;
      cbn [mbind option_bind]; [|done].
    apply (explore_keeps _ _ _ _ _ _ key) in Hexp; [|done].
    intros Hsel. apply select_inv in Hsel as [_ ->]. unfold set_memo.
    rewrite lookup_insert_ne; [done|]. intros ->. lia. }
  destruct (lookup_memo m_memo F) as [cached|] eqn:Hlook; [|done].
  destruct (within_depth depth cached); [|done].
  by intros [= _ <-].
Qed.

End Keeps.

Lemma solve_indexes_keeps
    (partial_sort : nat → list (Q * nat) → list (Q * nat)) (sv : solver)
    (fuel : nat) :
  (∀ g s, 0 ≤ lookup_match sv g s < NUM_MATCH_VALS) →
  rec_keeps (solve_indexes partial_sort sv fuel).
Proof.
  intros Hrange. induction fuel as [|fuel IH]; cbn [solve_indexes].
  - intros m_memo F depth n m_memo' key H. discriminate H.
  - by apply solve_body_keeps.
Qed.

Section Stuck.

Variable sv : solver.
Hypothesis match_range : ∀ g s, 0 ≤ lookup_match sv g s < NUM_MATCH_VALS.
Variable F : list nat.
Hypothesis two_solutions : (2 ≤ length F)%nat.
Variable solve_rec : memo_t → list nat → Z → option (node * memo_t).
Hypothesis solve_rec_keeps : rec_keeps solve_rec.
Hypothesis solve_rec_stuck : ∀ (m_memo : memo_t) (depth : Z),
  m_memo !! F = None → solve_rec m_memo F depth = None.

(** The traversal of a candidate for [F], when it returns, has set no
    entry for [F]: a bucket is [F] itself, and then the call for it does
    not return, or it is shorter than [F]. *)
Lemma traverse_match_loop_no_entry (g : nat) (depth : Z)
    (matches : list nat) (m_memo m_memo' : memo_t)
    (subtree subtree' : node) :
  m_memo !! F = None →
  traverse_match_loop sv solve_rec (get_solutions_by_match sv g F) m_memo
                      subtree g depth matches
  = Some (subtree', m_memo') →
  m_memo' !! F = None.
Proof.
  destruct (get_solutions_by_match_spec sv g F match_range)
    as (_ & Hbuckets & _).
  revert m_memo subtree.
  induction matches as [|m rest IH]; intros m_memo subtree Hmemo;
    cbn [traverse_match_loop].
  - by intros [= _ <-].
  - destruct (traverse_match sv solve_rec m_memo subtree g depth
                (default [] (get_solutions_by_match sv g F !! m)))
      as [[[subtree1 memo1] continue]|] eqn:Hstep;
      cbn [mbind option_bind]; [|done].
    assert (memo1 !! F = None) as Hmemo1.
    { pose proof (bucket_length sv match_range g F m) as Hle.
      destruct (decide (length (default [] (get_solutions_by_match sv g F
                                              !! m)) = length F))
        as [Heq|Hne].
      - destruct (decide (m < Z.to_nat NUM_MATCH_VALS)%nat) as [Hm|Hm].
        + rewrite (Hbuckets m Hm) in Heq, Hstep. cbn [default] in Heq, Hstep.
          apply filter_whole in Heq. rewrite Heq in Hstep.
          rewrite traverse_match_stuck in Hstep; [done | done |].
          by apply solve_rec_stuck.
        + rewrite lookup_ge_None_2 in Heq by
            (destruct (get_solutions_by_match_spec sv g F match_range)
               as (Hlen & _); lia).
          cbn [default length] in Heq. lia.
      - rewrite <- Hmemo.
        eapply (traverse_match_keeps sv solve_rec solve_rec_keeps);
          [|exact Hstep]. lia. }
    destruct continue; [by apply IH|]. by intros [= _ <-].
Qed.

(** The traversal of a candidate that has one match for all of [F]
    calls [solve] for [F] again, before any other call. *)
Lemma traverse_match_loop_stuck (m_memo : memo_t) (subtree : node)
    (g : nat) (depth : Z) (matches : list nat) (m0 : nat) :
  m_memo !! F = None →
  (∀ s, s ∈ F → Z.to_nat (lookup_match sv g s) = m0) →
  m0 ∈ matches →
  Forall (λ m, (m < Z.to_nat NUM_MATCH_VALS)%nat) matches →
  traverse_match_loop sv solve_rec (get_solutions_by_match sv g F) m_memo
                      subtree g depth matches
  = None.
Proof.
  intros Hmemo Hm0 Hin Hall.
  destruct (get_solutions_by_match_spec sv g F match_range)
    as (_ & Hbuckets & _).
  induction Hall as [|m matches Hm Hall IH]; [by apply elem_of_nil in Hin|].
  cbn [traverse_match_loop]. rewrite (Hbuckets m Hm). cbn [default].
  destruct (decide (m = m0)) as [->|Hne].
  - rewrite filter_all by (by apply Forall_forall).
    rewrite traverse_match_stuck; [done | done |].
    by apply solve_rec_stuck.
  - rewrite filter_none.
    + cbn [traverse_match mbind option_bind]. apply IH.
      apply elem_of_cons in Hin as [->|Hin]; done.
    + apply Forall_forall. intros s Hs Hm'. by rewrite (Hm0 s Hs) in Hm'.
Qed.

Lemma explore_stuck (best_guesses : list (Q * nat)) (m_memo : memo_t)
    (depth : Z) (i : nat) (avg : Q) (g : nat) (m : Z) :
  best_guesses !! i = Some (avg, g) →
  Forall (λ s, lookup_match sv g s = m) F →
  m_memo !! F = None →
  explore sv solve_rec m_memo F depth best_guesses = None.
Proof.
  intros Hi Hsame. rewrite Forall_forall in Hsame.
  revert i m_memo Hi.
  induction best_guesses as [|[avg' g'] rest IH]; intros i m_memo Hi Hmemo;
    [by rewrite lookup_nil in Hi|].
  cbn [explore]. unfold traverse_matches.
  destruct i as [|i]; cbn [lookup list_lookup] in Hi.
  - injection Hi as -> ->.
    rewrite (traverse_match_loop_stuck m_memo _ g depth _ (Z.to_nat m));
      [done | done | | |].
    + intros s Hs. by rewrite (Hsame s Hs).
    + destruct (elem_of_length_pos F) as [s0 Hs0]; [lia|].
      apply elem_of_seq. pose proof (match_range g s0).
      rewrite (Hsame s0 Hs0) in *. lia.
    + apply Forall_forall. intros m' Hm'. apply elem_of_seq in Hm'. lia.
  - destruct (traverse_match_loop sv solve_rec
                (get_solutions_by_match sv g' F) m_memo
                (Node g' 0 0 0 false [] []) g' depth
                (seq 0 (Z.to_nat NUM_MATCH_VALS)))
      as [[subtree memo1]|] eqn:Htrav; cbn [mbind option_bind]; [|done].
    apply traverse_match_loop_no_entry in Htrav; [|done].
    by rewrite (IH i memo1 Hi Htrav).
Qed.

Lemma solve_body_stuck
    (partial_sort : nat → list (Q * nat) → list (Q * nat))
    (m_memo : memo_t) (depth : Z) (i : nat) (avg : Q) (g : nat) (m : Z) :
  get_best_unique_match_guesses partial_sort sv F !! i = Some (avg, g) →
  Forall (λ s, lookup_match sv g s = m) F →
  m_memo !! F = None →
  solve_body partial_sort sv solve_rec m_memo F depth = None.
Proof.
  intros Hi Hsame Hmemo. unfold solve_body, lookup_memo. rewrite Hmemo.
  by rewrite (explore_stuck _ _ _ _ _ _ _ Hi Hsame Hmemo).
Qed.

End Stuck.

Lemma solve_indexes_stuck
    (partial_sort : nat → list (Q * nat) → list (Q * nat)) (sv : solver)
    (F : list nat) (i : nat) (avg : Q) (g : nat) (m : Z) (fuel : nat)
    (m_memo : memo_t) (depth : Z) :
  (∀ g s, 0 ≤ lookup_match sv g s < NUM_MATCH_VALS) →
  (2 ≤ length F)%nat →
  get_best_unique_match_guesses partial_sort sv F !! i = Some (avg, g) →
  Forall (λ s, lookup_match sv g s = m) F →
  m_memo !! F = None →
  solve_indexes partial_sort sv fuel m_memo F depth = None.
Proof.
  intros Hrange Hlen Hi Hsame. revert m_memo depth.
  induction fuel as [|fuel IH]; intros m_memo depth Hmemo;
    cbn [solve_indexes]; [done|].
  eapply solve_body_stuck; [done | done | | | done | done | done].
  - by apply solve_indexes_keeps.
  - intros memo' depth' Hmemo'. by apply IH.
Qed.

(** X19: for a feasible set [F] of two or more solutions, when one of
    the candidates that [get_best_unique_match_guesses] gives for [F]
    has the same match against every solution of [F], [solve] does not
    return for [F]: the traversal of that candidate puts all of [F] in
    one bucket and calls [solve] for [F] again one level down, where no
    node is memoised for [F] yet, since the candidates before it only
    memoise shorter sets.  So the model gives no result whatever the
    bound on the depth of the recursion, at the root as well when [F]
    is all the solutions; and as there is a candidate, the array of
    nodes is not empty, and the call for [F] fails to return only
    because a call one level down does. *)
Theorem solve_never_returns
    (partial_sort : nat → list (Q * nat) → list (Q * nat))
    (valid_guesses solutions : list string) (sv : solver)
    (prune_limit : Z) (F : list nat) (i : nat) (avg : Q) (g : nat)
    (m : Z) :
  new_solver valid_guesses solutions = inr sv →
  (2 ≤ length F)%nat →
  get_best_unique_match_guesses partial_sort
    (set_prune_limit sv prune_limit) F !! i = Some (avg, g) →
  Forall (λ s, lookup_match sv g s = m) F →
  (∀ (fuel : nat) (m_memo : memo_t) (depth : Z),
     m_memo !! F = None →
     solve_indexes partial_sort (set_prune_limit sv prune_limit) fuel
                   m_memo F depth = None) ∧
  (F = seq 0 (length solutions) →
   ∀ fuel, (solve partial_sort sv fuel prune_limit).2 = None) ∧
  (∀ (solve_rec : memo_t → list nat → Z → option (node * memo_t))
     (m_memo : memo_t) (depth : Z),
     solve_body partial_sort (set_prune_limit sv prune_limit) solve_rec
                m_memo F depth = None →
     ∃ memo1 avail, solve_rec memo1 avail (depth + 1) = None).
Proof.
  intros Hnew Hlen Hi Hsame.
  apply new_solver_inr in Hnew as (_ & HS & _ & _ & _ & Hrange).
  assert (Hstuck : ∀ (fuel : nat) (m_memo : memo_t) (depth : Z),
            m_memo !! F = None →
            solve_indexes partial_sort (set_prune_limit sv prune_limit)
                          fuel m_memo F depth = None).
  { intros fuel m_memo depth Hmemo.
    by eapply solve_indexes_stuck. }
  split_and!; [done | |].
  - intros HF fuel. unfold solve. cbn [snd].
    change (m_num_solutions (set_prune_limit sv prune_limit))
      with (m_num_solutions sv). rewrite HS, <- HF.
    by rewrite Hstuck.
  - intros solve_rec m_memo depth. apply solve_body_None.
    intros Hnil. by rewrite Hnil, lookup_nil in Hi.
Qed.

Lemma solve_never_returns_witness :
  (solve Libstdcxx.partial_sort junk_solver 100 8).2 = None.
Proof.
  refine (proj1 (proj2 (solve_never_returns Libstdcxx.partial_sort
                          junk_guesses junk_solutions junk_solver 8
                          [0; 1; 2]%nat 3 3%Q 0 0 eq_refl _ _ _))
            eq_refl 100%nat).
  - cbn [length]. lia.
  - by vm_compute.
  - repeat constructor.
Defined.

(** ** The tree of the search is a strategy *)

Lemma solutions_held_branches (valid_guesses solutions : list string)
    (n : node) :
  solutions_held valid_guesses solutions n
  = concat (branches valid_guesses solutions n).
Proof.
  rewrite solutions_held_unfold. unfold branches.
  rewrite !concat_app. f_equal; [by destruct (is_leaf n)|]. f_equal.
  induction (leaves n) as [|s lv IH]; [done|].
  rewrite fmap_cons. cbn [concat app]. by rewrite <- IH.
Qed.

Lemma elem_of_solutions_held (valid_guesses solutions : list string)
    (n : node) (s : nat) :
  s ∈ solutions_held valid_guesses solutions n ↔
  ∃ b, b ∈ branches valid_guesses solutions n ∧ s ∈ b.
Proof. rewrite solutions_held_branches. apply elem_of_concat. Qed.

Section Decides.

Variables valid_guesses solutions : list string.
Variable sv : solver.
Hypothesis match_range : ∀ g s, 0 ≤ lookup_match sv g s < NUM_MATCH_VALS.
Hypothesis all_greens_index : ∀ g s,
  (s < length solutions)%nat → lookup_match sv g s = ALL_GREENS_MATCH →
  guess_to_solution_index g valid_guesses solutions = s.
Variable solve_rec : memo_t → list nat → Z → option (node * memo_t).
Hypothesis solve_rec_holds : rec_holds valid_guesses solutions solve_rec.
Hypothesis solve_rec_decides :
  rec_decides sv valid_guesses solutions solve_rec.

Lemma mark_solved_branches (subtree : node) (s : nat) :
  (s < length solutions)%nat →
  children (mark_solved sv subtree (guess_index subtree) s)
  = children subtree ∧
  ∀ b, b ∈ branches valid_guesses solutions
             (mark_solved sv subtree (guess_index subtree) s) →
       b = [s] ∨ b ∈ branches valid_guesses solutions subtree.
Proof.
  intros Hs. destruct subtree as [gi td sc md lf ch lv].
  cbn [guess_index]. unfold mark_solved.
  destruct (lookup_match sv gi s =? ALL_GREENS_MATCH) eqn:E.
  - apply Z.eqb_eq in E. apply all_greens_index in E; [|done].
    split; [done|]. unfold branches.
    cbn [guess_index is_leaf children leaves]. rewrite E.
    intros b [Hb|Hb]%elem_of_app.
    + apply list_elem_of_singleton in Hb. by left.
    + right. apply elem_of_app. by right.
  - split; [done|]. unfold branches.
    cbn [guess_index is_leaf children leaves].
    rewrite fmap_app. cbn [fmap list_fmap].
    intros b. rewrite !elem_of_app, list_elem_of_singleton. tauto.
Qed.

Lemma traverse_match_decides (m_memo m_memo' : memo_t)
    (subtree subtree' : node) (depth : Z) (avail : list nat)
    (continue : bool) :
  memo_holds valid_guesses solutions m_memo →
  memo_decides sv valid_guesses solutions m_memo →
  Forall (λ s, (s < length solutions)%nat) avail →
  Forall (decides sv valid_guesses solutions) (children subtree) →
  traverse_match sv solve_rec m_memo subtree (guess_index subtree) depth
                 avail
  = Some (subtree', m_memo', continue) →
  Forall (decides sv valid_guesses solutions) (children subtree') ∧
  memo_decides sv valid_guesses solutions m_memo' ∧
  ∃ b_new,
    (∀ s, s ∈ b_new → s ∈ avail) ∧
    ∀ b, b ∈ branches valid_guesses solutions subtree' →
         b = b_new ∨ b ∈ branches valid_guesses solutions subtree.
Proof.
  intros Hholds Hmemo Hfeasible Hkids. unfold traverse_match.
  destruct avail as [|s [|s' rest]].
  - intros [= <- <- <-]. split_and!; [done | done |].
    exists []. split; [done|]. intros b Hb. by right.
  - intros [= <- <- <-].
    destruct (mark_solved_branches subtree s) as [Hch Hbr].
    { apply Forall_cons in Hfeasible. apply Hfeasible. }
    rewrite Hch. split_and!; [done | done |].
    exists [s]. split; [done|]. exact Hbr.
  - destruct (solve_rec m_memo (s :: s' :: rest) (depth + 1))
      as [[child memo1]|] eqn:Hrec; cbn [mbind option_bind]; [|done].
    destruct (solve_rec_holds _ _ _ _ _ Hholds Hfeasible Hrec)
      as [[_ Hcin] _].
    destruct (solve_rec_decides _ _ _ _ _ Hholds Hmemo Hfeasible Hrec)
      as [Hchild Hmemo1].
    destruct subtree as [gi td sc md lf ch lv].
    cbn [guess_index children] in *.
    intros [= <- <- <-]. cbn [children].
    split_and!; [|done|].
    + apply Forall_app. split; [done|]. by apply Forall_singleton.
    + exists (solutions_held valid_guesses solutions child).
      split; [exact Hcin|]. unfold branches.
      cbn [guess_index is_leaf children leaves].
      rewrite fmap_app. cbn [fmap list_fmap].
      intros b. rewrite !elem_of_app, list_elem_of_singleton. tauto.
Qed.

Lemma traverse_match_loop_decides (buckets : list (list nat)) (depth : Z)
    (F : list nat) (matches : list nat) (m_memo m_memo' : memo_t)
    (subtree subtree' : node) :
  NoDup matches →
  Forall (λ s, (s < length solutions)%nat) F →
  (∀ m s, s ∈ default [] (buckets !! m) →
          s ∈ F ∧
          Z.to_nat (lookup_match sv (guess_index subtree) s) = m) →
  memo_holds valid_guesses solutions m_memo →
  memo_decides sv valid_guesses solutions m_memo →
  NoDup (solutions_held valid_guesses solutions subtree) →
  (∀ s, s ∈ solutions_held valid_guesses solutions subtree →
        s ∈ F ∧
        Z.to_nat (lookup_match sv (guess_index subtree) s) ∉ matches) →
  Forall (decides sv valid_guesses solutions) (children subtree) →
  tells_apart sv valid_guesses solutions subtree →
  traverse_match_loop sv solve_rec buckets m_memo subtree
                      (guess_index subtree) depth matches
  = Some (subtree', m_memo') →
  decides sv valid_guesses solutions subtree' ∧
  memo_decides sv valid_guesses solutions m_memo'.
Proof.
  intros Hnd Hfeasible. revert m_memo subtree.
  induction Hnd as [|m rest Hnotin Hnd IH];
    intros m_memo subtree Hbuckets Hholds Hmemo Hheld Hdone Hkids Hapart;
    cbn [traverse_match_loop].
  - intros [= <- <-]. split; [by constructor | done].
  - destruct (traverse_match sv solve_rec m_memo subtree
                (guess_index subtree) depth (default [] (buckets !! m)))
      as [[[subtree1 memo1] continue]|] eqn:Hstep;
      cbn [mbind option_bind]; [|done].
    assert (Hfeasible_m : Forall (λ s, (s < length solutions)%nat)
                                 (default [] (buckets !! m))).
    { apply Forall_forall. intros s Hs.
      rewrite Forall_forall in Hfeasible.
      by apply Hfeasible, (Hbuckets m). }
    assert (Hfresh : ∀ s, s ∈ default [] (buckets !! m) →
              s ∉ solutions_held valid_guesses solutions subtree).
    { intros s Hs Hold. destruct (Hdone s Hold) as [_ Hm].
      destruct (Hbuckets m s Hs) as [_ Hm']. set_solver. }
    pose proof Hstep as Hstep'.
    apply (traverse_match_holds valid_guesses solutions sv match_range
             all_greens_index solve_rec solve_rec_holds) in Hstep'
      as (Hg1 & Hheld1 & Hholds1 & Hin1); [|done..].
    apply traverse_match_decides in Hstep
      as (Hkids1 & Hmemo1 & b_new & Hnew & Hbr1); [|done..].
    assert (Hdone1 : ∀ s,
              s ∈ solutions_held valid_guesses solutions subtree1 →
              s ∈ F ∧
              Z.to_nat (lookup_match sv (guess_index subtree) s) ∉ rest).
    { intros s Hs. destruct (Hin1 s Hs) as [Hold|Hnew'].
      - destruct (Hdone s Hold) as [HF Hm]. set_solver.
      - destruct (Hbuckets m s Hnew') as [HF ->]. done. }
    assert (Hapart1 : tells_apart sv valid_guesses solutions subtree1).
    { intros b b' s s' Hb Hb' Hs Hs'. rewrite Hg1.
      assert (Hkey : ∀ c x, c ∈ branches valid_guesses solutions subtree →
                x ∈ c →
                Z.to_nat (lookup_match sv (guess_index subtree) x) ≠ m).
      { intros c x Hc Hx.
        destruct (Hdone x) as [_ Hm].
        - apply elem_of_solutions_held. by exists c.
        - intros Heq. apply Hm. rewrite Heq. by left. }
      assert (Hkey_new : ∀ x, x ∈ b_new →
                Z.to_nat (lookup_match sv (guess_index subtree) x) = m).
      { intros x Hx. by apply (Hbuckets m), Hnew. }
      destruct (Hbr1 b Hb) as [->|Hold], (Hbr1 b' Hb') as [->|Hold'].
      - split; [done|]. intros _.
        pose proof (Hkey_new s Hs). pose proof (Hkey_new s' Hs').
        pose proof (match_range (guess_index subtree) s).
        pose proof (match_range (guess_index subtree) s'). lia.
      - pose proof (Hkey_new s Hs). pose proof (Hkey b' s' Hold' Hs').
        split; [intros Heq; rewrite Heq in *; congruence|].
        intros <-. destruct (Hkey b_new s Hold' Hs). done.
      - pose proof (Hkey b s Hold Hs). pose proof (Hkey_new s' Hs').
        split; [intros Heq; rewrite Heq in *; congruence|].
        intros ->. destruct (Hkey b_new s' Hold Hs'). done.
      - by apply Hapart. }
    destruct continue.
    + rewrite <- Hg1. apply IH; rewrite ?Hg1; done.
    + intros [= <- <-]. split; [by constructor | done].
Qed.

Lemma traverse_matches_decides (m_memo m_memo' : memo_t) (g : nat)
    (F : list nat) (depth : Z) (subtree' : node) :
  memo_holds valid_guesses solutions m_memo →
  memo_decides sv valid_guesses solutions m_memo →
  Forall (λ s, (s < length solutions)%nat) F →
  traverse_matches sv solve_rec m_memo (Node g 0 0 0 false [] []) g F depth
  = Some (subtree', m_memo') →
  decides sv valid_guesses solutions subtree' ∧
  memo_decides sv valid_guesses solutions m_memo'.
Proof.
  intros Hholds Hmemo Hfeasible Htrav. unfold traverse_matches in Htrav.
  destruct (get_solutions_by_match_spec sv g F match_range)
    as (Hlen & Hbuckets & _).
  set (buckets := get_solutions_by_match sv g F) in *.
  apply (traverse_match_loop_decides buckets depth F _ _ _
           (Node g 0 0 0 false [] [])) in Htrav;
    [done | apply NoDup_seq | done | | done | done | | | |].
  - intros m s Hs. cbn [guess_index].
    destruct (decide (m < Z.to_nat NUM_MATCH_VALS)%nat) as [Hm|Hm].
    + rewrite (Hbuckets m Hm) in Hs. cbn [default] in Hs.
      by apply list_elem_of_filter in Hs as [Hs Hin].
    + rewrite lookup_ge_None_2 in Hs by lia. by apply elem_of_nil in Hs.
  - constructor.
  - intros s Hs. by apply elem_of_nil in Hs.
  - constructor.
  - intros b b' s s' Hb. by apply elem_of_nil in Hb.
Qed.

Lemma explore_decides (best_guesses : list (Q * nat))
    (m_memo m_memo' : memo_t) (F : list nat) (depth : Z)
    (subtrees : list node) :
  memo_holds valid_guesses solutions m_memo →
  memo_decides sv valid_guesses solutions m_memo →
  Forall (λ s, (s < length solutions)%nat) F →
  explore sv solve_rec m_memo F depth best_guesses
  = Some (subtrees, m_memo') →
  Forall (decides sv valid_guesses solutions) subtrees ∧
  memo_decides sv valid_guesses solutions m_memo'.
Proof.
  intros Hholds Hmemo Hfeasible.
  revert m_memo m_memo' subtrees Hholds Hmemo.
  induction best_guesses as [|[avg g] rest IH];
    intros m_memo m_memo' subtrees Hholds Hmemo; cbn [explore].
  - intros [= <- <-]. done.
  - destruct (traverse_matches sv solve_rec m_memo
                (Node g 0 0 0 false [] []) g F depth)
      as [[subtree memo1]|] eqn:Htrav; cbn [mbind option_bind]; [|done].
    pose proof Htrav as Htrav'.
    apply (traverse_matches_holds valid_guesses solutions sv match_range
             all_greens_index solve_rec solve_rec_holds) in Htrav'
      as [_ Hholds1]; [|done..].
    apply traverse_matches_decides in Htrav as [Hsub Hmemo1]; [|done..].
    destruct (explore sv solve_rec memo1 F depth rest)
      as [[subtrees' memo2]|] eqn:Hrest; cbn [mbind option_bind]; [|done].
    destruct (IH _ _ _ Hholds1 Hmemo1 Hrest) as [Hall Hmemo2].
    intros [= <- <-]. split; [by constructor | done].
Qed.

Lemma solve_body_decides
    (partial_sort : nat → list (Q * nat) → list (Q * nat)) :
  rec_decides sv valid_guesses solutions
              (solve_body partial_sort sv solve_rec).
Proof.
  intros m_memo F depth n m_memo' Hholds Hmemo Hfeasible.
  unfold solve_body.
  assert (Hexplore :
    (explore sv solve_rec m_memo F depth
       (get_best_unique_match_guesses partial_sort sv F)
     ≫= λ '(subtrees, m_memo0), select m_memo0 F depth subtrees)
    = Some (n, m_memo') →
    decides sv valid_guesses solutions n ∧
    memo_decides sv valid_guesses solutions m_memo').
  { destruct (explore _ _ _ _ _ _) as [[subtrees memo1]|] eqn:Hexp;
      cbn [mbind option_bind]; [|done].
    destruct (explore_decides _ _ _ _ _ _ Hholds Hmemo Hfeasible Hexp)
      as [Hall Hmemo1].
    intros Hsel. apply select_inv in Hsel as [Hin ->].
    rewrite Forall_forall in Hall.
    split; [by apply Hall|]. apply map_Forall_insert_2; [|done].
    by apply Hall. }
  destruct (lookup_memo m_memo F) as [cached|] eqn:Hlook; [|done].
  destruct (within_depth depth cached); [|done].
  intros [= <- <-]. split; [|done]. by apply (Hmemo F).
Qed.

End Decides.

Lemma solve_indexes_decides
    (partial_sort : nat → list (Q * nat) → list (Q * nat))
    (valid_guesses solutions : list string) (sv : solver) (fuel : nat) :
  (∀ g s, 0 ≤ lookup_match sv g s < NUM_MATCH_VALS) →
  (∀ g s, (s < length solutions)%nat →
          lookup_match sv g s = ALL_GREENS_MATCH →
          guess_to_solution_index g valid_guesses solutions = s) →
  rec_decides sv valid_guesses solutions
              (solve_indexes partial_sort sv fuel).
Proof.
  intros Hrange Hgreen. induction fuel as [|fuel IH]; cbn [solve_indexes].
  - intros m_memo F depth n m_memo' _ _ _ H. discriminate H.
  - apply solve_body_decides; [done | done | | done].
    by apply solve_indexes_holds.
Qed.

(** X20: over solutions without a duplicate, the tree that [solve]
    returns for a constructed solver is a strategy: at every node, two
    solutions held below the node have the same match against the guess
    of the node exactly when they are held in the same branch, where the
    branches are the node itself as a leaf, each of its leaves, and each
    of its children; so the match of the guess tells which branch to
    follow. *)
Theorem solve_tree_decides
    (partial_sort : nat → list (Q * nat) → list (Q * nat))
    (valid_guesses solutions : list string) (sv : solver) (fuel : nat)
    (prune_limit : Z) (root : node) :
  new_solver valid_guesses solutions = inr sv → NoDup solutions →
  (solve partial_sort sv fuel prune_limit).2 = Some root →
  decides (solve partial_sort sv fuel prune_limit).1 valid_guesses
          solutions root.
Proof.
  intros Hnew Hnd. unfold solve. cbn [fst snd].
  apply new_solver_inr in Hnew as Hinr.
  destruct Hinr as (_ & HS & _ & _ & _ & Hrange).
  change (m_num_solutions (set_prune_limit sv prune_limit))
    with (m_num_solutions sv). rewrite HS.
  destruct (solve_indexes _ _ _ _ _ _) as [[n m_memo]|] eqn:H; [|done].
  intros [= <-].
  destruct (solve_indexes_decides partial_sort valid_guesses solutions
              (set_prune_limit sv prune_limit) fuel Hrange
              (λ g s, all_greens_solution_index _ _ _ g s Hnew Hnd)
              ∅ (seq 0 (length solutions)) 0 n m_memo) as [Hn _];
    [apply map_Forall_empty | apply map_Forall_empty | | done | done].
  apply Forall_forall. intros s Hs. apply elem_of_seq in Hs. lia.
Qed.

Lemma solve_tree_decides_witness :
  ∃ root,
    (solve Libstdcxx.partial_sort batch_solver 4 8).2 = Some root ∧
    decides (solve Libstdcxx.partial_sort batch_solver 4 8).1 batch_words
            batch_words root.
Proof.
  destruct (solve Libstdcxx.partial_sort batch_solver 4 8).2
    as [root|] eqn:Hroot.
  - exists root. split; [reflexivity|].
    refine (solve_tree_decides Libstdcxx.partial_sort batch_words
              batch_words batch_solver 4 8 root eq_refl _ Hroot).
    apply (bool_decide_unpack _). by vm_compute.
  - exfalso. vm_compute in Hroot. discriminate Hroot.
Defined.

(** ** The line that [print_tree] writes *)

Lemma get_best_unique_match_guesses_below
    (partial_sort : nat → list (Q * nat) → list (Q * nat)) (sv : solver)
    (F : list nat) :
  partial_sort_contract partial_sort →
  0 ≤ m_prune_limit sv < Z.of_nat (m_num_valid_guesses sv) →
  Forall (λ p, (p.2 < m_num_valid_guesses sv)%nat)
         (get_best_unique_match_guesses partial_sort sv F).
Proof.
  intros Hsort Hlimit. unfold get_best_unique_match_guesses.
  pose proof (rank_guesses_spec (avg_solutions_per_unique_match sv F)
                (seq 0 (m_num_valid_guesses sv)) []) as Hrank.
  destruct (rank_guesses _ _ _) as [early|ret].
  - destruct Hrank as (pre & g & post & Hseq & -> & _).
    apply Forall_singleton. cbn [snd].
    assert (g ∈ seq 0 (m_num_valid_guesses sv)) as Hg
      by (rewrite Hseq; set_solver).
    apply elem_of_seq in Hg. lia.
  - destruct Hrank as [-> _]. cbn [app].
    set (ret := (λ g, (avg_solutions_per_unique_match sv F g, g))
                  <$> seq 0 (m_num_valid_guesses sv)).
    assert (length ret = m_num_valid_guesses sv) as Hlen
      by (subst ret; by rewrite length_fmap, length_seq).
    destruct (Hsort (Z.to_nat (m_prune_limit sv + 1)) ret) as [Hperm _];
      [lia|].
    rewrite resize_le
      by (apply Permutation_length in Hperm; rewrite Hperm; lia).
    apply Forall_take. rewrite Hperm. subst ret.
    apply Forall_fmap, Forall_forall. intros g Hg. cbn [snd].
    apply elem_of_seq in Hg. cbn. lia.
Qed.

Section Guesses.

Variable sv : solver.
Variable G : nat.
Variable solve_rec : memo_t → list nat → Z → option (node * memo_t).
Hypothesis solve_rec_guesses : rec_guesses_below G solve_rec.

Lemma traverse_match_guesses (m_memo m_memo' : memo_t)
    (subtree subtree' : node) (g : nat) (depth : Z) (avail : list nat)
    (continue : bool) :
  memo_guesses_below G m_memo → guesses_below G subtree →
  traverse_match sv solve_rec m_memo subtree g depth avail
  = Some (subtree', m_memo', continue) →
  guesses_below G subtree' ∧ memo_guesses_below G m_memo'.
Proof.
  intros Hmemo Hsub. unfold traverse_match.
  inversion Hsub as [n Hg Hkids Hn]. subst n.
  destruct avail as [|s [|s' rest]].
  - intros [= <- <- <-]. done.
  - intros [= <- <- <-]. split; [|done].
    destruct subtree as [gi td sc md lf ch lv]. unfold mark_solved.
    cbn [guess_index children] in *.
    destruct (lookup_match sv g s =? ALL_GREENS_MATCH); by constructor.
  - destruct (solve_rec m_memo (s :: s' :: rest) (depth + 1))
      as [[child memo1]|] eqn:Hrec; cbn [mbind option_bind]; [|done].
    destruct (solve_rec_guesses _ _ _ _ _ Hmemo Hrec) as [Hchild Hmemo1].
    destruct subtree as [gi td sc md lf ch lv].
    cbn [guess_index children] in *.
    intros [= <- <- <-]. split; [|done]. constructor; [done|].
    cbn [children]. apply Forall_app. split; [done|].
    by apply Forall_singleton.
Qed.

Lemma traverse_match_loop_guesses (buckets : list (list nat)) (g : nat)
    (depth : Z) (matches : list nat) (m_memo m_memo' : memo_t)
    (subtree subtree' : node) :
  memo_guesses_below G m_memo → guesses_below G subtree →
  traverse_match_loop sv solve_rec buckets m_memo subtree g depth matches
  = Some (subtree', m_memo') →
  guesses_below G subtree' ∧ memo_guesses_below G m_memo'.
Proof.
  revert m_memo subtree.
  induction matches as [|m rest IH]; intros m_memo subtree Hmemo Hsub;
    cbn [traverse_match_loop].
  - intros [= <- <-]. done.
  - destruct (traverse_match sv solve_rec m_memo subtree g depth
                (default [] (buckets !! m)))
      as [[[subtree1 memo1] continue]|] eqn:Hstep;
      cbn [mbind option_bind]; [|done].
    apply traverse_match_guesses in Hstep as [Hsub1 Hmemo1]; [|done..].
    destruct continue; [by apply IH|].
    intros [= <- <-]. done.
Qed.

Lemma explore_guesses (best_guesses : list (Q * nat))
    (m_memo m_memo' : memo_t) (F : list nat) (depth : Z)
    (subtrees : list node) :
  Forall (λ p, (p.2 < G)%nat) best_guesses →
  memo_guesses_below G m_memo →
  explore sv solve_rec m_memo F depth best_guesses
  = Some (subtrees, m_memo') →
  Forall (guesses_below G) subtrees ∧ memo_guesses_below G m_memo'.
Proof.
  intros Hbest. revert m_memo m_memo' subtrees.
  induction Hbest as [|[avg g] rest Hg Hrest IH];
    intros m_memo m_memo' subtrees Hmemo; cbn [explore].
  - intros [= <- <-]. done.
  - destruct (traverse_matches sv solve_rec m_memo
                (Node g 0 0 0 false [] []) g F depth)
      as [[subtree memo1]|] eqn:Htrav; cbn [mbind option_bind]; [|done].
    unfold traverse_matches in Htrav.
    apply traverse_match_loop_guesses in Htrav as [Hsub Hmemo1];
      [|done|by constructor].
    destruct (explore sv solve_rec memo1 F depth rest)
      as [[subtrees' memo2]|] eqn:Hexp; cbn [mbind option_bind]; [|done].
    destruct (IH _ _ _ Hmemo1 Hexp) as [Hall Hmemo2].
    intros [= <- <-]. split; [by constructor | done].
Qed.

Lemma solve_body_guesses
    (partial_sort : nat → list (Q * nat) → list (Q * nat)) :
  partial_sort_contract partial_sort →
  G = m_num_valid_guesses sv →
  0 ≤ m_prune_limit sv < Z.of_nat (m_num_valid_guesses sv) →
  rec_guesses_below G (solve_body partial_sort sv solve_rec).
Proof.
  intros Hsort HG Hlimit m_memo F depth n m_memo' Hmemo.
  unfold solve_body.
  assert (Hexplore :
    (explore sv solve_rec m_memo F depth
       (get_best_unique_match_guesses partial_sort sv F)
     ≫= λ '(subtrees, m_memo0), select m_memo0 F depth subtrees)
    = Some (n, m_memo') →
    guesses_below G n ∧ memo_guesses_below G m_memo').
  { destruct (explore _ _ _ _ _ _) as [[subtrees memo1]|] eqn:Hexp;
      cbn [mbind option_bind]; [|done].
    apply explore_guesses in Hexp as [Hall Hmemo1]; [| |done].
    2:{ rewrite HG. by apply get_best_unique_match_guesses_below. }
    intros Hsel. apply select_inv in Hsel as [Hin ->].
    rewrite Forall_forall in Hall.
    split; [by apply Hall|]. apply map_Forall_insert_2; [|done].
    by apply Hall. }
  destruct (lookup_memo m_memo F) as [cached|] eqn:Hlook; [|done].
  destruct (within_depth depth cached); [|done].
  intros [= <- <-]. split; [|done]. by apply (Hmemo F).
Qed.

End Guesses.

Lemma solve_indexes_guesses
    (partial_sort : nat → list (Q * nat) → list (Q * nat)) (sv : solver)
    (fuel : nat) :
  partial_sort_contract partial_sort →
  0 ≤ m_prune_limit sv < Z.of_nat (m_num_valid_guesses sv) →
  rec_guesses_below (m_num_valid_guesses sv)
                    (solve_indexes partial_sort sv fuel).
Proof.
  intros Hsort Hlimit. induction fuel as [|fuel IH]; cbn [solve_indexes].
  - intros m_memo F depth n m_memo' _ H. discriminate H.
  - by apply solve_body_guesses.
Qed.

Lemma stack_of_guesses_below (valid_guesses solutions : list string)
    (G : nat) (guesses_so_far : list nat) (tree : node) (s : nat)
    (stack : list nat) :
  stack_of valid_guesses solutions guesses_so_far tree s stack →
  guesses_below G tree → Forall (λ g, (g < G)%nat) guesses_so_far →
  Forall (λ g, (g < G)%nat) stack.
Proof.
  induction 1 as [pre tree Hleaf | pre tree s Hs
                 | pre tree child s stack Hc Hof IH];
    intros Htree Hpre; inversion Htree as [n Hg Hkids Hn]; subst n.
  - done.
  - apply Forall_app. split; [done|]. by apply Forall_singleton.
  - apply IH.
    + rewrite Forall_forall in Hkids. by apply Hkids.
    + apply Forall_app. split; [done|]. by apply Forall_singleton.
Qed.

Lemma match_strings_entry (valid_guesses solutions : list string)
    (sv : solver) (g s : nat) (guess solution : string) :
  new_solver valid_guesses solutions = inr sv →
  valid_guesses !! g = Some guess → solutions !! s = Some solution →
  m_match_strings sv !! Z.to_nat (lookup_match sv g s)
  = Some (string_of_list_ascii (match_string (match_loop guess solution))).
Proof.
  intros Hnew Hg Hs.
  rewrite (lookup_match_new_solver _ _ _ _ _ _ _ Hnew Hg Hs).
  rewrite calc_match_val_val.
  destruct (match_entry_at valid_guesses solutions g s guess solution Hg Hs)
    as [He Hp].
  rewrite <- He, <- Hp.
  unfold new_solver in Hnew.
  destruct (check_guesses_solutions valid_guesses solutions); [done|].
  apply (inj inr) in Hnew. subst sv.
  apply lookup_lt_Some in Hg as Hg'. apply lookup_lt_Some in Hs as Hs'.
  apply (init_match_vals_strings valid_guesses solutions
           (seq 0 (length valid_guesses))
           (replicate (length valid_guesses * length solutions) 0,
            replicate (Z.to_nat NUM_MATCH_VALS) EmptyString)
           (g * length solutions + s)%nat).
  { apply length_replicate. }
  right. exists g, s. split_and!; [|done|done]. apply elem_of_seq. lia.
Qed.

Lemma print_tree_stack_play_line (valid_guesses solutions : list string)
    (sv : solver) (prune_limit : Z) (s : nat) (solution : string)
    (stack : list nat) :
  new_solver valid_guesses solutions = inr sv →
  solutions !! s = Some solution →
  Forall (λ g, (g < length valid_guesses)%nat) stack →
  print_tree_stack (set_prune_limit sv prune_limit) valid_guesses solutions
                   s stack
  = play_line valid_guesses solution stack.
Proof.
  intros Hnew Hs. unfold print_tree_stack, play_line.
  induction 1 as [|g stack Hg Hstack IH]; cbn [foldr].
  - by rewrite Hs.
  - rewrite IH. cbn zeta.
    destruct (lookup_lt_is_Some_2 valid_guesses g Hg) as [guess Hguess].
    rewrite lookup_match_set_prune_limit.
    change (m_match_strings (set_prune_limit sv prune_limit))
      with (m_match_strings sv).
    rewrite (match_strings_entry _ _ _ _ _ _ _ Hnew Hguess Hs).
    by rewrite Hguess.
Qed.

Lemma solve_root_guesses_below
    (partial_sort : nat → list (Q * nat) → list (Q * nat))
    (valid_guesses solutions : list string) (sv : solver) (fuel : nat)
    (prune_limit : Z) (root : node) :
  new_solver valid_guesses solutions = inr sv →
  partial_sort_contract partial_sort →
  Z.of_nat (length valid_guesses) ≤ INT_MAX →
  0 ≤ prune_limit ≤ INT_MAX →
  (solve partial_sort sv fuel prune_limit).2 = Some root →
  guesses_below (length valid_guesses) root.
Proof.
  intros Hnew Hsort Hmax Hlimit. unfold solve. cbn [snd].
  apply new_solver_inr in Hnew as (HG & _ & Hne & _).
  assert (1 ≤ length valid_guesses)%nat as Hone
    by (destruct valid_guesses; [done | cbn [length]; lia]).
  destruct (solve_indexes _ _ _ _ _ _) as [[n m_memo]|] eqn:H; [|done].
  intros [= <-].
  destruct (solve_indexes_guesses partial_sort
              (set_prune_limit sv prune_limit) fuel Hsort) with
    (m_memo := (∅ : memo_t)) (F := seq 0 (m_num_solutions
                                            (set_prune_limit sv prune_limit)))
    (depth := 0) (n := n) (m_memo' := m_memo) as [Hn _];
    [| apply map_Forall_empty | done |].
  - rewrite set_prune_limit_limit by (rewrite ?HG; lia).
    change (m_num_valid_guesses (set_prune_limit sv prune_limit))
      with (m_num_valid_guesses sv). rewrite HG. lia.
  - change (m_num_valid_guesses (set_prune_limit sv prune_limit))
      with (m_num_valid_guesses sv) in Hn. by rewrite HG in Hn.
Qed.

(** X21: over solutions without a duplicate and with a partial sort that
    meets its contract, when the root that [solve] returns for a
    constructed solver counts every solution, [print_tree] with a
    solution as target writes the line of a game: guesses of the list of
    valid guesses on a way down the tree to the target, each followed by
    the pattern string that the match encoder builds for that guess
    against the target, and the target at the end. *)
Theorem print_tree_target_line
    (partial_sort : nat → list (Q * nat) → list (Q * nat))
    (valid_guesses solutions : list string) (sv : solver) (fuel : nat)
    (prune_limit : Z) (root : node) (s : nat) (target : string) :
  new_solver valid_guesses solutions = inr sv → NoDup solutions →
  partial_sort_contract partial_sort →
  Z.of_nat (length valid_guesses) ≤ INT_MAX →
  0 ≤ prune_limit ≤ INT_MAX →
  (solve partial_sort sv fuel prune_limit).2 = Some root →
  solved_count root = Z.of_nat (length solutions) →
  solutions !! s = Some target →
  ∃ stack,
    stack_of valid_guesses solutions [] root s stack ∧
    Forall (λ g, (g < length valid_guesses)%nat) stack ∧
    print_tree_target (solve partial_sort sv fuel prune_limit).1 root
                      valid_guesses solutions target
    = inr (play_line valid_guesses target stack).
Proof.
  intros Hnew Hnd Hsort Hmax Hlimit Hroot Hall Hs.
  destruct (solve_root_held_all _ _ _ _ _ _ _ Hnew Hnd Hroot) as [_ Hheld].
  apply lookup_lt_Some in Hs as Hlt.
  destruct (print_tree_target_held
              (solve partial_sort sv fuel prune_limit).1 root valid_guesses
              solutions s target Hnd Hs (Hheld Hall s Hlt))
    as (stack & Hof & Hprint).
  pose proof (solve_root_guesses_below _ _ _ _ _ _ _ Hnew Hsort Hmax Hlimit
                Hroot) as Hbelow.
  pose proof (stack_of_guesses_below _ _ _ _ _ _ _ Hof Hbelow
                ltac:(constructor)) as Hstack.
  exists stack. split_and!; [done | done |].
  rewrite Hprint. f_equal. unfold solve. cbn [fst].
  by apply print_tree_stack_play_line.
Qed.


Lemma print_tree_target_line_witness :
  ∃ root,
    (solve sorting_partial_sort batch_solver 4 8).2 = Some root ∧
    ∃ stack,
      stack_of batch_words batch_words [] root 3 stack ∧
      Forall (λ g, (g < length batch_words)%nat) stack ∧
      print_tree_target (solve sorting_partial_sort batch_solver 4 8).1
                        root batch_words batch_words "latch"
      = inr (play_line batch_words "latch" stack).
Proof.
  assert (∃ root,
            (solve sorting_partial_sort batch_solver 4 8).2 = Some root ∧
            solved_count root = Z.of_nat (length batch_words))
    as (root & Hroot & Hall).
  { eexists. split; [vm_compute; reflexivity|]. by vm_compute. }
  exists root. split; [exact Hroot|].
  assert (NoDup batch_words) as Hnd
    by (apply (bool_decide_unpack _); by vm_compute).
  assert (Z.of_nat (length batch_words) ≤ INT_MAX) as Hmax
    by (unfold INT_MAX; cbn [length batch_words]; lia).
  assert (0 ≤ 8 ≤ INT_MAX) as Hlimit by (unfold INT_MAX; lia).
  exact (print_tree_target_line sorting_partial_sort batch_words
           batch_words batch_solver 4 8 root 3 "latch" eq_refl Hnd
           sorting_partial_sort_contract Hmax Hlimit Hroot Hall eq_refl).
Defined.
